(** * mapreduce-llm: the token-aware chunker and the map/cache/reduce pipeline

    A shallow embedding of package [internal/cli]: [splitIntoTokenChunks],
    [processChunk] and [ProcessWithClient] of its processing file, with the
    parts of Go's standard library they call ([strings], [path/filepath],
    [fmt], [os]) and of [golang.org/x/sync/errgroup].

    Go strings are byte sequences: they are lists of [ascii] here.  Go's [int]
    is modelled by [Z]; the only arithmetic of the program adds lengths of
    slices that are held in memory, so no sum reaches 2^63 and no wrap-around
    is written out. *)

From Stdlib Require Import ZArith Lia Ascii String List.
From stdpp Require Import base list strings gmap pretty.

Abbreviation gostring := (list ascii).

(** A string literal as a Go string. *)
Definition lit (s : string) : gostring := list_ascii_of_string s.

(** The byte ['\n'] and the one-byte strings ["\n"] and [" "]. *)
Definition LF : ascii := "010"%char.
Definition nl : gostring := [LF].
Definition sp : gostring := [" "%char].

(** Numeric value of a byte. *)
Definition code (c : ascii) : N := N_of_ascii c.

(** ** Go's [error] values

    [errorString] is an error that carries only a message ([errors.New],
    [fmt.Errorf] without [%w], and the errors of the operating system and of
    the generation client, which are opaque to this program); [wrapError] is
    what [fmt.Errorf] returns when the format has a [%w] verb: the formatted
    message and the wrapped cause. *)
Inductive error : Type :=
| errorString (msg : gostring)
| wrapError (msg : gostring) (cause : error).

(** The method [Error()]. *)
Definition Error (e : error) : gostring :=
  match e with
  | errorString msg => msg
  | wrapError msg _ => msg
  end.

#[global] Instance error_eq_dec : EqDecision error.
Proof. solve_decision. Defined.

Module Fmt.

(** [%d] of an [int]. *)
Definition itoa (n : Z) : gostring := lit (pretty n).

(** [fmt.Errorf(prefix + "%w", err)]. *)
Definition Errorf_w (prefix : gostring) (err : error) : error :=
  wrapError (prefix ++ Error err) err.

End Fmt.

(** ** Package [strings] *)
Module Strings.

(** The six ASCII bytes for which [unicode.IsSpace] holds:
    ['\t'], ['\n'], ['\v'], ['\f'], ['\r'] and [' ']. *)
Definition asciiSpace (c : ascii) : bool :=
  match code c with
  | 9%N | 10%N | 11%N | 12%N | 13%N | 32%N => true
  | _ => false
  end.

(** The white-space runes with a two-byte UTF-8 encoding:
    U+0085 (C2 85) and U+00A0 (C2 A0). *)
Definition space2 (c1 c2 : ascii) : bool :=
  (code c1 =? 194)%N && ((code c2 =? 133)%N || (code c2 =? 160)%N).

(** The white-space runes with a three-byte UTF-8 encoding: U+1680
    (E1 9A 80), U+2000..U+200A (E2 80 80..8A), U+2028, U+2029, U+202F
    (E2 80 A8, A9, AF), U+205F (E2 81 9F) and U+3000 (E3 80 80). *)
Definition space3 (c1 c2 c3 : ascii) : bool :=
  ((code c1 =? 225)%N && (code c2 =? 154)%N && (code c3 =? 128)%N)
  || ((code c1 =? 226)%N && (code c2 =? 128)%N
      && (((128 <=? code c3)%N && (code c3 <=? 138)%N)
          || (code c3 =? 168)%N || (code c3 =? 169)%N || (code c3 =? 175)%N))
  || ((code c1 =? 226)%N && (code c2 =? 129)%N && (code c3 =? 159)%N)
  || ((code c1 =? 227)%N && (code c2 =? 128)%N && (code c3 =? 128)%N).

(** A continuation byte of UTF-8 (10xxxxxx); the others start a rune. *)
Definition isCont (c : ascii) : bool :=
  (128 <=? code c)%N && (code c <? 192)%N.

(** [scan s] reads [s] the way [for _, r := range s] does and keeps, for each
    rune, whether [unicode.IsSpace] holds: [None] stands for one white-space
    rune (of one, two or three bytes), [Some c] for a byte [c] of any other
    rune.  A rune that is not white space is left as its bytes: every
    white-space encoding starts with a byte that is not a continuation byte,
    and the decoder never consumes such a byte as the second, third or fourth
    byte of a rune (an invalid sequence is consumed one byte at a time), so
    white-space runes are found at the same offsets whether the scan advances
    rune by rune or byte by byte inside the other runes. *)
Fixpoint scan (s : gostring) : list (option ascii) :=
  match s with
  | [] => []
  | c1 :: t1 =>
    if asciiSpace c1 then None :: scan t1
    else match t1 with
    | [] => Some c1 :: scan t1
    | c2 :: t2 =>
      if space2 c1 c2 then None :: scan t2
      else match t2 with
      | [] => Some c1 :: scan t1
      | c3 :: t3 =>
        if space3 c1 c2 c3 then None :: scan t3
        else Some c1 :: scan t1
      end
    end
  end.

(** Closing the current span of [FieldsFunc]: a span is only recorded when
    it has been opened ([start >= 0]), so the empty span is never emitted. *)
Definition emit (cur : gostring) : list gostring :=
  match cur with
  | [] => []
  | _ => [cur]
  end.

Fixpoint words (cur : gostring) (ts : list (option ascii)) : list gostring :=
  match ts with
  | [] => emit cur
  | None :: r => emit cur ++ words [] r
  | Some c :: r => words (cur ++ [c]) r
  end.

(** [strings.Fields]: the maximal substrings of [s] that contain no
    white-space rune. *)
Definition Fields (s : gostring) : list gostring := words [] (scan s).

(** [strings.TrimLeftFunc(s, unicode.IsSpace)]. *)
Fixpoint trimLeft (s : gostring) : gostring :=
  match s with
  | [] => []
  | c1 :: t1 =>
    if asciiSpace c1 then trimLeft t1
    else match t1 with
    | [] => s
    | c2 :: t2 =>
      if space2 c1 c2 then trimLeft t2
      else match t2 with
      | [] => s
      | c3 :: t3 => if space3 c1 c2 c3 then trimLeft t3 else s
      end
    end
  end.

(** [strings.TrimRightFunc(s, unicode.IsSpace)] on the reversed string:
    [r] holds the bytes of [s] from the last to the first, and
    [utf8.DecodeLastRuneInString] finds a white-space rune exactly when the
    string ends with one of the white-space encodings. *)
Fixpoint trimRightRev (r : gostring) : gostring :=
  match r with
  | [] => []
  | z1 :: t1 =>
    if asciiSpace z1 then trimRightRev t1
    else match t1 with
    | [] => r
    | z2 :: t2 =>
      if space2 z2 z1 then trimRightRev t2
      else match t2 with
      | [] => r
      | z3 :: t3 => if space3 z3 z2 z1 then trimRightRev t3 else r
      end
    end
  end.

(** [strings.TrimSpace]. *)
Definition TrimSpace (s : gostring) : gostring :=
  rev (trimRightRev (rev (trimLeft s))).

(** [strings.HasSuffix]. *)
Definition HasSuffix (s suffix : gostring) : bool :=
  (length suffix <=? length s)%nat
  && bool_decide (drop (length s - length suffix) s = suffix).

(** [strings.TrimSuffix]. *)
Definition TrimSuffix (s suffix : gostring) : gostring :=
  if HasSuffix s suffix then take (length s - length suffix) s else s.

(** [strings.Split(s, sep)] for a separator of one byte (the program only
    splits on ["\n"]). *)
Fixpoint Split (s : gostring) (sep : ascii) : list gostring :=
  match s with
  | [] => [[]]
  | c :: s' =>
    if Ascii.eqb c sep then [] :: Split s' sep
    else match Split s' sep with
         | [] => [[c]]
         | l :: ls => (c :: l) :: ls
         end
  end.

(** [strings.Join]. *)
Fixpoint Join (elems : list gostring) (sep : gostring) : gostring :=
  match elems with
  | [] => []
  | [e] => e
  | e :: es => e ++ sep ++ Join es sep
  end.

(** [strings.ToLower] on the ASCII letters.  On other runes Go applies
    [unicode.ToLower]; no rune outside ASCII has ['y'], ['e'] or ['s'] as its
    lower case, so the comparisons of the program with ["yes"] and ["y"] are
    decided by the ASCII letters alone. *)
Definition lowerByte (c : ascii) : ascii :=
  if ((65 <=? code c)%N && (code c <=? 90)%N)%bool
  then ascii_of_N (code c + 32) else c.

Definition ToLower (s : gostring) : gostring := map lowerByte s.

End Strings.

(** ** The tokenizer ([github.com/tiktoken-go/tokenizer])

    The program uses the codec through [Encode] only, and of its result only
    the number of token ids.  The codec is a parameter of the development. *)
Record Codec : Type := { Encode : gostring → list N }.

Inductive Encoding : Type := Cl100kBase.

(** A codec with one token per byte, used to run the chunker on concrete
    inputs. *)
Definition byteCodec : Codec := {| Encode := map code |}.

(** ** [splitIntoTokenChunks] *)
Module Chunker.
Import Strings.

Local Open Scope Z_scope.

(** [len(tokens)] as an [int]. *)
Definition len {A} (l : list A) : Z := Z.of_nat (length l).

(** [s != ""]. *)
Definition nonEmpty (s : gostring) : bool := bool_decide (s ≠ []).

(** The variables of the loop over the words of an oversized line; [chunks]
    is the slice of the enclosing function. *)
Record WordState : Type := {
  w_chunks : list gostring;
  wordChunk : gostring;
  wordTokens : Z;
}.

(** One iteration of [for _, word := range words]. *)
Definition wordStep (enc : Codec) (maxTokensPerChunk : Z)
    (st : WordState) (word : gostring) : WordState :=
  let wordWithSpace := word ++ sp in
  let wordTokenCount := len (Encode enc wordWithSpace) in
  if (wordTokens st + wordTokenCount >? maxTokensPerChunk)
     && nonEmpty (wordChunk st)
  then {| w_chunks := w_chunks st ++ [TrimSpace (wordChunk st)];
          wordChunk := wordWithSpace;
          wordTokens := wordTokenCount |}
  else {| w_chunks := w_chunks st;
          wordChunk := wordChunk st ++ wordWithSpace;
          wordTokens := wordTokens st + wordTokenCount |}.

(** The variables of the loop over the lines. *)
Record LineState : Type := {
  chunks : list gostring;
  currentChunk : gostring;
  currentTokens : Z;
}.

(** The first statement of the loop body: close the buffer and start a new
    one with the line, or append the line. *)
Definition addLine (maxTokensPerChunk : Z) (st : LineState)
    (lineWithNewline : gostring) (lineTokenCount : Z) : LineState :=
  if (currentTokens st + lineTokenCount >? maxTokensPerChunk)
     && nonEmpty (currentChunk st)
  then {| chunks := chunks st ++ [TrimSuffix (currentChunk st) nl];
          currentChunk := lineWithNewline;
          currentTokens := lineTokenCount |}
  else {| chunks := chunks st;
          currentChunk := currentChunk st ++ lineWithNewline;
          currentTokens := currentTokens st + lineTokenCount |}.

(** The second statement: a line that exceeds the limit on its own is split
    into words. *)
Definition splitLine (enc : Codec) (maxTokensPerChunk : Z)
    (st : LineState) (line : gostring) : LineState :=
  let words := Fields line in
  let ws := fold_left (wordStep enc maxTokensPerChunk) words
              {| w_chunks := chunks st; wordChunk := []; wordTokens := 0 |} in
  if nonEmpty (wordChunk ws)
  then let currentChunk' := TrimSpace (wordChunk ws) ++ nl in
       {| chunks := w_chunks ws;
          currentChunk := currentChunk';
          currentTokens := len (Encode enc currentChunk') |}
  else {| chunks := w_chunks ws;
          currentChunk := currentChunk st;
          currentTokens := currentTokens st |}.

(** One iteration of [for _, line := range lines]. *)
Definition lineStep (enc : Codec) (maxTokensPerChunk : Z)
    (st : LineState) (line : gostring) : LineState :=
  let lineWithNewline := line ++ nl in
  let lineTokenCount := len (Encode enc lineWithNewline) in
  let st1 := addLine maxTokensPerChunk st lineWithNewline lineTokenCount in
  if lineTokenCount >? maxTokensPerChunk
  then splitLine enc maxTokensPerChunk st1 line
  else st1.

(** The state before the first line. *)
Definition initState : LineState :=
  {| chunks := []; currentChunk := []; currentTokens := 0 |}.

(** After the loop: "Add the last chunk if it's not empty". *)
Definition finish (st : LineState) : list gostring :=
  if nonEmpty (currentChunk st)
  then chunks st ++ [TrimSuffix (currentChunk st) nl]
  else chunks st.

(** The body of [splitIntoTokenChunks] once the codec is there. *)
Definition splitWith (enc : Codec) (text : gostring)
    (maxTokensPerChunk : Z) : list gostring :=
  let lines := Split text LF in
  finish (fold_left (lineStep enc maxTokensPerChunk) lines initState).

(** [splitIntoTokenChunks]; [tokenizer_Get] is [tokenizer.Get]. *)
Definition splitIntoTokenChunks (tokenizer_Get : Encoding → Codec + error)
    (text : gostring) (maxTokensPerChunk : Z)
    : list gostring * option error :=
  match tokenizer_Get Cl100kBase with
  | inr err => ([], Some (Fmt.Errorf_w (lit "failed to get tokenizer: ") err))
  | inl enc => (splitWith enc text maxTokensPerChunk, None)
  end.

End Chunker.

(** ** Package [path/filepath] (Unix) *)
Module Filepath.

Definition slash : ascii := "/"%char.
Definition dot : gostring := lit ".".
Definition dotdot : gostring := lit "..".

(** [Ext] reads the path from its last byte: [r] holds the bytes still to
    read, from the last to the first, [acc] the bytes read so far. *)
Fixpoint extFrom (r acc : gostring) : gostring :=
  match r with
  | [] => []
  | c :: r' =>
    if Ascii.eqb c slash then []
    else if Ascii.eqb c "."%char then c :: acc
    else extFrom r' (c :: acc)
  end.

(** [filepath.Ext]: the suffix that begins at the last dot of the last
    element of the path; empty if there is no dot. *)
Definition Ext (path : gostring) : gostring := extFrom (rev path) [].

(** One element of the path in [Clean]; [out] holds the elements kept so far,
    the last one first. *)
Definition cleanStep (rooted : bool) (out : list gostring) (elem : gostring)
    : list gostring :=
  if bool_decide (elem = []) || bool_decide (elem = dot) then out
  else if bool_decide (elem = dotdot) then
    match out with
    | top :: rest => if bool_decide (top = dotdot) then elem :: out else rest
    | [] => if rooted then [] else [elem]
    end
  else elem :: out.

(** [filepath.Clean]. *)
Definition Clean (path : gostring) : gostring :=
  match path with
  | [] => dot
  | c :: _ =>
    let rooted := Ascii.eqb c slash in
    let out := fold_left (cleanStep rooted) (Strings.Split path slash) [] in
    match rooted, out with
    | false, [] => dot
    | false, _ => Strings.Join (rev out) [slash]
    | true, _ => slash :: Strings.Join (rev out) [slash]
    end
  end.

(** [filepath.Join]: the elements from the first non-empty one on, joined
    with the separator and cleaned. *)
Fixpoint Join (elem : list gostring) : gostring :=
  match elem with
  | [] => []
  | e :: es =>
    if bool_decide (e = []) then Join es
    else Clean (Strings.Join elem [slash])
  end.

End Filepath.

(** ** The generation client ([internal/openai], [openai-go]) *)
Module Openai.

Inductive ChatCompletionMessageParamUnion : Type :=
| SystemMessage (content : gostring)
| UserMessage (content : gostring).

Record ChatCompletionNewParams : Type := {
  Messages : list ChatCompletionMessageParamUnion;
  Model : gostring;
  ServiceTier : gostring;
}.

Record ChatCompletionChoice : Type := { MessageContent : gostring }.

Record ChatCompletion : Type := { Choices : list ChatCompletionChoice }.

End Openai.
Export Openai.

(** A call of [GenerateChatCompletion] as the run records it: the index of
    the chunk the call was made for, the request, and what the client
    returned. *)
Record Call : Type := {
  call_index : Z;
  call_params : ChatCompletionNewParams;
  call_result : ChatCompletion + error;
}.

(** [ChatGenerator.GenerateChatCompletion].  The client is outside the
    program: its answer may depend on the calls made before, on whether the
    context it receives is cancelled, and on the request. *)
Definition ChatGenerator : Type :=
  list Call → bool → ChatCompletionNewParams → ChatCompletion + error.

(** ** The operating system

    Files are kept as a map from paths to contents (the regular files that
    can be read), directories as a set of paths.  Whether a write or a
    directory creation fails is decided by the environment, per path; a
    failed operation changes nothing. *)
Record OS : Type := {
  readError : gostring → error;
  writeFault : gostring → option error;
  mkdirFault : gostring → option error;
}.

Record World : Type := {
  files : gmap gostring gostring;
  dirs : gset gostring;
  calls : list Call;
}.

Definition os_ReadFile (os : OS) (w : World) (name : gostring)
    : gostring + error :=
  match files w !! name with
  | Some data => inl data
  | None => inr (readError os name)
  end.

Definition os_WriteFile (os : OS) (w : World) (name data : gostring)
    : option error * World :=
  match writeFault os name with
  | Some err => (Some err, w)
  | None => (None, {| files := <[name := data]> (files w);
                      dirs := dirs w; calls := calls w |})
  end.

Definition os_MkdirAll (os : OS) (w : World) (path : gostring)
    : option error * World :=
  match mkdirFault os path with
  | Some err => (Some err, w)
  | None => (None, {| files := files w; dirs := {[path]} ∪ dirs w;
                      calls := calls w |})
  end.

(** ** Programs that read and write files and call the client

    A goroutine of the error group interleaves with the others between its
    operations, so [processChunk] is a tree of operations: each node is one
    call of [os.ReadFile], [os.WriteFile] or [GenerateChatCompletion], with
    the rest of the function as its continuation. *)
Inductive Prog (R : Type) : Type :=
| Ret (r : R)
| ReadFile (name : gostring) (k : gostring + error → Prog R)
| WriteFile (name data : gostring) (k : option error → Prog R)
| Generate (params : ChatCompletionNewParams)
    (k : ChatCompletion + error → Prog R).

Arguments Ret {R} r.
Arguments ReadFile {R} name k.
Arguments WriteFile {R} name data k.
Arguments Generate {R} params k.

(** [x ⇐ op ;; k]: perform the operation [op], call its result [x], and
    go on with [k]. *)
Notation "x ⇐ op ;; k" := (op (λ x, k))
  (at level 100, op at next level, k at level 200, right associativity,
   format "x  ⇐  op  ;;  '//' k").

(** One operation of a program: [index] is the chunk the program works for,
    [cancelled] whether the context it was given is cancelled. *)
Definition stepProg {R} (os : OS) (client : ChatGenerator) (index : Z)
    (cancelled : bool) (p : Prog R) (w : World) : Prog R * World :=
  match p with
  | Ret r => (Ret r, w)
  | ReadFile name k => (k (os_ReadFile os w name), w)
  | WriteFile name data k =>
    let '(err, w') := os_WriteFile os w name data in (k err, w')
  | Generate params k =>
    let res := client (calls w) cancelled params in
    (k res, {| files := files w; dirs := dirs w;
               calls := calls w ++ [{| call_index := index;
                                       call_params := params;
                                       call_result := res |}] |})
  end.

(** A program run from its first operation to its result, without
    interleaving. *)
Fixpoint runProg {R} (os : OS) (client : ChatGenerator) (index : Z)
    (cancelled : bool) (p : Prog R) (w : World) : R * World :=
  match p with
  | Ret r => (r, w)
  | ReadFile name k =>
    runProg os client index cancelled (k (os_ReadFile os w name)) w
  | WriteFile name data k =>
    let '(err, w') := os_WriteFile os w name data in
    runProg os client index cancelled (k err) w'
  | Generate params k =>
    let res := client (calls w) cancelled params in
    runProg os client index cancelled (k res)
      {| files := files w; dirs := dirs w;
         calls := calls w ++ [{| call_index := index;
                                 call_params := params;
                                 call_result := res |}] |}
  end.

(** ** Package [cli]: [processChunk] and [ProcessWithClient]

    What the functions print is not modelled. *)
Module Cli.
Import Strings Chunker.

Local Open Scope Z_scope.

Definition Model : Type := gostring.
Definition ModelGPT5Nano : Model := lit "gpt-5-nano".
Definition ModelGPT5Mini : Model := lit "gpt-5-mini".
Definition ModelGPT5 : Model := lit "gpt-5".
Definition ModelGPT51 : Model := lit "gpt-5.1".

Record TokenEstimation : Type := { TokensCount : Z }.

(** [estimateTokens]. *)
Definition estimateTokens (tokenizer_Get : Encoding → Codec + error)
    (text : gostring) : TokenEstimation * option error :=
  match tokenizer_Get Cl100kBase with
  | inr err =>
    ({| TokensCount := 0 |},
     Some (Fmt.Errorf_w (lit "failed to get tokenizer: ") err))
  | inl enc => ({| TokensCount := len (Encode enc text) |}, None)
  end.

(** [fmt.Sprintf("chunk%d.txt", i+1)] and [fmt.Sprintf("result%d.txt", i+1)]. *)
Definition chunkName (i : Z) : gostring :=
  lit "chunk" ++ Fmt.itoa (i + 1) ++ lit ".txt".
Definition resultName (i : Z) : gostring :=
  lit "result" ++ Fmt.itoa (i + 1) ++ lit ".txt".

Definition chunkFileName (chunkDir : gostring) (i : Z) : gostring :=
  Filepath.Join [chunkDir; chunkName i].
Definition resultFileName (chunkDir : gostring) (i : Z) : gostring :=
  Filepath.Join [chunkDir; resultName i].

(** The request of [processChunk]. *)
Definition chunkParams (model : Model) (prompt chunk : gostring)
    : ChatCompletionNewParams :=
  {| Openai.Messages := [SystemMessage prompt; UserMessage chunk];
     Openai.Model := model;
     Openai.ServiceTier := lit "flex" |}.

(** [res.Choices[0].Message.Content], read only when [len(res.Choices) > 0]. *)
Definition firstContent (res : ChatCompletion) : gostring :=
  match Choices res with
  | choice :: _ => MessageContent choice
  | [] => []
  end.

(** [len(res.Choices) > 0 && res.Choices[0].Message.Content != ""]. *)
Definition hasContent (res : ChatCompletion) : bool :=
  (len (Choices res) >? 0) && nonEmpty (firstContent res).

(** The three errors of [processChunk]. *)
Definition errWriteChunk (i : Z) (err : error) : error :=
  Fmt.Errorf_w (lit "failed to write chunk " ++ Fmt.itoa (i + 1) ++ lit ": ")
    err.
Definition errGenerate (i : Z) (err : error) : error :=
  Fmt.Errorf_w (lit "failed to generate chat completion for chunk "
                ++ Fmt.itoa (i + 1) ++ lit ": ") err.
Definition errNoContent (i : Z) : error :=
  errorString (lit "no content in response for chunk " ++ Fmt.itoa (i + 1)).

(** [processChunk]. *)
Definition processChunk (model : Model) (i : Z) (chunkDir : gostring)
    (prompt chunk : gostring) : Prog (gostring * option error) :=
  let chunkFileName := chunkFileName chunkDir i in
  let resultFileName := resultFileName chunkDir i in
  (* Check if result already exists *)
  r ⇐ ReadFile resultFileName ;;
  match r with
  | inl existingResult => Ret (existingResult, None)
  | inr _ =>
    (* Write chunk to disk *)
    err ⇐ WriteFile chunkFileName chunk ;;
    match err with
    | Some err => Ret ([], Some (errWriteChunk i err))
    | None =>
      r ⇐ Generate (chunkParams model prompt chunk) ;;
      match r with
      | inr err => Ret ([], Some (errGenerate i err))
      | inl res =>
        (* Extract the content from the response *)
        if hasContent res
        then
          let content := firstContent res in
          (* Cache the result to disk; a failure is only printed *)
          err ⇐ WriteFile resultFileName content ;;
          Ret (content, None)
        else Ret ([], Some (errNoContent i))
      end
    end
  end.

(** *** The error group of [ProcessWithClient]

    One goroutine per chunk runs [processChunk] and then the end of the
    closure: on an error the group keeps it if it is the first one (and
    cancels the context of the group), otherwise the result is stored at the
    index of the chunk and the progress counter is incremented. *)
Inductive Goroutine : Type :=
| Running (p : Prog (gostring * option error))
| Returned (r : gostring * option error).

Record Group : Type := {
  tasks : list Goroutine;
  err : option error;
  results : list gostring;
  completed : Z;
}.

(** The context of the group is cancelled once an error is recorded. *)
Definition cancelled (g : Group) : bool := bool_decide (is_Some (err g)).

(** The end of the closure of goroutine [i], after [processChunk] has
    returned [r]. *)
Definition returnTask (i : nat) (r : gostring * option error) (g : Group)
    : Group :=
  match r with
  | (_, Some e) =>
    {| tasks := <[i := Returned r]> (tasks g);
       err := match err g with None => Some e | Some first => Some first end;
       results := results g;
       completed := completed g |}
  | (result, None) =>
    {| tasks := <[i := Returned r]> (tasks g);
       err := err g;
       results := <[i := result]> (results g);
       completed := completed g + 1 |}
  end.

(** Goroutine [i] performs its next operation, or returns. *)
Definition stepTask (os : OS) (client : ChatGenerator)
    (gw : Group * World) (i : nat) : Group * World :=
  let '(g, w) := gw in
  match tasks g !! i with
  | Some (Running (Ret r)) => (returnTask i r g, w)
  | Some (Running p) =>
    let '(p', w') := stepProg os client (Z.of_nat i) (cancelled g) p w in
    ({| tasks := <[i := Running p']> (tasks g); err := err g;
        results := results g; completed := completed g |}, w')
  | _ => (g, w)
  end.

(** Goroutine [i] runs to its end without interruption. *)
Definition finishTask (os : OS) (client : ChatGenerator)
    (gw : Group * World) (i : nat) : Group * World :=
  let '(g, w) := gw in
  match tasks g !! i with
  | Some (Running p) =>
    let '(r, w') := runProg os client (Z.of_nat i) (cancelled g) p w in
    (returnTask i r g, w')
  | _ => (g, w)
  end.

(** The goroutines started by [g.Go] in the loop over the chunks. *)
Definition spawn (model : Model) (chunkDir prompt : gostring)
    (chunks : list gostring) : Group :=
  {| tasks := imap (λ i chunk,
                Running (processChunk model (Z.of_nat i) chunkDir prompt chunk))
                chunks;
     err := None;
     results := replicate (length chunks) [];
     completed := 0 |}.

(** From [g.Go] to the return of [g.Wait].  The schedule [sched] lists which
    goroutine performs the next operation, one entry per operation; every
    interleaving of the goroutines is the run of some schedule.  [g.Wait]
    returns when all goroutines have returned: goroutines that the schedule
    leaves unfinished are run to their end, in the order of their indices. *)
Definition dispatch (os : OS) (client : ChatGenerator) (sched : list nat)
    (g : Group) (w : World) : Group * World :=
  let gw := fold_left (stepTask os client) sched (g, w) in
  fold_left (finishTask os client) (seq 0 (length (tasks g))) gw.

(** The answer read by [fmt.Scanln] makes the run proceed when it is ["yes"]
    or ["y"], in any case. *)
Definition declines (response : gostring) : bool :=
  bool_decide (ToLower (TrimSpace response) ≠ lit "yes")
  && bool_decide (ToLower (TrimSpace response) ≠ lit "y").

Definition combinedFileName (filePath : gostring) : gostring :=
  TrimSuffix filePath (Filepath.Ext filePath) ++ lit ".combined_results.txt".

(** [prompt + "\nReturn the lines that you want to keep."] *)
Definition fullPrompt (prompt : gostring) : gostring :=
  prompt ++ nl ++ lit "Return the lines that you want to keep.".

(** [ProcessWithClient].  [response] is the word that [fmt.Scanln] reads when
    the confirmation is asked for; [sched] is the interleaving of the
    goroutines.  The loop that counts the cached results with [os.Stat] only
    prints. *)
Definition ProcessWithClient (tokenizer_Get : Encoding → Codec + error)
    (os : OS) (sched : list nat) (client : ChatGenerator) (model : Model)
    (prompt filePath : gostring) (requireConfirmation : bool)
    (response : gostring) (w : World) : option error * World :=
  match os_ReadFile os w filePath with
  | inr err => (Some (Fmt.Errorf_w (lit "failed to read file: ") err), w)
  | inl b =>
    let text := b in
    match estimateTokens tokenizer_Get text with
    | (_, Some err) =>
      (Some (Fmt.Errorf_w (lit "failed to estimate tokens: ") err), w)
    | (totalEstimation, None) =>
      match splitIntoTokenChunks tokenizer_Get text 2000 with
      | (_, Some err) =>
        (Some (Fmt.Errorf_w (lit "failed to split into chunks: ") err), w)
      | (chunks, None) =>
        (* Ask for user confirmation before proceeding *)
        if requireConfirmation && declines response then (None, w)
        else
          (* Create directory for chunks and results *)
          let baseFileName := TrimSuffix filePath (Filepath.Ext filePath) in
          let chunkDir := baseFileName in
          match os_MkdirAll os w chunkDir with
          | (Some err, w1) =>
            (Some (Fmt.Errorf_w (lit "failed to create chunk directory: ")
                     err), w1)
          | (None, w1) =>
            let prompt := fullPrompt prompt in
            let '(g, w2) :=
              dispatch os client sched (spawn model chunkDir prompt chunks)
                w1 in
            match err g with
            | Some err =>
              (Some (Fmt.Errorf_w
                       (lit "failed to wait for all subtasks to complete: ")
                       err), w2)
            | None =>
              let combinedResults := concat (results g) in
              (* Write combined results to file *)
              match os_WriteFile os w2 (combinedFileName filePath)
                      combinedResults with
              | (Some err, w3) =>
                (Some (Fmt.Errorf_w
                         (lit "failed to write combined results: ") err), w3)
              | (None, w3) => (None, w3)
              end
            end
          end
      end
    end
  end.

(** [Process] is [ProcessWithClient] with the client of [myopenai.NewClient]
    (which returns no error) and the confirmation required. *)
Definition Process (tokenizer_Get : Encoding → Codec + error)
    (os : OS) (sched : list nat) (openaiClient : ChatGenerator)
    (model : Model) (prompt filePath response : gostring) (w : World)
    : option error * World :=
  ProcessWithClient tokenizer_Get os sched openaiClient model prompt filePath
    true response w.

End Cli.

(** * Specification

    The notions that the statements below use, the inputs on which they are
    tried, and the invariants of the proofs. *)
Import Strings Chunker Cli.

(** ** Inputs *)

(** A tokenizer that always provides the codec with one token per byte. *)
Definition byteTokenizer : Encoding → Codec + error := λ _, inl byteCodec.

(** A codec that counts five tokens for the two lines ["a\nb"] taken
    together and one token for any other string. *)
Definition oddCodec : Codec :=
  {| Encode := λ s, if bool_decide (s = lit "a" ++ nl ++ lit "b")
                    then [0; 0; 0; 0; 0]%N else [0%N] |}.

(** The text ["a\nb\nc\n"]. *)
Definition abcText : gostring :=
  lit "a" ++ nl ++ lit "b" ++ nl ++ lit "c" ++ nl.

Definition longWord : gostring := lit "supercalifragilisticexpialidocious".

(** The text ["aa bb\ncc dd ee\nx"]. *)
Definition sampleText : gostring :=
  lit "aa bb" ++ nl ++ lit "cc dd ee" ++ nl ++ lit "x".

(** An operating system without faults. *)
Definition plainOS : OS :=
  {| readError := λ name,
       errorString (lit "open " ++ name ++ lit ": no such file or directory");
     writeFault := λ _, None;
     mkdirFault := λ _, None |}.

(** An operating system in which the result file of the first chunk of
    ["doc.txt"] cannot be written. *)
Definition noCacheOS : OS :=
  {| readError := readError plainOS;
     writeFault := λ name,
       if bool_decide (name = lit "doc/result1.txt")
       then Some (errorString (lit "open doc/result1.txt: is a directory"))
       else None;
     mkdirFault := λ _, None |}.

(** A client that always answers with the given content. *)
Definition answering (content : string) : ChatGenerator :=
  λ _ _ _, inl {| Choices := [{| MessageContent := lit content |}] |}.

(** A client that answers without any choice. *)
Definition silent : ChatGenerator := λ _ _ _, inl {| Choices := [] |}.

(** A client that always fails. *)
Definition apiError : error :=
  errorString (lit "mock error: simulated API failure").
Definition failing : ChatGenerator := λ _ _ _, inr apiError.

(** A world with the document ["doc.txt"]. *)
Definition docWorld : World :=
  {| files := {[ lit "doc.txt" := lit "This test will fail." ]};
     dirs := ∅; calls := [] |}.

(** The same world with an empty result file for the first chunk. *)
Definition emptyCacheWorld : World :=
  {| files := <[ lit "doc/result1.txt" := [] ]> (files docWorld);
     dirs := ∅; calls := [] |}.

Definition firstRun (os : OS) : option error * World :=
  ProcessWithClient byteTokenizer os [] (answering "first run response")
    ModelGPT5Nano (lit "test prompt") (lit "doc.txt") false [] docWorld.

Definition secondRun (os : OS) : option error * World :=
  ProcessWithClient byteTokenizer os [0%nat; 0%nat]
    (answering "second run response") ModelGPT5Nano (lit "test prompt")
    (lit "doc.txt") false [] (firstRun os).2.

Definition failedRun : option error * World :=
  ProcessWithClient byteTokenizer plainOS [] failing
    ModelGPT5Nano (lit "test prompt") (lit "doc.txt") false [] docWorld.

Definition failedCall : Call :=
  {| call_index := 0;
     call_params := chunkParams ModelGPT5Nano
                      (fullPrompt (lit "test prompt"))
                      (lit "This test will fail.");
     call_result := inr apiError |}.

(** ** Notions of the statements *)

(** The token count of a string. *)
Definition count (enc : Codec) (s : gostring) : Z := len (Encode enc s).

(** A chunk is within the budget, or it holds at most one word. *)
Definition within (enc : Codec) (maxTokensPerChunk : Z) (c : gostring) : Prop :=
  (count enc c ≤ maxTokensPerChunk)%Z ∨ length (Fields c) ≤ 1.

(** The directory of the chunks and results of a document. *)
Definition chunkDirOf (filePath : gostring) : gostring :=
  TrimSuffix filePath (Filepath.Ext filePath).

(** The error that [g.Wait] returns, as [ProcessWithClient] wraps it. *)
Definition errWait (e : error) : error :=
  Fmt.Errorf_w (lit "failed to wait for all subtasks to complete: ") e.

(** [e] is the error of the chunk of index [j], and the chunk did fail that
    way: its text could not be written, or its call of the client is in the
    log with an error or with an empty response. *)
Definition chunkFailure (os : OS) (chunkDir : gostring) (log : list Call)
    (j : Z) (e : error) : Prop :=
  (∃ x, e = errWriteChunk j x
        ∧ writeFault os (chunkFileName chunkDir j) = Some x)
  ∨ (∃ x call, e = errGenerate j x ∧ call ∈ log ∧ call_index call = j
               ∧ call_result call = inr x)
  ∨ (e = errNoContent j
     ∧ ∃ call res, call ∈ log ∧ call_index call = j
                   ∧ call_result call = inl res ∧ hasContent res = false).

(** The message of an error mentions a text. *)
Definition mentions (e : error) (s : gostring) : Prop :=
  ∃ pre post, Error e = pre ++ s ++ post.

(** ** Notions of the proofs: strings *)

(** Width in bytes of the white-space rune at the front of [s]; 0 if there is
    none. *)
Definition spaceWidth (s : gostring) : nat :=
  match s with
  | [] => 0
  | c1 :: t1 =>
    if asciiSpace c1 then 1
    else match t1 with
    | [] => 0
    | c2 :: t2 =>
      if space2 c1 c2 then 2
      else match t2 with
      | [] => 0
      | c3 :: _ => if space3 c1 c2 c3 then 3 else 0
      end
    end
  end.

(** A word: a non-empty string without white-space rune. *)
Definition wordlike (w : gostring) : Prop := scan w = map Some w ∧ w ≠ [].

(** The words of a list of strings, in order. *)
Definition allFields (l : list gostring) : list gostring :=
  concat (map Fields l).

(** A buffer is empty or ends with the separator that was appended last. *)
Definition endsWith (c : ascii) (s : gostring) : Prop :=
  s = [] ∨ ∃ a, s = a ++ [c].

(** The bytes that [%d] prints. *)
Definition isDigit (c : ascii) : bool :=
  bool_decide (c ∈ lit "0123456789-").

(** A file name: a path element that [Clean] keeps as it is. *)
Definition simpleName (n : gostring) : Prop :=
  (Filepath.slash ∉ n) ∧ n ≠ [] ∧ n ≠ Filepath.dot ∧ n ≠ Filepath.dotdot.

(** What [filepath.Join] puts before the file name, for a directory [d]. *)
Definition joinPrefix (d : gostring) : gostring :=
  match d with
  | [] => []
  | c :: _ =>
    let rooted := Ascii.eqb c Filepath.slash in
    (if rooted then [Filepath.slash] else [])
    ++ concat (map (λ e, e ++ [Filepath.slash])
                 (rev (fold_left (Filepath.cleanStep rooted)
                         (Split d Filepath.slash) [])))
  end.

(** ** Notions of the proofs: the chunker *)

(** Invariant of the loop over the words of a line: the words of the chunks
    and of the buffer are the words of the chunks before the loop followed by
    the words read so far. *)
Record wordInv (before : list gostring) (seen : list gostring)
    (st : WordState) : Prop := {
  wi_words : allFields (w_chunks st) ++ Fields (wordChunk st)
             = allFields before ++ seen;
  wi_ends : endsWith " "%char (wordChunk st);
  wi_seen : seen = [] ∨ wordChunk st ≠ [];
}.

(** Invariant of the loop over the lines: the words of the chunks and of the
    buffer are the words of the lines read so far. *)
Record lineInv (seen : list gostring) (st : LineState) : Prop := {
  li_words : allFields (chunks st) ++ Fields (currentChunk st)
             = allFields seen;
  li_ends : endsWith LF (currentChunk st);
  li_tokens : (0 ≤ currentTokens st)%Z;
}.

(** The buffer of words: a first word, a space, and what follows; trimming
    it removes the last space only. *)
Definition wordBuf (wc : gostring) : Prop :=
  ∃ w1 rest, wordlike w1 ∧ endsWith " "%char rest ∧ wc = w1 ++ sp ++ rest
             ∧ TrimSpace wc ++ sp = wc.

(** The budget in the loop over the words: the chunks are within the budget,
    and the buffer is counted by the running count, which is at most the
    budget unless the buffer holds one word. *)
Record wordB (enc : Codec) (maxTokensPerChunk : Z) (st : WordState)
    : Prop := {
  wb_chunks : Forall (within enc maxTokensPerChunk) (w_chunks st);
  wb_buf : (wordChunk st = [] ∧ wordTokens st = 0%Z)
           ∨ (wordBuf (wordChunk st)
              ∧ (count enc (wordChunk st) ≤ wordTokens st)%Z
              ∧ ((wordTokens st ≤ maxTokensPerChunk)%Z
                 ∨ length (Fields (wordChunk st)) ≤ 1));
}.

(** The budget in the loop over the lines. *)
Record lineB (enc : Codec) (maxTokensPerChunk : Z) (st : LineState)
    : Prop := {
  lb_chunks : Forall (within enc maxTokensPerChunk) (chunks st);
  lb_buf : (currentChunk st = [] ∧ currentTokens st = 0%Z)
           ∨ (∃ body, currentChunk st = body ++ nl
                ∧ (count enc (currentChunk st) ≤ currentTokens st)%Z
                ∧ ((currentTokens st ≤ maxTokensPerChunk)%Z
                   ∨ within enc maxTokensPerChunk body));
}.

(** ** Notions of the proofs: the goroutines, stage by stage *)

(** Where a goroutine is in [processChunk]. *)
Inductive TState : Type :=
| TStart                                   (* before the cache lookup *)
| TMiss                                    (* no result file: write the chunk *)
| TWritten                                 (* chunk written: call the client *)
| TGot (content : gostring)                (* content received: cache it *)
| TRet (r : gostring * option error)       (* [processChunk] returns [r] *)
| TDone (r : gostring * option error).     (* the goroutine has returned *)

(** The result that a stage stands for, once the goroutine has returned. *)
Definition ret_of (s : TState) : gostring * option error :=
  match s with
  | TDone r => r
  | _ => ([], None)
  end.

(** The rest of [processChunk] after each of its operations. *)
Definition pStore (chunkDir : gostring) (i : Z) (content : gostring)
    : Prog (gostring * option error) :=
  err ⇐ WriteFile (resultFileName chunkDir i) content ;;
  Ret (content, None).

Definition pGenerated (chunkDir : gostring) (i : Z)
    (r : ChatCompletion + error) : Prog (gostring * option error) :=
  match r with
  | inr err => Ret ([], Some (errGenerate i err))
  | inl res =>
    if hasContent res then pStore chunkDir i (firstContent res)
    else Ret ([], Some (errNoContent i))
  end.

Definition pWritten (model : Model) (chunkDir prompt : gostring) (i : Z)
    (chunk : gostring) : Prog (gostring * option error) :=
  Generate (chunkParams model prompt chunk) (pGenerated chunkDir i).

Definition pChunkWritten (model : Model) (chunkDir prompt : gostring) (i : Z)
    (chunk : gostring) (err : option error)
    : Prog (gostring * option error) :=
  match err with
  | Some err => Ret ([], Some (errWriteChunk i err))
  | None => pWritten model chunkDir prompt i chunk
  end.

Definition pMiss (model : Model) (chunkDir prompt : gostring) (i : Z)
    (chunk : gostring) : Prog (gostring * option error) :=
  WriteFile (chunkFileName chunkDir i) chunk
    (pChunkWritten model chunkDir prompt i chunk).

Definition pLooked (model : Model) (chunkDir prompt : gostring) (i : Z)
    (chunk : gostring) (r : gostring + error)
    : Prog (gostring * option error) :=
  match r with
  | inl existingResult => Ret (existingResult, None)
  | inr _ => pMiss model chunkDir prompt i chunk
  end.

(** The goroutine of chunk [i] at stage [s]. *)
Definition prog_of (model : Model) (chunkDir prompt : gostring) (i : Z)
    (chunk : gostring) (s : TState) : Goroutine :=
  match s with
  | TStart => Running (processChunk model i chunkDir prompt chunk)
  | TMiss => Running (pMiss model chunkDir prompt i chunk)
  | TWritten => Running (pWritten model chunkDir prompt i chunk)
  | TGot content => Running (pStore chunkDir i content)
  | TRet r => Running (Ret r)
  | TDone r => Returned r
  end.

(** ** Notions of the proofs: the invariant of the error group *)

(** The files of chunk number [i] (counted from 0). *)
Definition cp (chunkDir : gostring) (i : nat) : gostring :=
  chunkFileName chunkDir (Z.of_nat i).
Definition rp (chunkDir : gostring) (i : nat) : gostring :=
  resultFileName chunkDir (Z.of_nat i).

(** The call of goroutine [i]. *)
Definition mkCall (model : Model) (prompt : gostring) (i : nat)
    (chunk : gostring) (r : ChatCompletion + error) : Call :=
  {| call_index := Z.of_nat i;
     call_params := chunkParams model prompt chunk;
     call_result := r |}.

(** The calls made since the goroutines were started in the world [w0]. *)
Definition newCalls (w0 w : World) : list Call :=
  drop (length (calls w0)) (calls w).

Definition noCall (w0 : World) (i : nat) (w : World) : Prop :=
  ∀ e, e ∈ newCalls w0 w → call_index e ≠ Z.of_nat i.

(** The stage of a goroutine that has made the call with result [r]. *)
Definition matches (i : nat) (r : ChatCompletion + error) (s : TState) : Prop :=
  match r with
  | inr x => s = TRet ([], Some (errGenerate (Z.of_nat i) x))
             ∨ s = TDone ([], Some (errGenerate (Z.of_nat i) x))
  | inl res =>
    if hasContent res
    then s = TGot (firstContent res) ∨ s = TRet (firstContent res, None)
         ∨ s = TDone (firstContent res, None)
    else s = TRet ([], Some (errNoContent (Z.of_nat i)))
         ∨ s = TDone ([], Some (errNoContent (Z.of_nat i)))
  end.

(** A result [r] returned without error was read from the result file that
    was there at the start, or it was generated and then written, unless the
    write failed. *)
Definition okInv (os : OS) (chunkDir : gostring) (w0 : World) (i : nat)
    (r : gostring) (w : World) : Prop :=
  (files w0 !! rp chunkDir i = Some r ∧ noCall w0 i w)
  ∨ (files w0 !! rp chunkDir i = None
     ∧ (files w !! rp chunkDir i = Some r
        ∨ (files w !! rp chunkDir i = None
           ∧ is_Some (writeFault os (rp chunkDir i))))).

(** Why goroutine [i] returned the error [e]. *)
Definition failInv (os : OS) (model : Model) (chunkDir prompt : gostring)
    (w0 : World) (i : nat) (chunk : gostring) (e : error) (w : World) : Prop :=
  (∃ x, e = errWriteChunk (Z.of_nat i) x
        ∧ writeFault os (cp chunkDir i) = Some x)
  ∨ (∃ x, e = errGenerate (Z.of_nat i) x
          ∧ mkCall model prompt i chunk (inr x) ∈ newCalls w0 w)
  ∨ (e = errNoContent (Z.of_nat i)
     ∧ ∃ res, mkCall model prompt i chunk (inl res) ∈ newCalls w0 w
              ∧ hasContent res = false).

(** What holds of goroutine [i] at stage [s]. *)
Definition StInv (os : OS) (model : Model) (chunkDir prompt : gostring)
    (w0 : World) (i : nat) (chunk : gostring) (s : TState)
    (g : Group) (w : World) : Prop :=
  match s with
  | TStart =>
    noCall w0 i w ∧ files w !! rp chunkDir i = files w0 !! rp chunkDir i
  | TMiss | TWritten =>
    noCall w0 i w ∧ files w !! rp chunkDir i = None
    ∧ files w0 !! rp chunkDir i = None
  | TGot _ =>
    files w !! rp chunkDir i = None ∧ files w0 !! rp chunkDir i = None
  | TRet (r, None) => okInv os chunkDir w0 i r w
  | TRet (r, Some e) =>
    r = [] ∧ files w0 !! rp chunkDir i = None
    ∧ failInv os model chunkDir prompt w0 i chunk e w
  | TDone (r, None) => okInv os chunkDir w0 i r w ∧ results g !! i = Some r
  | TDone (r, Some e) =>
    r = [] ∧ files w0 !! rp chunkDir i = None
    ∧ failInv os model chunkDir prompt w0 i chunk e w ∧ is_Some (err g)
  end.

(** The invariant of the error group; [ss] gives the stage of each
    goroutine, [w0] is the world in which the goroutines were started. *)
Record Inv (os : OS) (model : Model) (chunkDir prompt : gostring)
    (chunks : list gostring) (w0 : World)
    (ss : list TState) (g : Group) (w : World) : Prop := {
  inv_stages : length ss = length chunks;
  inv_tasks : tasks g
    = imap (λ i cs, prog_of model chunkDir prompt (Z.of_nat i) cs.1 cs.2)
        (zip chunks ss);
  inv_results : length (results g) = length chunks;
  inv_calls : calls w = calls w0 ++ newCalls w0 w;
  inv_st : ∀ i c s, chunks !! i = Some c → ss !! i = Some s →
    StInv os model chunkDir prompt w0 i c s g w;
  inv_entries : ∀ e, e ∈ newCalls w0 w →
    ∃ i c s, chunks !! i = Some c ∧ ss !! i = Some s
             ∧ e = mkCall model prompt i c (call_result e)
             ∧ matches i (call_result e) s;
  inv_frame : ∀ p,
    (∀ i, i < length chunks → p ≠ cp chunkDir i ∧ p ≠ rp chunkDir i) →
    files w !! p = files w0 !! p;
  inv_dirs : dirs w = dirs w0;
  inv_pre : ∀ i x,
    files w0 !! rp chunkDir i = Some x → files w !! rp chunkDir i = Some x;
  inv_err : ∀ e, err g = Some e → ∃ i r, ss !! i = Some (TDone (r, Some e));
}.

(** Goroutine [i] replaced by [t]. *)
Definition setTask (g : Group) (i : nat) (t : Goroutine) : Group :=
  {| tasks := <[i := t]> (tasks g); err := err g;
     results := results g; completed := completed g |}.

(** Goroutine [i] has returned. *)
Definition returned (g : Group) (i : nat) : Prop :=
  ∃ r, tasks g !! i = Some (Returned r).

(** The world after [os.MkdirAll] has succeeded. *)
Definition withDir (w : World) (dir : gostring) : World :=
  {| files := files w; dirs := {[dir]} ∪ dirs w; calls := calls w |}.

(** What [ProcessWithClient] does from the dispatch on. *)
Definition fromDispatch (os : OS) (client : ChatGenerator) (model : Model)
    (prompt filePath : gostring) (sched : list nat) (chunks : list gostring)
    (w1 : World) : option error * World :=
  let gw := dispatch os client sched
              (spawn model (chunkDirOf filePath) (fullPrompt prompt) chunks)
              w1 in
  match err gw.1 with
  | Some e => (Some (errWait e), gw.2)
  | None =>
    match os_WriteFile os gw.2 (combinedFileName filePath)
            (concat (results gw.1)) with
    | (Some e, w3) =>
      (Some (Fmt.Errorf_w (lit "failed to write combined results: ") e), w3)
    | (None, w3) => (None, w3)
    end
  end.

(** ** Further notions of the statements *)

(** The lines of a list, each with its newline. *)
Definition withNewlines (ls : list gostring) : gostring :=
  concat (map (λ l, l ++ nl) ls).

(** The running count of the chunker for a list of lines: the sum of the
    counts of the lines, each counted with its newline. *)
Definition linesCount (enc : Codec) (ls : list gostring) : Z :=
  fold_right (λ l n, count enc (l ++ nl) + n)%Z 0%Z ls.

(** Groups of lines packed greedily: no group is empty, each is within the
    budget by the running count, and a group followed by another one could
    not take the first line of that one. *)
Fixpoint packed (enc : Codec) (maxTokensPerChunk : Z)
    (groups : list (list gostring)) : Prop :=
  match groups with
  | [] => True
  | g :: rest =>
    g ≠ [] ∧ (linesCount enc g ≤ maxTokensPerChunk)%Z
    ∧ (∀ g' l, head rest = Some g' → head g' = Some l →
         (linesCount enc g + count enc (l ++ nl) > maxTokensPerChunk)%Z)
    ∧ packed enc maxTokensPerChunk rest
  end.

(** [w'] has the files and directories of [w], maybe with other contents,
    and maybe more. *)
Definition extends (w w' : World) : Prop :=
  (∀ p, is_Some (files w !! p) → is_Some (files w' !! p))
  ∧ dirs w ⊆ dirs w'.

(** The calls of a run: those in the log of [w'] that are not in the log of
    [w]. *)
Definition callsOf (w w' : World) : list Call :=
  drop (length (calls w)) (calls w').

(** The indices of the chunks, among the first [n], that have no result
    file. *)
Definition uncached (w : World) (chunkDir : gostring) (n : nat) : list nat :=
  filter (λ i, files w !! rp chunkDir i = None) (seq 0 n).

(** ** Further notions of the proofs *)

(** Invariant of the loop over the lines when no line is split: the chunks
    and the buffer hold the bytes of the lines read so far. *)
Record bytesInv (seen : list gostring) (st : LineState) : Prop := {
  bi_bytes : withNewlines (chunks st) ++ currentChunk st = withNewlines seen;
  bi_ends : endsWith LF (currentChunk st);
}.

(** Invariant of the same loop, with the lines of each chunk: [groups] are
    the lines of the chunks, [cur] the lines of the buffer. *)
Record packInv (enc : Codec) (maxTokensPerChunk : Z) (seen : list gostring)
    (st : LineState) (groups : list (list gostring)) (cur : list gostring)
    : Prop := {
  pk_seen : seen = concat groups ++ cur;
  pk_chunks : chunks st = map (λ g, Join g nl) groups;
  pk_buffer : currentChunk st = withNewlines cur;
  pk_tokens : currentTokens st = linesCount enc cur;
  pk_fits : cur ≠ [] → (linesCount enc cur ≤ maxTokensPerChunk)%Z;
  pk_packed : packed enc maxTokensPerChunk groups;
  pk_first : cur = [] → groups = [];
  pk_next : ∀ g l, last groups = Some g → head cur = Some l →
    (linesCount enc g + count enc (l ++ nl) > maxTokensPerChunk)%Z;
}.

(** One step of goroutine [i] at stage [s], on the stages: the next stage
    and the world. *)
Definition stageStep (os : OS) (client : ChatGenerator) (model : Model)
    (chunkDir prompt : gostring) (i : nat) (chunk : gostring)
    (cancelled : bool) (s : TState) (w : World) : TState * World :=
  match s with
  | TStart =>
    (match files w !! rp chunkDir i with
     | Some existingResult => TRet (existingResult, None)
     | None => TMiss
     end, w)
  | TMiss =>
    match writeFault os (cp chunkDir i) with
    | Some err => (TRet ([], Some (errWriteChunk (Z.of_nat i) err)), w)
    | None => (TWritten, {| files := <[cp chunkDir i := chunk]> (files w);
                            dirs := dirs w; calls := calls w |})
    end
  | TWritten =>
    let r := client (calls w) cancelled (chunkParams model prompt chunk) in
    (match r with
     | inr err => TRet ([], Some (errGenerate (Z.of_nat i) err))
     | inl res =>
       if hasContent res then TGot (firstContent res)
       else TRet ([], Some (errNoContent (Z.of_nat i)))
     end,
     {| files := files w; dirs := dirs w;
        calls := calls w ++ [mkCall model prompt i chunk r] |})
  | TGot content =>
    (TRet (content, None), (os_WriteFile os w (rp chunkDir i) content).2)
  | TRet r => (TDone r, w)
  | TDone r => (TDone r, w)
  end.

(** What the log of the calls says about the chunks: at most one call per
    chunk; the text of a chunk that was sent is in its chunk file; a result
    that was not read from a result file is the content of the answer to the
    call of its chunk. *)
Record CallInv (model : Model) (chunkDir prompt : gostring)
    (chunks : list gostring) (w0 : World) (g : Group) (w : World) : Prop := {
  ci_once : NoDup (call_index <$> newCalls w0 w);
  ci_chunk : ∀ e, e ∈ newCalls w0 w →
    ∃ i c, chunks !! i = Some c ∧ call_index e = Z.of_nat i
           ∧ files w !! cp chunkDir i = Some c;
  ci_written : ∀ i c, chunks !! i = Some c →
    tasks g !! i
    = Some (prog_of model chunkDir prompt (Z.of_nat i) c TWritten) →
    files w !! cp chunkDir i = Some c;
  ci_source : ∀ i c s r, chunks !! i = Some c →
    tasks g !! i = Some (prog_of model chunkDir prompt (Z.of_nat i) c s) →
    s = TGot r ∨ s = TRet (r, None) ∨ s = TDone (r, None) →
    files w0 !! rp chunkDir i = None →
    ∃ res, mkCall model prompt i c (inl res) ∈ newCalls w0 w
           ∧ hasContent res = true ∧ r = firstContent res;
}.

(** ** Further inputs *)

(** A codec that counts 1500 tokens for every string: two lines do not fit
    in a chunk of 2000 tokens. *)
Definition flatCodec : Codec := {| Encode := λ _, replicate 1500 0%N |}.
Definition flatTokenizer : Encoding → Codec + error := λ _, inl flatCodec.

(** A world with the document ["two.txt"], of two lines, and a result file
    for its first chunk. *)
Definition twoWorld : World :=
  {| files := {[ lit "two.txt" := lit "alpha" ++ nl ++ lit "beta";
                 lit "two/result1.txt" := lit "A" ]};
     dirs := {[ lit "two" ]}; calls := [] |}.

(** The same document without any result file. *)
Definition coldWorld : World :=
  {| files := {[ lit "two.txt" := lit "alpha" ++ nl ++ lit "beta" ]};
     dirs := ∅; calls := [] |}.

(** A client that answers its first call and fails afterwards. *)
Definition answeringOnce (content : string) : ChatGenerator :=
  λ log _ _,
    match log with
    | [] => inl {| Choices := [{| MessageContent := lit content |}] |}
    | _ => inr apiError
    end.

(** An operating system in which the chunk file of the first chunk of
    ["doc.txt"] cannot be written. *)
Definition noChunkOS : OS :=
  {| readError := readError plainOS;
     writeFault := λ name,
       if bool_decide (name = lit "doc/chunk1.txt")
       then Some (errorString (lit "open doc/chunk1.txt: permission denied"))
       else None;
     mkdirFault := λ _, None |}.

(** A run on ["two.txt"] with the result of the first chunk in the cache. *)
Definition warmRun : option error * World :=
  ProcessWithClient flatTokenizer plainOS [1%nat; 0%nat; 1%nat]
    (answering "B") ModelGPT5Nano (lit "keep") (lit "two.txt") false []
    twoWorld.

(** A run on ["two.txt"] in which the call of the second chunk fails, and
    the run that follows it. *)
Definition brokenRun : option error * World :=
  ProcessWithClient flatTokenizer plainOS [] (answeringOnce "A")
    ModelGPT5Nano (lit "keep") (lit "two.txt") false [] coldWorld.

Definition resumedRun : option error * World :=
  ProcessWithClient flatTokenizer plainOS [1%nat; 1%nat; 0%nat]
    (answering "B") ModelGPT5Nano (lit "keep") (lit "two.txt") false []
    brokenRun.2.

(** The call of the first chunk of ["two.txt"] with the answer ["A"], and
    the call of its second chunk with the answer ["B"]. *)
Definition callA : Call :=
  mkCall ModelGPT5Nano (fullPrompt (lit "keep")) 0 (lit "alpha")
    (inl {| Choices := [{| MessageContent := lit "A" |}] |}).
Definition callB : Call :=
  mkCall ModelGPT5Nano (fullPrompt (lit "keep")) 1 (lit "beta")
    (inl {| Choices := [{| MessageContent := lit "B" |}] |}).

(** Boolean tests in hypotheses, as propositions. *)
Ltac bool_hyps :=
  repeat match goal with
  | H : _ && _ = true |- _ => apply andb_true_iff in H; destruct H
  | H : _ || _ = true |- _ => apply orb_true_iff in H; destruct H
  | H : (_ =? _)%N = true |- _ => apply N.eqb_eq in H
  | H : (_ <=? _)%N = true |- _ => apply N.leb_le in H
  | H : (_ <? _)%N = true |- _ => apply N.ltb_lt in H
  end.

(** * Proofs *)

(** ** White space and words *)

Lemma isCont_spec c : isCont c = true ↔ (128 ≤ code c < 192)%N.
Proof.
  unfold isCont. rewrite andb_true_iff, N.leb_le, N.ltb_lt. tauto.
Qed.

Lemma isCont_false c : (code c < 128 ∨ 192 ≤ code c)%N → isCont c = false.
Proof.
  intros H. destruct (isCont c) eqn:E; [|done].
  apply isCont_spec in E. lia.
Qed.

Lemma asciiSpace_lt c : asciiSpace c = true → (code c < 128)%N.
Proof.
  unfold asciiSpace. destruct (code c) as [|p]; [done|].
  do 6 (destruct p as [p|p|]; try done); intros _; lia.
Qed.

Lemma asciiSpace_start c : asciiSpace c = true → isCont c = false.
Proof. intros H%asciiSpace_lt. apply isCont_false. lia. Qed.

Lemma space2_inv c1 c2 :
  space2 c1 c2 = true → isCont c1 = false ∧ isCont c2 = true.
Proof.
  unfold space2. intros H. bool_hyps;
    (split; [apply isCont_false | apply isCont_spec]; lia).
Qed.

Lemma space3_inv c1 c2 c3 :
  space3 c1 c2 c3 = true →
  isCont c1 = false ∧ isCont c2 = true ∧ isCont c3 = true.
Proof.
  unfold space3. intros H. bool_hyps;
    (split; [apply isCont_false | split; apply isCont_spec]; lia).
Qed.

Lemma space2_lead c1 c2 : space2 c1 c2 = true → asciiSpace c1 = false.
Proof.
  intros H. destruct (asciiSpace c1) eqn:E; [|done].
  apply asciiSpace_lt in E. unfold space2 in H. bool_hyps; lia.
Qed.

Lemma space3_lead c1 c2 c3 :
  space3 c1 c2 c3 = true → asciiSpace c1 = false ∧ space2 c1 c2 = false.
Proof.
  intros H. split.
  - destruct (asciiSpace c1) eqn:E; [|done].
    apply asciiSpace_lt in E. unfold space3 in H. bool_hyps; lia.
  - destruct (space2 c1 c2) eqn:E; [|done].
    unfold space2 in E. unfold space3 in H. bool_hyps; lia.
Qed.

Lemma space2_start_r c1 c2 : isCont c2 = false → space2 c1 c2 = false.
Proof.
  intros H. destruct (space2 c1 c2) eqn:E; [|done].
  apply space2_inv in E. destruct E; congruence.
Qed.

Lemma space3_start_m c1 c2 c3 : isCont c2 = false → space3 c1 c2 c3 = false.
Proof.
  intros H. destruct (space3 c1 c2 c3) eqn:E; [|done].
  apply space3_inv in E. destruct E as (_ & ? & _); congruence.
Qed.

Lemma space3_start_r c1 c2 c3 : isCont c3 = false → space3 c1 c2 c3 = false.
Proof.
  intros H. destruct (space3 c1 c2 c3) eqn:E; [|done].
  apply space3_inv in E. destruct E as (_ & _ & ?); congruence.
Qed.

Lemma scan_eq s :
  scan s = match s with
           | [] => []
           | c :: t => match spaceWidth s with
                       | 0 => Some c :: scan t
                       | S k => None :: scan (drop k t)
                       end
           end.
Proof.
  destruct s as [|c1 [|c2 [|c3 t3]]]; [done|..]; cbn [scan spaceWidth];
    repeat (case_match; try done).
Qed.

Lemma trimLeft_eq s :
  trimLeft s = match spaceWidth s with
               | 0 => s
               | S k => trimLeft (drop (S k) s)
               end.
Proof.
  destruct s as [|c1 [|c2 [|c3 t3]]]; [done|..]; cbn [trimLeft spaceWidth];
    repeat (case_match; try done).
Qed.

Lemma spaceWidth_le s : spaceWidth s ≤ length s.
Proof.
  destruct s as [|c1 [|c2 [|c3 t3]]]; cbn [spaceWidth length];
    repeat case_match; lia.
Qed.

Lemma spaceWidth_app a c b :
  a ≠ [] → isCont c = false → spaceWidth (a ++ c :: b) = spaceWidth a.
Proof.
  intros Ha Hc. destruct a as [|c1 [|c2 [|c3 a3]]]; [done|..];
    cbn [app spaceWidth].
  - rewrite (space2_start_r c1 c Hc).
    destruct b as [|c3 b]; [done|]. by rewrite (space3_start_m c1 c c3 Hc).
  - by rewrite (space3_start_r c1 c2 c Hc).
  - done.
Qed.

(** The scan of a string that starts with a byte that is no continuation
    byte does not depend on what precedes it. *)
Lemma scan_app_start c a b :
  isCont c = false → scan (a ++ c :: b) = scan a ++ scan (c :: b).
Proof.
  intros Hc. remember (length a) as n eqn:Hn.
  revert a Hn. induction (lt_wf n) as [n _ IH]. intros a Hn.
  destruct a as [|c1 a1]; [done|].
  rewrite (scan_eq ((c1 :: a1) ++ c :: b)), (scan_eq (c1 :: a1)).
  cbn [app]. change (c1 :: a1 ++ c :: b) with ((c1 :: a1) ++ c :: b).
  rewrite spaceWidth_app by done.
  pose proof (spaceWidth_le (c1 :: a1)) as Hle. cbn [length] in Hle, Hn.
  destruct (spaceWidth (c1 :: a1)) as [|k].
  - cbn [app]. f_equal. apply (IH (length a1)); [lia|done].
  - rewrite drop_app_le by lia. cbn [app]. f_equal.
    apply (IH (length (drop k a1))); [rewrite length_drop; lia|done].
Qed.

Lemma words_app_None cur a b :
  words cur (a ++ None :: b) = words cur a ++ words [] b.
Proof.
  revert cur. induction a as [|[c|] a IH]; intros cur; cbn [app words].
  - done.
  - apply IH.
  - by rewrite IH, (assoc_L (++)).
Qed.

Lemma words_Some cur w : words cur (map Some w) = emit (cur ++ w).
Proof.
  revert cur. induction w as [|c w IH]; intros cur; cbn [map words].
  - by rewrite (right_id_L [] (++)).
  - by rewrite IH, <- (assoc_L (++)).
Qed.

Lemma scan_space1 c b : asciiSpace c = true → scan (c :: b) = None :: scan b.
Proof. intros H. cbn [scan]. by rewrite H. Qed.

(** A white-space byte separates the fields on its two sides. *)
Lemma Fields_sep c a b :
  asciiSpace c = true → Fields (a ++ c :: b) = Fields a ++ Fields b.
Proof.
  intros Hc. unfold Fields.
  rewrite scan_app_start by by apply asciiSpace_start.
  by rewrite scan_space1, words_app_None.
Qed.

Lemma Fields_nil : Fields [] = [].
Proof. done. Qed.

Lemma Fields_snoc_space c a : asciiSpace c = true → Fields (a ++ [c]) = Fields a.
Proof. intros H. by rewrite Fields_sep, Fields_nil, (right_id_L [] (++)). Qed.

Lemma Fields_cons_space c b : asciiSpace c = true → Fields (c :: b) = Fields b.
Proof. intros H. apply (Fields_sep c [] b H). Qed.

Lemma Fields_trimLeft s : Fields (trimLeft s) = Fields s.
Proof.
  remember (length s) as n eqn:Hn.
  revert s Hn. induction (lt_wf n) as [n _ IH]. intros s Hn.
  rewrite trimLeft_eq.
  pose proof (spaceWidth_le s) as Hle.
  destruct (spaceWidth s) as [|k] eqn:E; [done|].
  destruct s as [|c t]; [done|]. cbn [length] in Hn, Hle.
  cbn [drop]. rewrite (IH (length (drop k t)));
    [|rewrite length_drop; lia|done].
  unfold Fields. by rewrite (scan_eq (c :: t)), E.
Qed.

Lemma trimRightRev_eq r :
  trimRightRev r =
  match r with
  | [] => []
  | z1 :: t1 =>
    if asciiSpace z1 then trimRightRev t1
    else match t1 with
    | [] => r
    | z2 :: t2 =>
      if space2 z2 z1 then trimRightRev t2
      else match t2 with
      | [] => r
      | z3 :: t3 => if space3 z3 z2 z1 then trimRightRev t3 else r
      end
    end
  end.
Proof. by destruct r. Qed.

Lemma Fields_snoc_space2 a c1 c2 :
  space2 c1 c2 = true → Fields (a ++ [c1; c2]) = Fields a.
Proof.
  intros H. unfold Fields. destruct (space2_inv _ _ H) as [H1 _].
  rewrite scan_app_start by done.
  replace (scan [c1; c2]) with [None : option ascii].
  - rewrite words_app_None. cbn [words emit].
    by rewrite (right_id_L [] (++)).
  - cbn [scan]. by rewrite H, (space2_lead _ _ H).
Qed.

Lemma Fields_snoc_space3 a c1 c2 c3 :
  space3 c1 c2 c3 = true → Fields (a ++ [c1; c2; c3]) = Fields a.
Proof.
  intros H. unfold Fields. destruct (space3_inv _ _ _ H) as (H1 & H2 & H3).
  rewrite scan_app_start by done.
  replace (scan [c1; c2; c3]) with [None : option ascii].
  - rewrite words_app_None. cbn [words emit].
    by rewrite (right_id_L [] (++)).
  - destruct (space3_lead _ _ _ H) as [E1 E2]. cbn [scan].
    by rewrite E1, E2, H.
Qed.

Lemma Fields_trimRightRev r : Fields (rev (trimRightRev r)) = Fields (rev r).
Proof.
  remember (length r) as n eqn:Hn.
  revert r Hn. induction (lt_wf n) as [n _ IH]. intros r Hn.
  rewrite trimRightRev_eq.
  destruct r as [|z1 t1]; [done|]. simpl in Hn.
  destruct (asciiSpace z1) eqn:E1.
  { rewrite (IH (length t1)) by (lia || done).
    cbn [rev]. by rewrite Fields_snoc_space. }
  destruct t1 as [|z2 t2]; [done|]. simpl in Hn.
  destruct (space2 z2 z1) eqn:E2.
  { rewrite (IH (length t2)) by (lia || done).
    cbn [rev]. rewrite <- (assoc_L (++)). cbn [app].
    by rewrite Fields_snoc_space2. }
  destruct t2 as [|z3 t3]; [done|]. simpl in Hn.
  destruct (space3 z3 z2 z1) eqn:E3; [|done].
  rewrite (IH (length t3)) by (lia || done).
  cbn [rev]. rewrite <- !(assoc_L (++)). cbn [app].
  by rewrite Fields_snoc_space3.
Qed.

(** Trimming white space at both ends keeps the fields. *)
Lemma Fields_TrimSpace s : Fields (TrimSpace s) = Fields s.
Proof.
  unfold TrimSpace.
  by rewrite Fields_trimRightRev, rev_involutive, Fields_trimLeft.
Qed.

Lemma TrimSuffix_app s suffix : TrimSuffix (s ++ suffix) suffix = s.
Proof.
  unfold TrimSuffix, HasSuffix. rewrite length_app.
  replace (length s + length suffix - length suffix)%nat with (length s) by lia.
  rewrite drop_app_length, take_app_length.
  rewrite bool_decide_true by done.
  destruct (_ <=? _)%nat eqn:E; [done|]. apply Nat.leb_gt in E. lia.
Qed.

Lemma TrimSuffix_cases s suffix :
  (∃ a, s = a ++ suffix ∧ TrimSuffix s suffix = a) ∨ TrimSuffix s suffix = s.
Proof.
  unfold TrimSuffix, HasSuffix.
  destruct (_ <=? _)%nat eqn:E; [|by right]. cbn [andb].
  case_bool_decide as Hd; [|by right].
  left. eexists. split; [|done].
  rewrite <- (take_drop (length s - length suffix) s) at 1. by rewrite Hd.
Qed.

Lemma Fields_TrimSuffix_nl s : Fields (TrimSuffix s nl) = Fields s.
Proof.
  destruct (TrimSuffix_cases s nl) as [(a & Ha & Hb)|Hc].
  - rewrite Hb, Ha. unfold nl. by rewrite Fields_snoc_space.
  - by rewrite Hc.
Qed.

Lemma spaceWidth_pos_start c t : spaceWidth (c :: t) ≠ 0 → isCont c = false.
Proof.
  cbn [spaceWidth]. destruct (asciiSpace c) eqn:E1.
  { intros _. by apply asciiSpace_start. }
  destruct t as [|c2 t2]; [done|].
  destruct (space2 c c2) eqn:E2.
  { intros _. by destruct (space2_inv _ _ E2). }
  destruct t2 as [|c3 t3]; [done|].
  destruct (space3 c c2 c3) eqn:E3; [|done].
  intros _. by destruct (space3_inv _ _ _ E3).
Qed.

Lemma Fields_wordlike w : wordlike w → Fields w = [w].
Proof.
  intros [Hs Hw]. unfold Fields. rewrite Hs, words_Some. by destruct w.
Qed.

Lemma words_wordlike s cur :
  scan (cur ++ s) = map Some cur ++ scan s →
  Forall wordlike (words cur (scan s)).
Proof.
  remember (length s) as n eqn:Hn.
  revert s cur Hn. induction (lt_wf n) as [n _ IH]. intros s cur Hn H.
  destruct s as [|c t].
  { cbn [scan words]. destruct cur as [|c cur]; [by constructor|].
    repeat constructor; [|done].
    change (scan []) with (@nil (option ascii)) in H.
    by rewrite !app_nil_r in H. }
  cbn [length] in Hn. pose proof (spaceWidth_le (c :: t)) as Hle.
  cbn [length] in Hle.
  rewrite (scan_eq (c :: t)) in *.
  destruct (spaceWidth (c :: t)) as [|k] eqn:E.
  - cbn [words]. apply (IH (length t)); [lia|done|].
    rewrite <- (assoc_L (++)). cbn [app]. rewrite H, map_app.
    by rewrite <- (assoc_L (++)).
  - cbn [words]. apply Forall_app. split.
    + destruct cur as [|c0 cur]; [by constructor|].
      repeat constructor; [|done].
      rewrite scan_app_start in H
        by (apply (spaceWidth_pos_start c t); by rewrite E).
      rewrite (scan_eq (c :: t)), E in H. by apply app_inv_tail in H.
    + apply (IH (length (drop k t))); [rewrite length_drop; lia|done|done].
Qed.

(** Every field is a word. *)
Lemma Fields_words s : Forall wordlike (Fields s).
Proof. by apply (words_wordlike s []). Qed.

Lemma Split_nonempty s sep : Split s sep ≠ [].
Proof. destruct s as [|c s]; [done|]. cbn [Split]. by repeat case_match. Qed.

Lemma Join_cons e es sep :
  es ≠ [] → Join (e :: es) sep = e ++ sep ++ Join es sep.
Proof. by destruct es. Qed.

Lemma Join_cons_char c l ls sep :
  Join ((c :: l) :: ls) sep = c :: Join (l :: ls) sep.
Proof. by destruct ls. Qed.

(** Joining the lines with the separator gives the text back. *)
Lemma Join_Split s : Join (Split s LF) nl = s.
Proof.
  induction s as [|c s IH]; [done|]. cbn [Split].
  destruct (Ascii.eqb c LF) eqn:E.
  - apply Ascii.eqb_eq in E. subst c.
    rewrite Join_cons by apply Split_nonempty. by rewrite IH.
  - destruct (Split s LF) as [|l ls] eqn:Es; [by destruct (Split_nonempty s LF)|].
    by rewrite Join_cons_char, IH.
Qed.

Lemma Fields_Join_nl l : Fields (Join l nl) = concat (map Fields l).
Proof.
  induction l as [|e [|e' es] IH]; [done|..].
  - cbn. by rewrite (right_id_L [] (++)).
  - rewrite Join_cons by done. unfold nl at 1. cbn [app].
    rewrite Fields_sep by done. by rewrite IH.
Qed.

(** ** Decimal numbers and file names *)

Lemma lit_inj s1 s2 : lit s1 = lit s2 → s1 = s2.
Proof.
  intros H. apply (f_equal string_of_list_ascii) in H.
  unfold lit in H. by rewrite !string_of_list_ascii_of_string in H.
Qed.

Lemma itoa_inj n m : Fmt.itoa n = Fmt.itoa m → n = m.
Proof. intros H%lit_inj. by apply (inj pretty). Qed.

Lemma pretty_N_char_digit x : isDigit (pretty_N_char x) = true.
Proof. unfold pretty_N_char. by repeat case_match. Qed.

Lemma pretty_N_go_digits x s :
  Forall (λ c, isDigit c = true) (lit s) →
  Forall (λ c, isDigit c = true) (lit (pretty_N_go x s)).
Proof.
  revert s. induction (N.lt_wf_0 x) as [x _ IH]. intros s Hs.
  destruct (decide (x = 0)%N) as [->|Hx]; [by rewrite pretty_N_go_0|].
  rewrite pretty_N_go_step by lia. apply IH.
  - apply N.div_lt; lia.
  - cbn. constructor; [apply pretty_N_char_digit|done].
Qed.

Lemma pretty_N_digits (x : N) : Forall (λ c, isDigit c = true) (lit (pretty x)).
Proof.
  unfold pretty, pretty_N. case_decide.
  - by repeat constructor.
  - apply pretty_N_go_digits. constructor.
Qed.

Lemma itoa_digits n : Forall (λ c, isDigit c = true) (Fmt.itoa n).
Proof.
  unfold Fmt.itoa. destruct n as [|p|p]; unfold pretty, pretty_Z.
  - by repeat constructor.
  - apply (pretty_N_digits (Npos p)).
  - cbn. constructor; [done|]. apply (pretty_N_digits (Npos p)).
Qed.

Lemma Split_app_sep a b sep :
  Split (a ++ sep :: b) sep = Split a sep ++ Split b sep.
Proof.
  induction a as [|c a IH]; cbn [app Split].
  - by rewrite Ascii.eqb_refl.
  - destruct (Ascii.eqb c sep); [by rewrite IH|].
    rewrite IH. destruct (Split a sep) eqn:E; [|done].
    by destruct (Split_nonempty a sep).
Qed.

Lemma Split_none s sep : sep ∉ s → Split s sep = [s].
Proof.
  induction s as [|c s IH]; [done|]. intros Hs.
  apply not_elem_of_cons in Hs as [Hc Hs]. cbn [Split].
  destruct (Ascii.eqb c sep) eqn:E; [by apply Ascii.eqb_eq in E|].
  by rewrite IH.
Qed.

Lemma Join_snoc l e sep :
  Strings.Join (l ++ [e]) sep = concat (map (λ x, x ++ sep) l) ++ e.
Proof.
  induction l as [|x l IH]; [done|].
  change ((x :: l) ++ [e]) with (x :: (l ++ [e])).
  rewrite Join_cons by (by destruct l).
  rewrite IH. cbn [map concat]. by rewrite <- !(assoc_L (++)).
Qed.

Lemma cleanStep_simple rooted out n :
  simpleName n → Filepath.cleanStep rooted out n = n :: out.
Proof.
  intros (_ & H1 & H2 & H3). unfold Filepath.cleanStep.
  by rewrite !bool_decide_false.
Qed.

Lemma Join_simple d n :
  simpleName n → Filepath.Join [d; n] = joinPrefix d ++ n.
Proof.
  intros Hn. pose proof Hn as (Hs & Hne & _).
  destruct d as [|c d].
  - cbn [Filepath.Join joinPrefix app]. rewrite bool_decide_true by done.
    rewrite bool_decide_false by done. cbn [Strings.Join].
    destruct n as [|c n]; [done|]. unfold Filepath.Clean.
    rewrite (Split_none (c :: n)) by done. cbn [fold_left].
    rewrite cleanStep_simple by done.
    destruct (Ascii.eqb c Filepath.slash) eqn:E; [|done].
    apply Ascii.eqb_eq in E. subst c. destruct Hs. by left.
  - cbn [Filepath.Join]. rewrite bool_decide_false by done.
    rewrite Join_cons by done. cbn [Strings.Join].
    change ((c :: d) ++ [Filepath.slash] ++ n)
      with (c :: (d ++ Filepath.slash :: n)).
    unfold Filepath.Clean, joinPrefix.
    change (c :: d ++ Filepath.slash :: n)
      with ((c :: d) ++ Filepath.slash :: n).
    rewrite Split_app_sep, (Split_none n) by done.
    rewrite fold_left_app. cbn [fold_left].
    rewrite cleanStep_simple by done.
    set (out := fold_left _ _ _). cbn [rev]. rewrite Join_snoc.
    by destruct (Ascii.eqb c Filepath.slash).
Qed.

Lemma isDigit_not_slash (l : gostring) :
  Forall (λ c, isDigit c = true) l → Filepath.slash ∉ l.
Proof.
  intros H Hs. rewrite Forall_forall in H. by specialize (H _ Hs).
Qed.

Lemma name_simple pre i :
  pre ≠ [] → Filepath.slash ∉ pre → head pre ≠ Some "."%char →
  simpleName (pre ++ Fmt.itoa (i + 1) ++ lit ".txt").
Proof.
  intros Hne Hs Hd. split.
  - rewrite !not_elem_of_app. split; [done|].
    split; [apply isDigit_not_slash, itoa_digits|compute_done].
  - destruct pre as [|c pre]; [done|]. cbn in Hd.
    repeat split; [done|..]; intros [= -> _]; by destruct Hd.
Qed.

Lemma chunkName_simple i : simpleName (chunkName i).
Proof. apply name_simple; [done|compute_done|done]. Qed.

Lemma resultName_simple i : simpleName (resultName i).
Proof. apply name_simple; [done|compute_done|done]. Qed.

Lemma chunkFileName_eq d i : chunkFileName d i = joinPrefix d ++ chunkName i.
Proof. apply Join_simple, chunkName_simple. Qed.

Lemma resultFileName_eq d i : resultFileName d i = joinPrefix d ++ resultName i.
Proof. apply Join_simple, resultName_simple. Qed.

(** The files of different chunks are different files. *)
Lemma chunk_ne_result d i j : chunkFileName d i ≠ resultFileName d j.
Proof.
  rewrite chunkFileName_eq, resultFileName_eq. intros H%(inj (app _)).
  discriminate H.
Qed.

Lemma resultFileName_inj d i j :
  resultFileName d i = resultFileName d j → i = j.
Proof.
  rewrite !resultFileName_eq. intros H%(inj (app _)). unfold resultName in H.
  apply (inj (app _)) in H. apply app_inv_tail in H.
  apply itoa_inj in H. lia.
Qed.

Lemma chunkFileName_inj d i j :
  chunkFileName d i = chunkFileName d j → i = j.
Proof.
  rewrite !chunkFileName_eq. intros H%(inj (app _)). unfold chunkName in H.
  apply (inj (app _)) in H. apply app_inv_tail in H.
  apply itoa_inj in H. lia.
Qed.

(** No chunk or result file is the file of the combined results: the name
    of the latter ends with ["s.txt"], theirs with a digit and [".txt"]. *)
Lemma name_ne_combined base pre name c i :
  last name = Some c → c ≠ "s"%char →
  base ++ lit ".combined_results.txt"
  ≠ pre ++ name ++ Fmt.itoa i ++ lit ".txt".
Proof.
  intros Hlast Hc H.
  change (lit ".combined_results.txt")
    with (lit ".combined_result" ++ ["s"%char] ++ lit ".txt") in H.
  rewrite !(assoc_L (++)) in H. apply app_inv_tail in H.
  apply (f_equal last) in H. rewrite last_snoc in H. symmetry in H.
  apply last_app_Some in H as [H|[_ H]].
  - apply last_Some_elem_of in H.
    pose proof (itoa_digits i) as Hd. rewrite Forall_forall in Hd.
    by specialize (Hd _ H).
  - apply last_app_Some in H as [H|[H _]]; congruence.
Qed.

Lemma chunk_ne_combined d base i :
  chunkFileName d i ≠ base ++ lit ".combined_results.txt".
Proof.
  rewrite chunkFileName_eq. unfold chunkName. intros H. symmetry in H.
  revert H. by apply (name_ne_combined _ _ _ "k"%char).
Qed.

Lemma result_ne_combined d base i :
  resultFileName d i ≠ base ++ lit ".combined_results.txt".
Proof.
  rewrite resultFileName_eq. unfold resultName. intros H. symmetry in H.
  revert H. by apply (name_ne_combined _ _ _ "t"%char).
Qed.

(** ** The chunker keeps the words *)

Local Open Scope Z_scope.

Lemma nonEmpty_true s : nonEmpty s = true ↔ s ≠ [].
Proof. unfold nonEmpty. by rewrite bool_decide_eq_true. Qed.

Lemma nonEmpty_false s : nonEmpty s = false ↔ s = [].
Proof.
  unfold nonEmpty. rewrite bool_decide_eq_false.
  split; [|by intros ->; auto]. destruct s; [done|]. intros H. by destruct H.
Qed.

Lemma len_nonneg {A} (l : list A) : 0 ≤ len l.
Proof. unfold len. lia. Qed.

Lemma allFields_app l1 l2 : allFields (l1 ++ l2) = allFields l1 ++ allFields l2.
Proof. unfold allFields. by rewrite map_app, concat_app. Qed.

Lemma allFields_snoc l s : allFields (l ++ [s]) = allFields l ++ Fields s.
Proof.
  rewrite allFields_app. unfold allFields. cbn.
  by rewrite (right_id_L [] (++)).
Qed.

Lemma Fields_app_endsWith c a b :
  asciiSpace c = true → endsWith c a → Fields (a ++ b) = Fields a ++ Fields b.
Proof.
  intros Hc [->|[a' ->]]; [done|].
  rewrite <- (assoc_L (++)). cbn [app].
  by rewrite Fields_sep, Fields_snoc_space.
Qed.

Lemma endsWith_app c a : endsWith c (a ++ [c]).
Proof. right. by exists a. Qed.

Lemma endsWith_app_l c a b : endsWith c (a ++ b ++ [c]).
Proof. right. exists (a ++ b). by rewrite (assoc_L (++)). Qed.

Lemma Fields_snoc_nl a : Fields (a ++ nl) = Fields a.
Proof. by apply Fields_snoc_space. Qed.

Section chunker.
Context (enc : Codec) (maxTokensPerChunk : Z).

Lemma wordStep_inv before seen st word :
  wordInv before seen st → wordlike word →
  wordInv before (seen ++ [word]) (wordStep enc maxTokensPerChunk st word).
Proof.
  intros [Hw He Hs] Hword. unfold wordStep.
  assert (Fields (word ++ sp) = [word]) as Hf.
  { unfold sp. by rewrite Fields_snoc_space, Fields_wordlike. }
  case_match; split; cbn [w_chunks wordChunk].
  - by rewrite allFields_snoc, Fields_TrimSpace, Hw, Hf, (assoc_L (++)).
  - apply endsWith_app.
  - right. by destruct word.
  - rewrite (Fields_app_endsWith " "%char) by done.
    by rewrite (assoc_L (++)), Hw, Hf, (assoc_L (++)).
  - apply endsWith_app_l.
  - right. destruct (wordChunk st); [by destruct word|done].
Qed.

Lemma wordLoop_inv before ws seen st :
  wordInv before seen st → Forall wordlike ws →
  wordInv before (seen ++ ws) (fold_left (wordStep enc maxTokensPerChunk) ws st).
Proof.
  revert seen st. induction ws as [|w ws IH]; intros seen st Hi Hws.
  - by rewrite (right_id_L [] (++)).
  - apply Forall_cons in Hws as [Hw Hws]. cbn [fold_left].
    replace (seen ++ w :: ws) with ((seen ++ [w]) ++ ws)
      by by rewrite <- (assoc_L (++)).
    apply IH; [|done]. by apply wordStep_inv.
Qed.

Lemma addLine_inv seen st line n :
  lineInv seen st → 0 ≤ n →
  lineInv (seen ++ [line]) (addLine maxTokensPerChunk st (line ++ nl) n).
Proof.
  intros [Hw He Ht] Hn. unfold addLine.
  assert (Fields (line ++ nl) = Fields line) as Hf
    by by apply Fields_snoc_space.
  case_match; split; cbn [chunks currentChunk currentTokens]; try lia.
  - by rewrite !allFields_snoc, Fields_TrimSuffix_nl, Hw, Hf.
  - apply endsWith_app.
  - rewrite (Fields_app_endsWith LF) by done.
    by rewrite (assoc_L (++)), Hw, Hf, allFields_snoc.
  - apply endsWith_app_l.
Qed.

(** After [addLine] the buffer of an oversized line is that line alone. *)
Lemma addLine_oversized st lineWithNewline n :
  0 ≤ currentTokens st → n > maxTokensPerChunk →
  let st1 := addLine maxTokensPerChunk st lineWithNewline n in
  currentChunk st1 = lineWithNewline ∧
  allFields (chunks st1) = allFields (chunks st) ++ Fields (currentChunk st).
Proof.
  intros Ht Hn. unfold addLine.
  replace (currentTokens st + n >? maxTokensPerChunk) with true
    by (symmetry; apply Z.gtb_lt; lia).
  cbn [andb]. destruct (nonEmpty (currentChunk st)) eqn:E;
    cbn [chunks currentChunk currentTokens].
  - by rewrite allFields_snoc, Fields_TrimSuffix_nl.
  - apply nonEmpty_false in E. rewrite E. cbn.
    by rewrite (right_id_L [] (++)).
Qed.

Lemma splitLine_inv seen st line :
  allFields (chunks st) = allFields seen →
  currentChunk st = line ++ nl → 0 ≤ currentTokens st →
  lineInv (seen ++ [line]) (splitLine enc maxTokensPerChunk st line).
Proof.
  intros Hc Hcur Htok. unfold splitLine.
  set (st0 := {| w_chunks := chunks st; wordChunk := []; wordTokens := 0 |}).
  assert (wordInv (chunks st) [] st0) as Hi0.
  { split; cbn; [done|by left|by left]. }
  pose proof (wordLoop_inv _ (Fields line) _ _ Hi0 (Fields_words line))
    as [Hw He Hs].
  cbn [app] in Hw, Hs.
  remember (fold_left _ _ st0) as ws eqn:Hws. clear Hws.
  destruct (nonEmpty (wordChunk _)) eqn:E; split;
    cbn [chunks currentChunk currentTokens].
  - rewrite Fields_snoc_nl, Fields_TrimSpace.
    by rewrite Hw, Hc, allFields_snoc.
  - apply endsWith_app.
  - apply len_nonneg.
  - apply nonEmpty_false in E. destruct Hs as [Hs|Hs]; [|done].
    rewrite E in Hw. change (Fields []) with (@nil gostring) in Hw.
    rewrite (right_id_L [] (++)) in Hw.
    rewrite Hcur, Fields_snoc_nl, Hw, Hc, allFields_snoc, Hs.
    by rewrite !(right_id_L [] (++)).
  - rewrite Hcur. apply endsWith_app.
  - done.
Qed.

Lemma lineStep_inv seen st line :
  lineInv seen st →
  lineInv (seen ++ [line]) (lineStep enc maxTokensPerChunk st line).
Proof.
  intros Hi. unfold lineStep.
  pose proof (addLine_inv seen st line _ Hi
                (len_nonneg (Encode enc (line ++ nl)))) as Hi1.
  destruct (_ >? _) eqn:E; [|done].
  apply Z.gtb_lt in E.
  destruct (addLine_oversized st (line ++ nl) (len (Encode enc (line ++ nl)))
              (li_tokens _ _ Hi)) as [Hc Hf]; [lia|].
  apply splitLine_inv; [|done|by destruct Hi1].
  rewrite Hf. by destruct Hi.
Qed.

Lemma lineLoop_inv lines seen st :
  lineInv seen st →
  lineInv (seen ++ lines) (fold_left (lineStep enc maxTokensPerChunk) lines st).
Proof.
  revert seen st. induction lines as [|l lines IH]; intros seen st Hi.
  - by rewrite (right_id_L [] (++)).
  - cbn [fold_left].
    replace (seen ++ l :: lines) with ((seen ++ [l]) ++ lines)
      by by rewrite <- (assoc_L (++)).
    apply IH. by apply lineStep_inv.
Qed.

Lemma finish_words seen st :
  lineInv seen st → allFields (finish st) = allFields seen.
Proof.
  intros [Hw _ _]. unfold finish. destruct (nonEmpty _) eqn:E.
  - by rewrite allFields_snoc, Fields_TrimSuffix_nl.
  - apply nonEmpty_false in E. rewrite E in Hw. rewrite <- Hw.
    change (Fields []) with (@nil gostring). by rewrite (right_id_L [] (++)).
Qed.

Lemma splitWith_words text :
  Fields (Join (splitWith enc text maxTokensPerChunk) nl) = Fields text.
Proof.
  rewrite Fields_Join_nl. unfold splitWith.
  assert (lineInv [] initState) as Hi0.
  { split; cbn; [done|by left|done]. }
  pose proof (lineLoop_inv (Split text LF) [] initState Hi0) as Hi.
  apply finish_words in Hi. cbn [app] in Hi. unfold allFields in Hi.
  by rewrite Hi, <- Fields_Join_nl, Join_Split.
Qed.

End chunker.

(** C1. Content preservation: whenever the tokenizer is available,
    [splitIntoTokenChunks] returns chunks and no error, and the chunks joined
    with ["\n"] have the same sequence of white-space separated words as the
    input text. *)
Theorem split_preserves_words (tokenizer_Get : Encoding → Codec + error)
    (enc : Codec) (text : gostring) (maxTokensPerChunk : Z) :
  tokenizer_Get Cl100kBase = inl enc →
  ∃ chunks,
    splitIntoTokenChunks tokenizer_Get text maxTokensPerChunk = (chunks, None)
    ∧ Fields (Join chunks nl) = Fields text.
Proof.
  intros Hget. unfold splitIntoTokenChunks. rewrite Hget.
  eexists. split; [done|]. apply splitWith_words.
Qed.

(** ** Trimming a buffer of words *)








(** ** The chunker and the budget *)

Section budget.
Context (enc : Codec) (maxTokensPerChunk : Z).
Hypothesis count_sep : ∀ a c b, asciiSpace c = true →
  count enc (a ++ c :: b) ≤ count enc (a ++ [c]) + count enc b.
Hypothesis count_trim : ∀ a c, asciiSpace c = true →
  count enc a ≤ count enc (a ++ [c]).

Local Abbreviation cnt := (count enc).
Local Abbreviation ok := (within enc maxTokensPerChunk).
Local Abbreviation wordB' := (wordB enc maxTokensPerChunk).
Local Abbreviation lineB' := (lineB enc maxTokensPerChunk).

Lemma count_nonneg s : 0 ≤ cnt s.
Proof. apply len_nonneg. Qed.














End budget.

(** ** The chunker on the inputs of the scenarios *)




Section scenarios.
Context (enc : Codec) (maxTokensPerChunk : Z).

(** A line that fits is appended to the buffer. *)
Lemma lineStep_fits st line :
  0 ≤ currentTokens st →
  currentTokens st + count enc (line ++ nl) ≤ maxTokensPerChunk →
  lineStep enc maxTokensPerChunk st line
  = {| chunks := chunks st;
       currentChunk := currentChunk st ++ line ++ nl;
       currentTokens := currentTokens st + count enc (line ++ nl) |}.
Proof.
  intros H0 Hfit. unfold lineStep, addLine. fold (count enc (line ++ nl)).
  destruct (Z.gtb_spec (currentTokens st + count enc (line ++ nl))
              maxTokensPerChunk); [lia|].
  cbn [andb].
  destruct (Z.gtb_spec (count enc (line ++ nl)) maxTokensPerChunk); [lia|done].
Qed.

Lemma splitWith_abc :
  count enc (lit "a" ++ nl) + count enc (lit "b" ++ nl)
    + count enc (lit "c" ++ nl) + count enc nl ≤ maxTokensPerChunk →
  splitWith enc abcText maxTokensPerChunk = [abcText].
Proof.
  intros Hfit. unfold splitWith.
  change (Split abcText LF) with [lit "a"; lit "b"; lit "c"; []].
  pose proof (count_nonneg enc (lit "a" ++ nl)).
  pose proof (count_nonneg enc (lit "b" ++ nl)).
  pose proof (count_nonneg enc (lit "c" ++ nl)).
  pose proof (count_nonneg enc nl).
  cbn [fold_left].
  rewrite (lineStep_fits initState) by (cbn [currentTokens initState]; lia).
  rewrite (lineStep_fits _ (lit "b")) by (cbn [currentTokens initState]; lia).
  rewrite (lineStep_fits _ (lit "c")) by (cbn [currentTokens initState]; lia).
  rewrite (lineStep_fits _ [])
    by (cbn [currentTokens initState]; change ([] ++ nl) with nl; lia).
  done.
Qed.

Lemma splitWith_empty : splitWith enc [] maxTokensPerChunk = [[]].
Proof.
  unfold splitWith. cbn [Split fold_left]. unfold lineStep, addLine.
  cbn [initState currentChunk currentTokens chunks].
  change (nonEmpty []) with false. rewrite andb_false_r.
  destruct (_ >? _); [|done].
  unfold splitLine. by cbn.
Qed.

End scenarios.




(** Without an assumption on the codec the budget is not kept by chunks of
    several words either: the running count is the sum of the counts of the
    lines, not the count of the chunk. *)
Lemma budget_is_on_running_count :
  splitIntoTokenChunks (λ _, inl oddCodec) (lit "a" ++ nl ++ lit "b") 2
  = ([lit "a" ++ nl ++ lit "b"], None)
  ∧ count oddCodec (lit "a" ++ nl ++ lit "b") = 5
  ∧ Fields (lit "a" ++ nl ++ lit "b") = [lit "a"; lit "b"].
Proof. by vm_compute. Qed.

(** C5 (amended).  For the text ["a\nb\nc\n"] and a budget that holds its
    lines, [splitIntoTokenChunks] returns exactly one chunk, and that chunk is
    the input itself, with its trailing newline. *)
Theorem abc_single_chunk (tokenizer_Get : Encoding → Codec + error)
    (enc : Codec) (maxTokensPerChunk : Z) :
  tokenizer_Get Cl100kBase = inl enc →
  count enc (lit "a" ++ nl) + count enc (lit "b" ++ nl)
    + count enc (lit "c" ++ nl) + count enc nl ≤ maxTokensPerChunk →
  splitIntoTokenChunks tokenizer_Get abcText maxTokensPerChunk
  = ([abcText], None).
Proof.
  intros Hget Hfit. unfold splitIntoTokenChunks. rewrite Hget.
  by rewrite splitWith_abc.
Qed.

Lemma abc_single_chunk_witness :
  splitIntoTokenChunks byteTokenizer abcText 2000 = ([abcText], None).
Proof.
  apply (abc_single_chunk byteTokenizer byteCodec 2000).
  - reflexivity.
  - vm_compute. discriminate.
Defined.

(** C5 (as stated) fails: the chunk is not the input with its trailing
    newline trimmed. *)
Lemma abc_chunk_is_not_trimmed :
  splitIntoTokenChunks byteTokenizer abcText 2000 = ([abcText], None)
  ∧ abcText ≠ TrimSuffix abcText nl
  ∧ abcText ≠ TrimSpace abcText.
Proof. split; [by vm_compute|]. split; by vm_compute. Qed.

(** C9. Empty input: whenever the tokenizer is available,
    [splitIntoTokenChunks] returns exactly one chunk, the empty string, for
    every budget. *)
Theorem empty_input_one_empty_chunk (tokenizer_Get : Encoding → Codec + error)
    (enc : Codec) (maxTokensPerChunk : Z) :
  tokenizer_Get Cl100kBase = inl enc →
  splitIntoTokenChunks tokenizer_Get [] maxTokensPerChunk = ([[]], None).
Proof.
  intros Hget. unfold splitIntoTokenChunks. rewrite Hget.
  by rewrite splitWith_empty.
Qed.

Lemma empty_input_one_empty_chunk_witness :
  splitIntoTokenChunks byteTokenizer [] 1000 = ([[]], None).
Proof.
  apply (empty_input_one_empty_chunk byteTokenizer byteCodec 1000).
  reflexivity.
Defined.

Lemma split_preserves_words_witness :
  ∃ chunks,
    splitIntoTokenChunks byteTokenizer sampleText 6 = (chunks, None)
    ∧ Fields (Join chunks nl) = Fields sampleText.
Proof.
  apply (split_preserves_words byteTokenizer byteCodec sampleText 6).
  reflexivity.
Defined.

(** ** One chunk *)

Lemma hasContent_true res :
  hasContent res = true → Choices res ≠ [] ∧ firstContent res ≠ [].
Proof.
  unfold hasContent. intros [H1 H2]%andb_true_iff.
  apply nonEmpty_true in H2. split; [|done].
  intros E. by rewrite E in H1.
Qed.

Lemma hasContent_false res :
  hasContent res = false → Choices res = [] ∨ firstContent res = [].
Proof.
  unfold hasContent. intros [H|H]%andb_false_iff.
  - left. destruct (Choices res); [done|].
    unfold len in H. rewrite Z.gtb_ltb in H. apply Z.ltb_ge in H.
    cbn [length] in H. lia.
  - right. by apply nonEmpty_false.
Qed.

Section processChunk.
Context (os : OS) (client : ChatGenerator) (model : Model) (i : Z)
  (chunkDir prompt chunk : gostring) (ctxDone : bool).

Local Abbreviation run := (runProg os client i ctxDone).
Local Abbreviation chunkFile := (chunkFileName chunkDir i).
Local Abbreviation resultFile := (resultFileName chunkDir i).

(** A result file that exists is returned, whatever it holds. *)
Lemma processChunk_cached w existingResult :
  files w !! resultFile = Some existingResult →
  run (processChunk model i chunkDir prompt chunk) w
  = ((existingResult, None), w).
Proof.
  intros Hhit. unfold processChunk. cbn [runProg].
  unfold os_ReadFile. by rewrite Hhit.
Qed.

(** Without a result file and with the chunk written, the client is
    called. *)
Lemma processChunk_generates w :
  files w !! resultFile = None → writeFault os chunkFile = None →
  let res := client (calls w) ctxDone (chunkParams model prompt chunk) in
  let w1 := {| files := <[chunkFile := chunk]> (files w); dirs := dirs w;
               calls := calls w ++ [{| call_index := i;
                 call_params := chunkParams model prompt chunk;
                 call_result := res |}] |} in
  run (processChunk model i chunkDir prompt chunk) w
  = match res with
    | inr err => (([], Some (errGenerate i err)), w1)
    | inl res =>
      if hasContent res
      then run (err ⇐ WriteFile resultFile (firstContent res) ;;
                Ret (firstContent res, None)) w1
      else (([], Some (errNoContent i)), w1)
    end.
Proof.
  intros Hmiss Hw. unfold processChunk. cbn [runProg].
  unfold os_ReadFile. rewrite Hmiss. cbn [runProg].
  unfold os_WriteFile at 1. rewrite Hw. cbn [runProg files dirs calls].
  destruct (client _ _ _) as [res|e]; [|done].
  by destruct (hasContent res).
Qed.

End processChunk.

(** C6. An empty response is an error: when the chunk has no result file,
    its text has been written and the client answers without a choice or
    with an empty content, [processChunk] returns the error "no content in
    response for chunk <i+1>" and an empty result, and the chunk still has no
    result file. *)
Theorem empty_response_is_error (os : OS) (client : ChatGenerator)
    (model : Model) (i : Z) (chunkDir prompt chunk : gostring)
    (ctxDone : bool) (w : World) (res : ChatCompletion) :
  files w !! resultFileName chunkDir i = None →
  writeFault os (chunkFileName chunkDir i) = None →
  client (calls w) ctxDone (chunkParams model prompt chunk) = inl res →
  Choices res = [] ∨ firstContent res = [] →
  ∃ w',
    runProg os client i ctxDone (processChunk model i chunkDir prompt chunk) w
    = (([], Some (errNoContent i)), w')
    ∧ Error (errNoContent i)
      = lit "no content in response for chunk " ++ Fmt.itoa (i + 1)
    ∧ files w' = <[chunkFileName chunkDir i := chunk]> (files w)
    ∧ files w' !! resultFileName chunkDir i = None.
Proof.
  intros Hmiss Hw Hres Hempty.
  rewrite processChunk_generates by done. rewrite Hres.
  assert (hasContent res = false) as ->.
  { unfold hasContent. destruct Hempty as [->| ->]; [done|].
    change (nonEmpty []) with false. apply andb_false_r. }
  eexists. split; [done|]. split; [done|]. split; [done|].
  cbn [files]. rewrite lookup_insert_ne; [done|apply chunk_ne_result].
Qed.

(** C8. A failed cache write is not fatal: when the client answers with a
    content that is not empty and the result file cannot be written,
    [processChunk] still returns the content and no error. *)
Theorem cache_write_failure_is_not_fatal (os : OS) (client : ChatGenerator)
    (model : Model) (i : Z) (chunkDir prompt chunk : gostring)
    (ctxDone : bool) (w : World) (res : ChatCompletion) (werr : error) :
  files w !! resultFileName chunkDir i = None →
  writeFault os (chunkFileName chunkDir i) = None →
  client (calls w) ctxDone (chunkParams model prompt chunk) = inl res →
  Choices res ≠ [] → firstContent res ≠ [] →
  writeFault os (resultFileName chunkDir i) = Some werr →
  ∃ w',
    runProg os client i ctxDone (processChunk model i chunkDir prompt chunk) w
    = ((firstContent res, None), w')
    ∧ files w' !! resultFileName chunkDir i = None.
Proof.
  intros Hmiss Hw Hres Hch Hcontent Hfault.
  rewrite processChunk_generates by done. rewrite Hres.
  assert (hasContent res = true) as ->.
  { apply andb_true_iff. split; [|by apply nonEmpty_true].
    apply Z.gtb_lt. unfold len. destruct (Choices res); [done|]. cbn. lia. }
  cbn [runProg]. unfold os_WriteFile. rewrite Hfault.
  eexists. split; [done|].
  cbn [files]. rewrite lookup_insert_ne; [done|apply chunk_ne_result].
Qed.

(** C10. A cached empty result is returned as it is: when the result file of
    the chunk exists and is empty, [processChunk] returns the empty string
    and no error, and the world is unchanged; in particular no call of the
    client is made. *)
Theorem cached_empty_result_is_returned (os : OS) (client : ChatGenerator)
    (model : Model) (i : Z) (chunkDir prompt chunk : gostring)
    (ctxDone : bool) (w : World) :
  files w !! resultFileName chunkDir i = Some [] →
  runProg os client i ctxDone (processChunk model i chunkDir prompt chunk) w
  = (([], None), w).
Proof. apply processChunk_cached. Qed.

(** C7. Clean cancellation: when the confirmation is required and the answer
    is neither "yes" nor "y", a run that got as far as the question (the
    document was read and split) returns no error and leaves the world as it
    was: no file written, no directory created, no call of the client. *)
Theorem declined_run_changes_nothing
    (tokenizer_Get : Encoding → Codec + error) (os : OS) (sched : list nat)
    (client : ChatGenerator) (model : Model)
    (prompt filePath response text : gostring) (enc : Codec) (w : World) :
  files w !! filePath = Some text →
  tokenizer_Get Cl100kBase = inl enc →
  ToLower (TrimSpace response) ≠ lit "yes" →
  ToLower (TrimSpace response) ≠ lit "y" →
  ProcessWithClient tokenizer_Get os sched client model prompt filePath
    true response w = (None, w).
Proof.
  intros Hfile Hget Hyes Hy. unfold ProcessWithClient, os_ReadFile.
  rewrite Hfile. unfold estimateTokens, splitIntoTokenChunks. rewrite Hget.
  unfold declines. by rewrite !bool_decide_true.
Qed.

(** ** The goroutines of the error group, stage by stage *)

Section stages.
Context (model : Model) (chunkDir prompt : gostring).

(** [processChunk] is the cache lookup followed by the stages above. *)
Lemma processChunk_stages i chunk r :
  match processChunk model i chunkDir prompt chunk with
  | ReadFile name k =>
    name = resultFileName chunkDir i
    ∧ k r = pLooked model chunkDir prompt i chunk r
  | _ => False
  end.
Proof. split; [done|]. by destruct r. Qed.

End stages.

(** ** The invariant of the error group *)

Section group.
Context (os : OS) (client : ChatGenerator) (model : Model)
  (chunkDir prompt : gostring) (chunks : list gostring) (w0 : World).

Local Abbreviation cp' := (cp chunkDir).
Local Abbreviation rp' := (rp chunkDir).
Local Abbreviation mkCall' := (mkCall model prompt).
Local Abbreviation newCalls' := (newCalls w0).
Local Abbreviation noCall' := (noCall w0).
Local Abbreviation okInv' := (okInv os chunkDir w0).
Local Abbreviation failInv' := (failInv os model chunkDir prompt w0).
Local Abbreviation StInv' := (StInv os model chunkDir prompt w0).
Local Abbreviation Inv' := (Inv os model chunkDir prompt chunks w0).

Lemma rp_inj i j : rp' i = rp' j → i = j.
Proof. intros H%resultFileName_inj. lia. Qed.

Lemma cp_ne_rp i j : cp' i ≠ rp' j.
Proof. apply chunk_ne_result. Qed.

Lemma newCalls_app w w' extra :
  calls w = calls w0 ++ newCalls' w → calls w' = calls w ++ extra →
  newCalls' w' = newCalls' w ++ extra ∧ calls w' = calls w0 ++ newCalls' w'.
Proof.
  intros Hw Hw'. assert (newCalls' w' = newCalls' w ++ extra) as Hn.
  { unfold newCalls at 1. rewrite Hw', Hw, <- (assoc_L (++)).
    by rewrite drop_app_length. }
  split; [done|]. by rewrite Hn, (assoc_L (++)), <- Hw.
Qed.

Lemma tasks_lookup ss i c s :
  chunks !! i = Some c → ss !! i = Some s →
  imap (λ i cs, prog_of model chunkDir prompt (Z.of_nat i) cs.1 cs.2)
    (zip chunks ss) !! i
  = Some (prog_of model chunkDir prompt (Z.of_nat i) c s).
Proof.
  intros Hc Hs. rewrite list_lookup_imap.
  assert (zip chunks ss !! i = Some (c, s)) as ->; [|done].
  apply lookup_zip_with_Some. eauto.
Qed.

Lemma tasks_insert ss i c s' :
  chunks !! i = Some c → (i < length ss)%nat →
  <[i := prog_of model chunkDir prompt (Z.of_nat i) c s']>
    (imap (λ i cs, prog_of model chunkDir prompt (Z.of_nat i) cs.1 cs.2)
       (zip chunks ss))
  = imap (λ i cs, prog_of model chunkDir prompt (Z.of_nat i) cs.1 cs.2)
      (zip chunks (<[i := s']> ss)).
Proof.
  intros Hc Hi. apply list_eq. intros j.
  destruct (decide (j = i)) as [->|Hne].
  - rewrite list_lookup_insert_eq.
    + symmetry. apply tasks_lookup; [done|].
      by rewrite list_lookup_insert_eq.
    + rewrite length_imap, length_zip_with.
      apply lookup_lt_Some in Hc. lia.
  - rewrite list_lookup_insert_ne by done.
    rewrite !list_lookup_imap. f_equal.
    rewrite !lookup_zip_with. by rewrite list_lookup_insert_ne.
Qed.

(** A step of goroutine [i] keeps the invariant when it keeps the part of
    the invariant that is about [i] and leaves the rest alone. *)
Lemma inv_step ss g w i c s s' g' w' extra :
  Inv' ss g w → chunks !! i = Some c → ss !! i = Some s →
  tasks g' = <[i := prog_of model chunkDir prompt (Z.of_nat i) c s']> (tasks g) →
  (∀ p, p ≠ cp' i → p ≠ rp' i → files w' !! p = files w !! p) →
  dirs w' = dirs w →
  calls w' = calls w ++ extra →
  (∀ e, e ∈ extra → e = mkCall' i c (call_result e)
                     ∧ matches i (call_result e) s') →
  (∀ r, matches i r s → matches i r s') →
  (err g' = err g
   ∨ ∃ r e, s' = TDone (r, Some e) ∧ err g = None ∧ err g' = Some e) →
  (∀ k, k ≠ i → results g' !! k = results g !! k) →
  length (results g') = length (results g) →
  (∀ x, files w0 !! rp' i = Some x → files w' !! rp' i = Some x) →
  (∀ r e, s = TDone (r, Some e) → s' = s) →
  StInv' i c s' g' w' →
  Inv' (<[i := s']> ss) g' w'.
Proof.
  intros [Hlen Htasks Hres Hcalls Hst Hent Hframe Hdirs Hpre Herr]
    Hc Hs Ht' Hfiles Hd' Hcalls' Hextra Hmatch Herr' Hres' Hreslen Hpre' Hdone
    Hst'.
  destruct (newCalls_app w w' extra Hcalls Hcalls') as [Hnew Hcalls''].
  assert (i < length ss)%nat as Hi by by apply lookup_lt_Some in Hs.
  assert (is_Some (err g) → is_Some (err g')) as Herrmono.
  { destruct Herr' as [->|(? & ? & _ & -> & ->)]; [done|]. by intros [??]. }
  split.
  - by rewrite length_insert.
  - rewrite Ht', Htasks. by apply tasks_insert.
  - lia.
  - done.
  - intros k ck sk Hck Hsk.
    destruct (decide (k = i)) as [->|Hne].
    { rewrite list_lookup_insert_eq in Hsk by done.
      injection Hsk as <-. by replace ck with c by congruence. }
    rewrite list_lookup_insert_ne in Hsk by done.
    specialize (Hst k ck sk Hck Hsk).
    assert (noCall' k w → noCall' k w') as Hno.
    { intros Hno e. rewrite Hnew. intros [He|He]%elem_of_app; [by apply Hno|].
      apply Hextra in He as [-> _]. cbn. lia. }
    assert (files w' !! rp' k = files w !! rp' k) as Hf.
    { apply Hfiles; [intros E; by apply (cp_ne_rp i k)|].
      intros E%rp_inj. done. }
    assert (∀ r, okInv' k r w → okInv' k r w') as Hok.
    { intros r [[? ?]|[? ?]]; [left; by auto|right]. by rewrite Hf. }
    assert (∀ e, failInv' k ck e w → failInv' k ck e w') as Hfail.
    { intros e [?|[(x & ? & ?)|(? & res & ? & ?)]];
        [by left|right; left|right; right].
      - exists x. split; [done|]. rewrite Hnew. apply elem_of_app. by left.
      - split; [done|]. exists res. split; [|done].
        rewrite Hnew. apply elem_of_app. by left. }
    destruct sk as [| | | ct|[r [e|]]|[r [e|]]]; cbn [StInv] in *.
    + destruct Hst. split; [by auto|]. by rewrite Hf.
    + destruct Hst as (? & ? & ?). split; [by auto|]. by rewrite Hf.
    + destruct Hst as (? & ? & ?). split; [by auto|]. by rewrite Hf.
    + destruct Hst. by rewrite Hf.
    + destruct Hst as (? & ? & ?). by auto.
    + by auto.
    + destruct Hst as (? & ? & ? & ?). by auto.
    + destruct Hst. split; [by auto|]. by rewrite Hres'.
  - intros e. rewrite Hnew. intros [He|He]%elem_of_app.
    + destruct (Hent e He) as (k & ck & sk & Hck & Hsk & Hmk & Hm).
      destruct (decide (k = i)) as [->|Hne].
      * exists i, c, s'. rewrite list_lookup_insert_eq by done.
        replace ck with c in * by congruence.
        replace sk with s in * by congruence. by auto.
      * exists k, ck, sk. by rewrite list_lookup_insert_ne.
    + exists i, c, s'. rewrite list_lookup_insert_eq by done.
      destruct (Hextra e He). by auto.
  - intros p Hp. rewrite <- Hframe by done.
    apply lookup_lt_Some in Hc. apply Hfiles; by apply Hp.
  - congruence.
  - intros k x Hx. destruct (decide (k = i)) as [->|Hne]; [by auto|].
    rewrite Hfiles; [by auto|intros E; by apply (cp_ne_rp i k)|].
    by intros E%rp_inj.
  - intros e He. destruct Herr' as [Heq|(r & e' & -> & Hnone & Hsome)].
    + rewrite Heq in He. destruct (Herr e He) as (k & r & Hk).
      exists k, r. destruct (decide (k = i)) as [->|Hne].
      * rewrite list_lookup_insert_eq by done.
        rewrite Hs in Hk. injection Hk as ->. f_equal. by apply (Hdone r e).
      * by rewrite list_lookup_insert_ne.
    + exists i, r. rewrite list_lookup_insert_eq by done. congruence.
Qed.

End group.

(** ** Every step of a goroutine keeps the invariant *)

Section steps.
Context (os : OS) (client : ChatGenerator) (model : Model)
  (chunkDir prompt : gostring) (chunks : list gostring) (w0 : World).

Local Abbreviation Inv' := (Inv os model chunkDir prompt chunks w0).
Local Abbreviation prog := (prog_of model chunkDir prompt).

Lemma stepTask_running g w i p :
  tasks g !! i = Some (Running p) →
  stepTask os client (g, w) i
  = match p with
    | Ret r => (returnTask i r g, w)
    | _ =>
      let '(p', w') := stepProg os client (Z.of_nat i) (cancelled g) p w in
      ({| tasks := <[i := Running p']> (tasks g); err := err g;
          results := results g; completed := completed g |}, w')
    end.
Proof. intros H. unfold stepTask. rewrite H. by destruct p. Qed.

Lemma stepTask_idle g w i :
  (∀ p, tasks g !! i ≠ Some (Running p)) → stepTask os client (g, w) i = (g, w).
Proof.
  intros H. unfold stepTask. destruct (tasks g !! i) as [[p|r]|] eqn:E; try done.
  by destruct (H p).
Qed.

Lemma matches_early i r s :
  s = TStart ∨ s = TMiss ∨ s = TWritten → ¬ matches i r s.
Proof.
  intros Hs Hm. destruct r as [res|x]; cbn in Hm;
    [destruct (hasContent res)|];
    destruct Hs as [->|[->| ->]]; by repeat destruct Hm as [Hm|Hm].
Qed.

Lemma matches_return i r x :
  matches i r (TRet x) → matches i r (TDone x).
Proof.
  destruct r as [res|y]; cbn; [destruct (hasContent res)|].
  - intros [H|[H|H]]; [done| |done]. injection H as ->. by auto.
  - intros [H|H]; [|done]. injection H as ->. by auto.
  - intros [H|H]; [|done]. injection H as ->. by auto.
Qed.

Lemma call_made w i c r :
  calls w = calls w0 ++ newCalls w0 w →
  mkCall model prompt i c r
  ∈ newCalls w0 {| files := files w; dirs := dirs w;
                   calls := calls w ++ [mkCall model prompt i c r] |}.
Proof.
  intros Hcalls.
  destruct (newCalls_app w0 w {| files := files w; dirs := dirs w;
              calls := calls w ++ [mkCall model prompt i c r] |} _ Hcalls
              eq_refl) as [-> _].
  apply elem_of_app. right. by apply list_elem_of_singleton.
Qed.

Lemma stepTask_inv ss g w i :
  Inv' ss g w →
  ∃ ss', Inv' ss' (stepTask os client (g, w) i).1
                   (stepTask os client (g, w) i).2.
Proof.
  intros HI. pose proof HI as
    [Hlen Htasks Hres Hcalls Hst Hent Hframe Hdirs Hpre Herr].
  destruct (ss !! i) as [s|] eqn:Hs.
  2:{ exists ss. rewrite stepTask_idle; [done|]. intros p.
      rewrite Htasks, list_lookup_imap.
      apply lookup_ge_None in Hs.
      rewrite (proj2 (lookup_ge_None _ _)); [done|].
      rewrite length_zip_with. lia. }
  destruct (chunks !! i) as [c|] eqn:Hc.
  2:{ apply lookup_ge_None in Hc. apply lookup_lt_Some in Hs. lia. }
  pose proof (tasks_lookup model chunkDir prompt chunks ss i c s Hc Hs) as Ht.
  rewrite <- Htasks in Ht. specialize (Hst i c s Hc Hs).
  destruct s as [| | | ct|r|r]; cbn [prog_of] in Ht.
  - (* the cache lookup *)
    rewrite (stepTask_running _ _ _ _ Ht). unfold processChunk.
    cbn [stepProg fst snd]. unfold os_ReadFile.
    destruct Hst as [Hno Hsame]. fold (rp chunkDir i).
    destruct (files w !! rp chunkDir i) as [x|] eqn:Hf.
    + exists (<[i := TRet (x, None)]> ss). cbn [fst snd].
      apply (inv_step os model chunkDir prompt chunks w0 ss g w i c
               TStart (TRet (x, None)) _ _ [] HI Hc Hs);
        cbn [tasks err results files dirs calls].
      * done.
      * done.
      * done.
      * by rewrite (right_id_L [] (++)).
      * by intros e ?%elem_of_nil.
      * intros r Hm. by destruct (matches_early i r TStart); auto.
      * by left.
      * done.
      * done.
      * by apply Hpre.
      * done.
      * left. by rewrite <- Hsame.
    + exists (<[i := TMiss]> ss). cbn [fst snd].
      apply (inv_step os model chunkDir prompt chunks w0 ss g w i c
               TStart TMiss _ _ [] HI Hc Hs);
        cbn [tasks err results files dirs calls].
      * done.
      * done.
      * done.
      * by rewrite (right_id_L [] (++)).
      * by intros e ?%elem_of_nil.
      * intros r Hm. by destruct (matches_early i r TStart); auto.
      * by left.
      * done.
      * done.
      * by apply Hpre.
      * done.
      * split; [done|]. split; [done|by symmetry].
  - (* the chunk is written *)
    rewrite (stepTask_running _ _ _ _ Ht). unfold pMiss.
    cbn [stepProg]. unfold os_WriteFile. fold (cp chunkDir i).
    destruct Hst as (Hno & Hnone & Hnone0).
    destruct (writeFault os (cp chunkDir i)) as [x|] eqn:Hfault.
    + exists (<[i := TRet ([], Some (errWriteChunk (Z.of_nat i) x))]> ss).
      cbn [fst snd pChunkWritten].
      apply (inv_step os model chunkDir prompt chunks w0 ss g w i c
               TMiss (TRet ([], Some (errWriteChunk (Z.of_nat i) x)))
               _ _ [] HI Hc Hs);
        cbn [tasks err results files dirs calls];
        [done|done|done|by rewrite (right_id_L [] (++))
        |by intros e ?%elem_of_nil
        |intros r Hm; by destruct (matches_early i r TMiss); auto
        |by left|done|done|by apply Hpre|done|].
      split; [done|]. split; [done|]. left. by exists x.
    + exists (<[i := TWritten]> ss). cbn [fst snd pChunkWritten].
      apply (inv_step os model chunkDir prompt chunks w0 ss g w i c
               TMiss TWritten _ _ [] HI Hc Hs);
        cbn [tasks err results files dirs calls];
        [done|by intros p ? ?; rewrite lookup_insert_ne|done
        |by rewrite (right_id_L [] (++))
        |by intros e ?%elem_of_nil
        |intros r Hm; by destruct (matches_early i r TMiss); auto
        |by left|done|done|intros x Hx; congruence|done|].
      split; [done|]. split; [|done]. cbn [files].
      rewrite lookup_insert_ne; [done|apply cp_ne_rp].
  - (* the client is called *)
    rewrite (stepTask_running _ _ _ _ Ht). unfold pWritten.
    cbn [stepProg fst snd]. destruct Hst as (Hno & Hnone & Hnone0).
    destruct (client (calls w) (cancelled g) (chunkParams model prompt c))
      as [res|x]; cbn [pGenerated];
      [destruct (hasContent res) eqn:Hcontent|].
    + exists (<[i := TGot (firstContent res)]> ss).
      apply (inv_step os model chunkDir prompt chunks w0 ss g w i c
               TWritten (TGot (firstContent res)) _ _
               [mkCall model prompt i c (inl res)] HI Hc Hs);
        cbn [tasks err results files dirs calls];
        [done|done|done|done
        |intros e ->%list_elem_of_singleton; split; [done|];
         cbn; rewrite Hcontent; by left
        |intros r Hm; by destruct (matches_early i r TWritten); auto
        |by left|done|done|by apply Hpre|done|done].
    + exists (<[i := TRet ([], Some (errNoContent (Z.of_nat i)))]> ss).
      apply (inv_step os model chunkDir prompt chunks w0 ss g w i c
               TWritten (TRet ([], Some (errNoContent (Z.of_nat i)))) _ _
               [mkCall model prompt i c (inl res)] HI Hc Hs);
        cbn [tasks err results files dirs calls];
        [done|done|done|done
        |intros e ->%list_elem_of_singleton; split; [done|];
         cbn; rewrite Hcontent; by left
        |intros r Hm; by destruct (matches_early i r TWritten); auto
        |by left|done|done|by apply Hpre|done|].
      split; [done|]. split; [done|]. right. right. split; [done|]. exists res.
      split; [|done]. by apply call_made.
    + exists (<[i := TRet ([], Some (errGenerate (Z.of_nat i) x))]> ss).
      apply (inv_step os model chunkDir prompt chunks w0 ss g w i c
               TWritten (TRet ([], Some (errGenerate (Z.of_nat i) x))) _ _
               [mkCall model prompt i c (inr x)] HI Hc Hs);
        cbn [tasks err results files dirs calls];
        [done|done|done|done
        |intros e ->%list_elem_of_singleton; split; [done|]; by left
        |intros r Hm; by destruct (matches_early i r TWritten); auto
        |by left|done|done|by apply Hpre|done|].
      split; [done|]. split; [done|]. right. left. exists x. split; [done|].
      by apply call_made.
  - (* the result is cached *)
    rewrite (stepTask_running _ _ _ _ Ht). unfold pStore.
    cbn [stepProg]. unfold os_WriteFile. fold (rp chunkDir i).
    destruct Hst as (Hnone & Hnone0).
    assert (∀ r, matches i r (TGot ct) → matches i r (TRet (ct, None)))
      as Hmatch.
    { intros [res|x]; cbn; [|by intros [?|?]].
      destruct (hasContent res); [|by intros [?|?]].
      intros [[= ->]|[?|?]]; by auto. }
    destruct (writeFault os (rp chunkDir i)) as [x|] eqn:Hfault.
    + exists (<[i := TRet (ct, None)]> ss). cbn [fst snd].
      apply (inv_step os model chunkDir prompt chunks w0 ss g w i c
               (TGot ct) (TRet (ct, None)) _ _ [] HI Hc Hs);
        cbn [tasks err results files dirs calls];
        [done|done|done|by rewrite (right_id_L [] (++))
        |by intros e ?%elem_of_nil|done
        |by left|done|done|by apply Hpre|done|].
      right. split; [done|]. right. by rewrite Hfault.
    + exists (<[i := TRet (ct, None)]> ss). cbn [fst snd].
      apply (inv_step os model chunkDir prompt chunks w0 ss g w i c
               (TGot ct) (TRet (ct, None)) _ _ [] HI Hc Hs);
        cbn [tasks err results files dirs calls];
        [done|by intros p ? ?; rewrite lookup_insert_ne|done
        |by rewrite (right_id_L [] (++))
        |by intros e ?%elem_of_nil|done
        |by left|done|done|intros x Hx; congruence|done|].
      right. split; [done|]. left. cbn [files]. by rewrite lookup_insert_eq.
  - (* the goroutine returns *)
    rewrite (stepTask_running _ _ _ _ Ht). cbn [fst snd].
    assert (i < length (results g))%nat as Hi.
    { rewrite Hres. by apply lookup_lt_Some in Hc. }
    destruct r as [x [e|]]; cbn [returnTask].
    + exists (<[i := TDone (x, Some e)]> ss).
      destruct Hst as (Hx & Hnone0 & Hfail).
      apply (inv_step os model chunkDir prompt chunks w0 ss g w i c
               (TRet (x, Some e)) (TDone (x, Some e)) _ _ [] HI Hc Hs);
        cbn [tasks err results files dirs calls];
        [done|done|done|by rewrite (right_id_L [] (++))
        |by intros e' ?%elem_of_nil
        | | |done|done|by apply Hpre|done|].
      * intros r. apply matches_return.
      * destruct (err g) as [first|] eqn:Herrg; [by left|].
        right. by exists x, e.
      * split; [done|]. split; [done|]. split; [done|]. by destruct (err g).
    + exists (<[i := TDone (x, None)]> ss).
      apply (inv_step os model chunkDir prompt chunks w0 ss g w i c
               (TRet (x, None)) (TDone (x, None)) _ _ [] HI Hc Hs);
        cbn [tasks err results files dirs calls];
        [done|done|done|by rewrite (right_id_L [] (++))
        |by intros e' ?%elem_of_nil
        | |by left|by intros k ?; rewrite list_lookup_insert_ne
        |by rewrite length_insert|by apply Hpre|done|].
      * intros r. apply matches_return.
      * split; [done|]. cbn [results]. by rewrite list_lookup_insert_eq.
  - (* the goroutine has returned *)
    exists ss. rewrite stepTask_idle; [done|]. intros p. by rewrite Ht.
Qed.

End steps.


(** ** Waiting for the goroutines *)

Section dispatch.
Context (os : OS) (client : ChatGenerator).

Local Abbreviation step := (stepTask os client).
Local Abbreviation finish1 := (finishTask os client).

Lemma returnTask_setTask i r g t :
  returnTask i r (setTask g i t) = returnTask i r g.
Proof.
  destruct r as [x [e|]]; unfold returnTask, setTask; cbn;
    by rewrite list_insert_insert_eq.
Qed.

Lemma finishTask_setTask g w i p :
  (i < length (tasks g))%nat →
  finish1 (setTask g i (Running p), w) i
  = let '(r, w') := runProg os client (Z.of_nat i) (cancelled g) p w in
    (returnTask i r g, w').
Proof.
  intros Hi. unfold finishTask. cbn [tasks setTask].
  rewrite list_lookup_insert_eq by done.
  change (cancelled (setTask g i (Running p))) with (cancelled g).
  destruct (runProg _ _ _ _ _ _) as [r w'].
  by rewrite returnTask_setTask.
Qed.

(** Running a goroutine to its end is a sequence of its steps. *)
Lemma finishTask_steps g w i :
  ∃ k, finish1 (g, w) i = fold_left step (replicate k i) (g, w).
Proof.
  destruct (tasks g !! i) as [[p|r]|] eqn:Ht.
  2,3: exists 0%nat; unfold finishTask; by rewrite Ht.
  assert (i < length (tasks g))%nat as Hi by by apply lookup_lt_Some in Ht.
  assert (∀ p g w, (i < length (tasks g))%nat →
            tasks g !! i = Some (Running p) →
            ∃ k, (let '(r, w') :=
                    runProg os client (Z.of_nat i) (cancelled g) p w in
                  (returnTask i r g, w'))
                 = fold_left step (replicate k i) (g, w)) as Hgen.
  { clear. intros p. induction p as [r|name k IH|name data k IH|params k IH];
      intros g w Hi Ht.
    - exists 1%nat. cbn [replicate fold_left runProg].
      by rewrite (stepTask_running _ _ _ _ _ _ Ht).
    - destruct (IH (os_ReadFile os w name)
                  (setTask g i (Running (k (os_ReadFile os w name)))) w)
        as [n Hn].
      { cbn. by rewrite length_insert. }
      { cbn. by rewrite list_lookup_insert_eq. }
      exists (S n). cbn [replicate fold_left].
      rewrite (stepTask_running _ _ _ _ _ _ Ht). cbn [stepProg].
      transitivity (fold_left step (replicate n i)
        (setTask g i (Running (k (os_ReadFile os w name))), w)); [|done].
      rewrite <- Hn. cbn [runProg].
      change (cancelled (setTask _ _ _)) with (cancelled g).
      destruct (runProg _ _ _ _ _ _) as [r w'].
      by rewrite returnTask_setTask.
    - destruct (os_WriteFile os w name data) as [e w1] eqn:Hw.
      destruct (IH e (setTask g i (Running (k e))) w1) as [n Hn].
      { cbn. by rewrite length_insert. }
      { cbn. by rewrite list_lookup_insert_eq. }
      exists (S n). cbn [replicate fold_left].
      rewrite (stepTask_running _ _ _ _ _ _ Ht). cbn [stepProg].
      rewrite Hw.
      transitivity (fold_left step (replicate n i)
        (setTask g i (Running (k e)), w1)); [|done].
      rewrite <- Hn. cbn [runProg]. rewrite Hw.
      change (cancelled (setTask _ _ _)) with (cancelled g).
      destruct (runProg _ _ _ _ _ _) as [r w'].
      by rewrite returnTask_setTask.
    - set (res := client (calls w) (cancelled g) params).
      set (w1 := {| files := files w; dirs := dirs w;
                    calls := calls w ++ [{| call_index := Z.of_nat i;
                      call_params := params; call_result := res |}] |}).
      destruct (IH res (setTask g i (Running (k res))) w1) as [n Hn].
      { cbn. by rewrite length_insert. }
      { cbn. by rewrite list_lookup_insert_eq. }
      exists (S n). cbn [replicate fold_left].
      rewrite (stepTask_running _ _ _ _ _ _ Ht). cbn [stepProg].
      transitivity (fold_left step (replicate n i)
        (setTask g i (Running (k res)), w1)); [|done].
      rewrite <- Hn. cbn [runProg]. fold res. fold w1.
      change (cancelled (setTask _ _ _)) with (cancelled g).
      destruct (runProg _ _ _ _ _ _) as [r w'].
      by rewrite returnTask_setTask. }
  destruct (Hgen p g w Hi Ht) as [k Hk]. exists k. rewrite <- Hk.
  unfold finishTask. by rewrite Ht.
Qed.

Lemma finishAll_steps l gw :
  ∃ sched, fold_left finish1 l gw = fold_left step sched gw.
Proof.
  revert gw. induction l as [|i l IH]; intros [g w].
  - by exists [].
  - cbn [fold_left]. destruct (finishTask_steps g w i) as [k Hk].
    destruct (IH (finish1 (g, w) i)) as [sched Hs].
    exists (replicate k i ++ sched). by rewrite fold_left_app, <- Hk.
Qed.

(** [dispatch] is the run of a schedule that extends the given one. *)
Lemma dispatch_steps sched g w :
  ∃ rest, dispatch os client sched g w = fold_left step (sched ++ rest) (g, w).
Proof.
  unfold dispatch.
  destruct (finishAll_steps (seq 0 (length (tasks g)))
              (fold_left step sched (g, w))) as [rest Hr].
  exists rest. by rewrite fold_left_app.
Qed.

Lemma returnTask_tasks i r g :
  tasks (returnTask i r g) = <[i := Returned r]> (tasks g).
Proof. by destruct r as [x [e|]]. Qed.

Lemma finishTask_length gw i :
  length (tasks (finish1 gw i).1) = length (tasks gw.1).
Proof.
  destruct gw as [g w]. unfold finishTask.
  destruct (tasks g !! i) as [[p|r]|]; try done.
  destruct (runProg _ _ _ _ _ _) as [r w']. cbn.
  by rewrite returnTask_tasks, length_insert.
Qed.

Lemma finishTask_returned gw i :
  (i < length (tasks gw.1))%nat → returned (finish1 gw i).1 i.
Proof.
  destruct gw as [g w]. cbn. intros Hi. unfold finishTask.
  destruct (tasks g !! i) as [[p|r]|] eqn:Ht.
  - destruct (runProg _ _ _ _ _ _) as [r w']. exists r. cbn.
    by rewrite returnTask_tasks, list_lookup_insert_eq.
  - by exists r.
  - apply lookup_ge_None in Ht. lia.
Qed.

Lemma finishTask_keeps gw i j :
  returned gw.1 j → returned (finish1 gw i).1 j.
Proof.
  destruct gw as [g w]. cbn. intros [r Hr]. unfold finishTask.
  destruct (tasks g !! i) as [[p|r']|] eqn:Ht; [|by exists r..].
  destruct (runProg _ _ _ _ _ _) as [r' w']. exists r. cbn.
  rewrite returnTask_tasks, list_lookup_insert_ne; [done|].
  intros ->. congruence.
Qed.

Lemma finishAll_returned l gw j :
  (j < length (tasks gw.1))%nat → j ∈ l ∨ returned gw.1 j →
  returned (fold_left finish1 l gw).1 j.
Proof.
  revert gw. induction l as [|i l IH]; intros gw Hj Hin; cbn [fold_left].
  - destruct Hin as [Hin|?]; [|done]. by apply elem_of_nil in Hin.
  - apply IH; [by rewrite finishTask_length|].
    destruct Hin as [[->|Hin]%elem_of_cons|Hr].
    + right. by apply finishTask_returned.
    + by left.
    + right. by apply finishTask_keeps.
Qed.

Lemma stepTask_length gw i :
  length (tasks (step gw i).1) = length (tasks gw.1).
Proof.
  destruct gw as [g w]. unfold stepTask.
  destruct (tasks g !! i) as [[p|r]|]; try done.
  destruct p; cbn; try (by rewrite returnTask_tasks, length_insert);
    try (by rewrite length_insert).
  destruct (os_WriteFile _ _ _ _). cbn. by rewrite length_insert.
Qed.

Lemma steps_length sched gw :
  length (tasks (fold_left step sched gw).1) = length (tasks gw.1).
Proof.
  revert gw. induction sched as [|i l IH]; intros gw; [done|].
  cbn [fold_left]. by rewrite IH, stepTask_length.
Qed.

(** When [g.Wait] returns, all goroutines have returned. *)
Lemma dispatch_returned sched g w j :
  (j < length (tasks g))%nat → returned (dispatch os client sched g w).1 j.
Proof.
  intros Hj. unfold dispatch. apply finishAll_returned.
  - by rewrite steps_length.
  - left. apply elem_of_seq. lia.
Qed.

End dispatch.


(** ** The group after the wait *)

Section final.
Context (os : OS) (client : ChatGenerator) (model : Model)
  (chunkDir prompt : gostring) (chunks : list gostring) (w0 : World).

Local Abbreviation Inv' := (Inv os model chunkDir prompt chunks w0).
Local Abbreviation g0 := (spawn model chunkDir prompt chunks).

Lemma newCalls_start : newCalls w0 w0 = [].
Proof. unfold newCalls. by rewrite drop_all. Qed.

Lemma spawn_inv : Inv' (replicate (length chunks) TStart) g0 w0.
Proof.
  split.
  - by rewrite length_replicate.
  - cbn [spawn tasks]. apply list_eq. intros i.
    rewrite !list_lookup_imap.
    destruct (chunks !! i) as [c|] eqn:Hc.
    + assert (zip chunks (replicate (length chunks) TStart) !! i
              = Some (c, TStart)) as ->; [|done].
      apply lookup_zip_with_Some. exists c, TStart. split; [done|].
      split; [done|]. apply lookup_replicate. split; [done|].
      by apply lookup_lt_Some in Hc.
    + cbn. rewrite (proj2 (lookup_ge_None _ _)); [done|].
      rewrite length_zip_with, length_replicate.
      apply lookup_ge_None in Hc. lia.
  - cbn. by rewrite length_replicate.
  - by rewrite newCalls_start, (right_id_L [] (++)).
  - intros i c s Hc [-> _]%lookup_replicate. cbn. split; [|done].
    intros e. rewrite newCalls_start. by intros ?%elem_of_nil.
  - intros e. rewrite newCalls_start. by intros ?%elem_of_nil.
  - done.
  - done.
  - done.
  - done.
Qed.

Lemma steps_inv sched ss g w :
  Inv' ss g w →
  ∃ ss', Inv' ss' (fold_left (stepTask os client) sched (g, w)).1
                  (fold_left (stepTask os client) sched (g, w)).2.
Proof.
  revert ss g w. induction sched as [|i l IH]; intros ss g w HI.
  - by exists ss.
  - cbn [fold_left].
    destruct (stepTask_inv os client model chunkDir prompt chunks w0
                ss g w i HI) as [ss1 H1].
    destruct (stepTask os client (g, w) i) as [g1 w1]. by apply (IH ss1).
Qed.

(** When [g.Wait] returns, the invariant holds and every goroutine has
    returned. *)
Lemma dispatch_final sched :
  ∃ rs, length rs = length chunks
        ∧ Inv' (TDone <$> rs) (dispatch os client sched g0 w0).1
                              (dispatch os client sched g0 w0).2.
Proof.
  destruct (dispatch_steps os client sched g0 w0) as [rest Hd].
  destruct (steps_inv (sched ++ rest) _ _ _ spawn_inv) as [ss HI].
  rewrite <- Hd in HI.
  exists (ret_of <$> ss). split; [rewrite length_fmap; by destruct HI|].
  replace (TDone <$> (ret_of <$> ss)) with ss; [done|].
  apply list_eq. intros i. rewrite !list_lookup_fmap.
  destruct (ss !! i) as [s|] eqn:Hs; [|done]. cbn. f_equal.
  destruct (chunks !! i) as [c|] eqn:Hc.
  2:{ apply lookup_ge_None in Hc. apply lookup_lt_Some in Hs.
      destruct HI. lia. }
  destruct (dispatch_returned os client sched g0 w0 i) as [r Hr].
  { cbn. rewrite length_imap. by apply lookup_lt_Some in Hc. }
  rewrite (inv_tasks _ _ _ _ _ _ _ _ _ HI) in Hr.
  rewrite (tasks_lookup model chunkDir prompt chunks ss i c s Hc Hs) in Hr.
  by destruct s.
Qed.

End final.


(** ** A run of [ProcessWithClient] *)

Lemma chunkFailure_mentions os chunkDir log j e :
  chunkFailure os chunkDir log j e →
  mentions e (lit "chunk " ++ Fmt.itoa (j + 1)).
Proof.
  intros [(x & -> & _)|[(x & call & -> & _)|[-> _]]].
  - exists (lit "failed to write "), (lit ": " ++ Error x).
    unfold errWriteChunk, Fmt.Errorf_w. cbn [Error].
    change (lit "failed to write chunk ")
      with (lit "failed to write " ++ lit "chunk ").
    by rewrite <- !(assoc_L (++)).
  - exists (lit "failed to generate chat completion for "),
      (lit ": " ++ Error x).
    unfold errGenerate, Fmt.Errorf_w. cbn [Error].
    change (lit "failed to generate chat completion for chunk ")
      with (lit "failed to generate chat completion for " ++ lit "chunk ").
    by rewrite <- !(assoc_L (++)).
  - exists (lit "no content in response for "), [].
    unfold errNoContent. cbn [Error].
    change (lit "no content in response for chunk ")
      with (lit "no content in response for " ++ lit "chunk ").
    by rewrite (right_id_L [] (++)), <- !(assoc_L (++)).
Qed.

Lemma errWait_mentions e s : mentions e s → mentions (errWait e) s.
Proof.
  intros (pre & post & H).
  exists (lit "failed to wait for all subtasks to complete: " ++ pre), post.
  unfold errWait, Fmt.Errorf_w. cbn [Error]. rewrite H.
  by rewrite <- !(assoc_L (++)).
Qed.

Section run.
Context (tokenizer_Get : Encoding → Codec + error) (os : OS)
  (client : ChatGenerator) (model : Model) (prompt filePath : gostring).

Local Abbreviation chunkDir := (chunkDirOf filePath).
Local Abbreviation combined := (combinedFileName filePath).

Lemma ProcessWithClient_dispatch sched confirm response w text enc :
  files w !! filePath = Some text →
  tokenizer_Get Cl100kBase = inl enc →
  confirm && declines response = false →
  mkdirFault os chunkDir = None →
  ProcessWithClient tokenizer_Get os sched client model prompt filePath
    confirm response w
  = fromDispatch os client model prompt filePath sched
      (splitWith enc text 2000) (withDir w chunkDir).
Proof.
  intros Hfile Hget Hgo Hmk. unfold ProcessWithClient, os_ReadFile.
  rewrite Hfile. unfold estimateTokens, splitIntoTokenChunks. rewrite Hget.
  rewrite Hgo. unfold os_MkdirAll. fold chunkDir. rewrite Hmk.
  unfold fromDispatch, withDir.
  by destruct (dispatch _ _ _ _ _) as [g w2].
Qed.

(** A run ends before the dispatch, without any effect but the directory, or
    it goes through the dispatch. *)
Lemma ProcessWithClient_cases sched confirm response w ret w' :
  ProcessWithClient tokenizer_Get os sched client model prompt filePath
    confirm response w = (ret, w') →
  (w' = w ∧ (ret = None → confirm && declines response = true))
  ∨ ∃ text enc,
      files w !! filePath = Some text
      ∧ tokenizer_Get Cl100kBase = inl enc
      ∧ confirm && declines response = false
      ∧ mkdirFault os chunkDir = None
      ∧ fromDispatch os client model prompt filePath sched
          (splitWith enc text 2000) (withDir w chunkDir)
        = (ret, w').
Proof.
  intros Hrun.
  destruct (files w !! filePath) as [text|] eqn:Hfile.
  2:{ left. unfold ProcessWithClient, os_ReadFile in Hrun.
      rewrite Hfile in Hrun. by injection Hrun as <- <-. }
  destruct (tokenizer_Get Cl100kBase) as [enc|e] eqn:Hget.
  2:{ left. unfold ProcessWithClient, os_ReadFile, estimateTokens in Hrun.
      rewrite Hfile, Hget in Hrun. by injection Hrun as <- <-. }
  destruct (confirm && declines response) eqn:Hgo.
  { left. unfold ProcessWithClient, os_ReadFile, estimateTokens,
      splitIntoTokenChunks in Hrun.
    rewrite Hfile, Hget, Hgo in Hrun. by injection Hrun as <- <-. }
  destruct (mkdirFault os chunkDir) as [e|] eqn:Hmk.
  { left. unfold ProcessWithClient, os_ReadFile, estimateTokens,
      splitIntoTokenChunks, os_MkdirAll in Hrun.
    fold chunkDir in Hrun.
    rewrite Hfile, Hget, Hgo, Hmk in Hrun. by injection Hrun as <- <-. }
  right. exists text, enc. repeat split; try done.
  by rewrite <- (ProcessWithClient_dispatch sched confirm response w text enc).
Qed.

End run.


(** ** What the dispatch leaves behind *)

Section after.
Context (os : OS) (client : ChatGenerator) (model : Model)
  (chunkDir prompt : gostring) (chunks : list gostring) (w0 : World)
  (sched : list nat).

Local Abbreviation gw :=
  (dispatch os client sched (spawn model chunkDir prompt chunks) w0).
Local Abbreviation rp' := (rp chunkDir).
Local Abbreviation cp' := (cp chunkDir).

Lemma done_lookup (rs : list (gostring * option error)) i c :
  length rs = length chunks → chunks !! i = Some c →
  ∃ r, (TDone <$> rs) !! i = Some (TDone r).
Proof.
  intros Hlen Hc. destruct (rs !! i) as [r|] eqn:Hr.
  - exists r. by rewrite list_lookup_fmap, Hr.
  - apply lookup_ge_None in Hr. apply lookup_lt_Some in Hc. lia.
Qed.

Lemma after_ok i c :
  err gw.1 = None → chunks !! i = Some c →
  ∃ r, results gw.1 !! i = Some r ∧ okInv os chunkDir w0 i r gw.2.
Proof.
  intros Herr Hc.
  destruct (dispatch_final os client model chunkDir prompt chunks w0 sched)
    as (rs & Hlen & HI).
  destruct (done_lookup rs i c Hlen Hc) as [[r e] Hr].
  pose proof (inv_st _ _ _ _ _ _ _ _ _ HI i c _ Hc Hr) as Hst.
  destruct e as [e|]; cbn [StInv] in Hst.
  - destruct Hst as (_ & _ & _ & Hs). rewrite Herr in Hs. by destruct Hs.
  - exists r. by destruct Hst.
Qed.

Lemma after_err e :
  err gw.1 = Some e →
  ∃ i c, chunks !! i = Some c ∧ files w0 !! rp' i = None
         ∧ failInv os model chunkDir prompt w0 i c e gw.2.
Proof.
  intros Herr.
  destruct (dispatch_final os client model chunkDir prompt chunks w0 sched)
    as (rs & Hlen & HI).
  destruct (inv_err _ _ _ _ _ _ _ _ _ HI e Herr) as (i & r & Hr).
  destruct (chunks !! i) as [c|] eqn:Hc.
  2:{ apply lookup_ge_None in Hc. apply lookup_lt_Some in Hr.
      rewrite length_fmap in Hr. lia. }
  exists i, c. split; [done|].
  pose proof (inv_st _ _ _ _ _ _ _ _ _ HI i c _ Hc Hr) as Hst.
  cbn [StInv] in Hst. by destruct Hst as (_ & ? & ? & _).
Qed.

Lemma after_frame p :
  (∀ i, p ≠ cp' i ∧ p ≠ rp' i) → files gw.2 !! p = files w0 !! p.
Proof.
  intros Hp.
  destruct (dispatch_final os client model chunkDir prompt chunks w0 sched)
    as (rs & Hlen & HI).
  apply (inv_frame _ _ _ _ _ _ _ _ _ HI). by intros i _.
Qed.

Lemma after_pre i x :
  files w0 !! rp' i = Some x → files gw.2 !! rp' i = Some x.
Proof.
  destruct (dispatch_final os client model chunkDir prompt chunks w0 sched)
    as (rs & Hlen & HI).
  apply (inv_pre _ _ _ _ _ _ _ _ _ HI).
Qed.

Lemma after_calls : calls gw.2 = calls w0 ++ newCalls w0 gw.2.
Proof.
  destruct (dispatch_final os client model chunkDir prompt chunks w0 sched)
    as (rs & Hlen & HI).
  apply (inv_calls _ _ _ _ _ _ _ _ _ HI).
Qed.

Lemma after_results : length (results gw.1) = length chunks.
Proof.
  destruct (dispatch_final os client model chunkDir prompt chunks w0 sched)
    as (rs & Hlen & HI).
  apply (inv_results _ _ _ _ _ _ _ _ _ HI).
Qed.

(** Every call in the log was made for a chunk, and the goroutine of that
    chunk has returned what the call led to. *)
Lemma after_entry e :
  e ∈ newCalls w0 gw.2 →
  ∃ i c, chunks !! i = Some c ∧ e = mkCall model prompt i c (call_result e)
    ∧ match call_result e with
      | inr x => is_Some (err gw.1)
      | inl res =>
        if hasContent res
        then results gw.1 !! i = Some (firstContent res)
             ∧ files w0 !! rp' i = None
             ∧ (files gw.2 !! rp' i = Some (firstContent res)
                ∨ is_Some (writeFault os (rp' i)))
        else is_Some (err gw.1)
      end.
Proof.
  intros He.
  destruct (dispatch_final os client model chunkDir prompt chunks w0 sched)
    as (rs & Hlen & HI).
  destruct (inv_entries _ _ _ _ _ _ _ _ _ HI e He)
    as (i & c & s & Hc & Hs & Hmk & Hm).
  exists i, c. split; [done|]. split; [done|].
  destruct (done_lookup rs i c Hlen Hc) as [r Hr].
  rewrite Hr in Hs. injection Hs as <-.
  pose proof (inv_st _ _ _ _ _ _ _ _ _ HI i c _ Hc Hr) as Hst.
  destruct (call_result e) as [res|x]; cbn [matches] in Hm;
    [destruct (hasContent res)|].
  - destruct Hm as [Hm|[Hm|Hm]]; [done|done|]. injection Hm as ->.
    cbn [StInv] in Hst. destruct Hst as [Hok Hres]. split; [done|].
    destruct Hok as [[_ Hno]|[Hnone Hfile]].
    + destruct (Hno e He). by rewrite Hmk.
    + split; [done|]. destruct Hfile as [?|[_ ?]]; by auto.
  - destruct Hm as [Hm|Hm]; [done|]. injection Hm as ->.
    cbn [StInv] in Hst. by destruct Hst as (_ & _ & _ & ?).
  - destruct Hm as [Hm|Hm]; [done|]. injection Hm as ->.
    cbn [StInv] in Hst. by destruct Hst as (_ & _ & _ & ?).
Qed.

(** When every chunk has its result file at the start, the results are read
    from the files and the client is not called. *)
Lemma after_hits :
  (∀ i c, chunks !! i = Some c → is_Some (files w0 !! rp' i)) →
  err gw.1 = None ∧ newCalls w0 gw.2 = []
  ∧ ∀ i c, chunks !! i = Some c → results gw.1 !! i = files w0 !! rp' i.
Proof.
  intros Hhit.
  assert (err gw.1 = None) as Herr.
  { destruct (err gw.1) as [e|] eqn:Herr; [|done].
    destruct (after_err e Herr) as (i & c & Hc & Hnone & _).
    destruct (Hhit i c Hc) as [x Hx]. congruence. }
  assert (∀ i c, chunks !! i = Some c →
            results gw.1 !! i = files w0 !! rp' i ∧ noCall w0 i gw.2) as Hall.
  { intros i c Hc. destruct (after_ok i c Herr Hc) as (r & Hr & Hok).
    destruct (Hhit i c Hc) as [x Hx].
    destruct Hok as [[Hfile Hno]|[Hnone _]]; [|congruence].
    split; [congruence|done]. }
  split; [done|]. split.
  - destruct (newCalls w0 gw.2) as [|e l] eqn:Hnew; [done|].
    assert (e ∈ newCalls w0 gw.2) as He by (rewrite Hnew; by left).
    destruct (after_entry e He) as (i & c & Hc & Hmk & _).
    destruct (Hall i c Hc) as [_ Hno]. destruct (Hno e He). by rewrite Hmk.
  - intros i c Hc. by destruct (Hall i c Hc).
Qed.

End after.


(** ** Runs that fail, and runs that resume *)

Lemma combined_ne_files filePath i :
  combinedFileName filePath ≠ cp (chunkDirOf filePath) i
  ∧ combinedFileName filePath ≠ rp (chunkDirOf filePath) i.
Proof.
  unfold combinedFileName, cp, rp. split; intros H; symmetry in H; revert H.
  - apply chunk_ne_combined.
  - apply result_ne_combined.
Qed.

Lemma os_WriteFile_calls os w name data :
  calls (os_WriteFile os w name data).2 = calls w.
Proof. unfold os_WriteFile. by destruct (writeFault os name). Qed.

Lemma failInv_chunkFailure os model chunkDir prompt w0 i c e w :
  failInv os model chunkDir prompt w0 i c e w →
  chunkFailure os chunkDir (newCalls w0 w) (Z.of_nat i) e.
Proof.
  intros [(x & ? & ?)|[(x & ? & ?)|(? & res & ? & ?)]].
  - left. by exists x.
  - right. left. exists x, (mkCall model prompt i c (inr x)). by auto.
  - right. right. split; [done|].
    exists (mkCall model prompt i c (inl res)), res. by auto.
Qed.

(** C4. Fail-fast with no partial output: if a call of the client fails
    during a run, then the run returns an error, which wraps the error of a
    chunk that failed and names that chunk by its number; the file of the
    combined results is as it was before the run; the result files that
    existed before the run are unchanged; the chunks whose content was
    received and could be written have their result file; and when the failed
    call is the only failure of the run, the error is the one of its chunk. *)
Theorem generation_failure_fails_the_run
    (tokenizer_Get : Encoding → Codec + error) (os : OS) (sched : list nat)
    (client : ChatGenerator) (model : Model) (prompt filePath : gostring)
    (requireConfirmation : bool) (response : gostring) (w w' : World)
    (ret : option error) (call : Call) (cause : error) :
  ProcessWithClient tokenizer_Get os sched client model prompt filePath
    requireConfirmation response w = (ret, w') →
  call ∈ drop (length (calls w)) (calls w') →
  call_result call = inr cause →
  ∃ e j,
    ret = Some (errWait e)
    ∧ chunkFailure os (chunkDirOf filePath)
        (drop (length (calls w)) (calls w')) j e
    ∧ mentions (errWait e) (lit "chunk " ++ Fmt.itoa (j + 1))
    ∧ files w' !! combinedFileName filePath
      = files w !! combinedFileName filePath
    ∧ (∀ (k : nat) x,
         files w !! resultFileName (chunkDirOf filePath) (Z.of_nat k) = Some x →
         files w' !! resultFileName (chunkDirOf filePath) (Z.of_nat k)
         = Some x)
    ∧ (∀ c res,
         c ∈ drop (length (calls w)) (calls w') →
         call_result c = inl res → hasContent res = true →
         writeFault os (resultFileName (chunkDirOf filePath) (call_index c))
         = None →
         files w' !! resultFileName (chunkDirOf filePath) (call_index c)
         = Some (firstContent res))
    ∧ ((∀ k, writeFault os (chunkFileName (chunkDirOf filePath) k) = None) →
       (∀ c, c ∈ drop (length (calls w)) (calls w') →
          c = call ∨ ∃ res, call_result c = inl res ∧ hasContent res = true) →
       j = call_index call ∧ e = errGenerate j cause).
Proof.
  intros Hrun Hcall Hfail.
  apply ProcessWithClient_cases in Hrun
    as [[-> _]|(text & enc & Hfile & Hget & Hgo & Hmk & Hrun)].
  { rewrite drop_all in Hcall. by apply elem_of_nil in Hcall. }
  unfold fromDispatch in Hrun.
  set (w1 := withDir w (chunkDirOf filePath)) in *.
  set (chunks := splitWith enc text 2000) in *.
  set (gw := dispatch _ _ _ _ _) in *.
  assert (∀ w2, drop (length (calls w)) (calls w2) = newCalls w1 w2) as Hnew
    by done.
  destruct (err gw.1) as [e|] eqn:Herr.
  - injection Hrun as <- <-. rewrite !Hnew in *.
    destruct (after_err os client model _ _ chunks w1 sched e Herr)
      as (i & c & Hc & Hnone & Hf).
    apply failInv_chunkFailure in Hf.
    exists e, (Z.of_nat i). split; [done|]. split; [done|].
    split; [by eapply errWait_mentions, chunkFailure_mentions|].
    split; [|split; [|split]].
    + apply (after_frame os client model _ _ chunks w1 sched).
      intros k. apply combined_ne_files.
    + intros k x Hx.
      by apply (after_pre os client model _ _ chunks w1 sched k x).
    + intros c' res Hc' Hres Hcontent Hw.
      destruct (after_entry os client model _ _ chunks w1 sched c' Hc')
        as (k & ck & Hck & Hmk' & Hm).
      rewrite Hres, Hcontent in Hm. rewrite Hmk' in Hw |- *.
      cbn [call_index mkCall] in Hw |- *.
      destruct Hm as (_ & _ & [?|Hs]); [done|].
      unfold rp in Hs. rewrite Hw in Hs. by destruct Hs.
    + intros Hnw Honly.
      destruct Hf as [(x & _ & Hx)|[(x & c' & -> & Hc' & Hidx & Hr)
                                   |(_ & c' & res & Hc' & _ & Hr & Hh)]].
      * by rewrite Hnw in Hx.
      * destruct (Honly c' Hc') as [->|(res & Hres & _)]; [|congruence].
        rewrite Hfail in Hr. injection Hr as <-. by rewrite <- Hidx.
      * destruct (Honly c' Hc') as [->|(res' & Hres' & Hh')]; congruence.
  - exfalso.
    assert (calls w' = calls gw.2) as Hcalls.
    { pose proof (os_WriteFile_calls os gw.2 (combinedFileName filePath)
                    (concat (results gw.1))) as Hwc.
      destruct (os_WriteFile os gw.2 _ _) as [[e|] w3];
        by injection Hrun as <- <-. }
    rewrite Hnew in Hcall. unfold newCalls in Hcall. rewrite Hcalls in Hcall.
    destruct (after_entry os client model _ _ chunks w1 sched call Hcall)
      as (k & ck & _ & _ & Hm).
    rewrite Hfail in Hm. change (is_Some (err gw.1)) in Hm.
    rewrite Herr in Hm. by destruct Hm.
Qed.


(** C3 (amended). Idempotent resume: if a first run on a document completes
    successfully and leaves a result file for every chunk, then a second run
    on the same document with the same prompt, whatever its client and its
    schedule, returns no error, makes no call of the client, and leaves the
    file of the combined results with the same content. *)
Theorem resume_is_idempotent
    (tokenizer_Get : Encoding → Codec + error) (os : OS)
    (sched1 sched2 : list nat) (client1 client2 : ChatGenerator)
    (model : Model) (prompt filePath : gostring)
    (confirm1 confirm2 : bool) (response1 response2 : gostring)
    (w0 w1 : World) (text : gostring) (enc : Codec) :
  ProcessWithClient tokenizer_Get os sched1 client1 model prompt filePath
    confirm1 response1 w0 = (None, w1) →
  confirm1 && declines response1 = false →
  files w0 !! filePath = Some text →
  tokenizer_Get Cl100kBase = inl enc →
  (∀ i : nat, (i < length (splitWith enc text 2000))%nat →
     is_Some (files w1 !! resultFileName (chunkDirOf filePath) (Z.of_nat i))) →
  files w1 !! filePath = Some text →
  confirm2 && declines response2 = false →
  ∃ w2,
    ProcessWithClient tokenizer_Get os sched2 client2 model prompt filePath
      confirm2 response2 w1 = (None, w2)
    ∧ calls w2 = calls w1
    ∧ is_Some (files w1 !! combinedFileName filePath)
    ∧ files w2 !! combinedFileName filePath
      = files w1 !! combinedFileName filePath.
Proof.
  intros Hrun1 Hgo1 Hfile0 Hget Hcache Hdoc Hgo2.
  apply ProcessWithClient_cases in Hrun1
    as [[_ Hno]|(text' & enc' & Hfile' & Hget' & _ & Hmk & Hrun1)].
  { rewrite Hno in Hgo1; done. }
  replace text' with text in * by congruence.
  replace enc' with enc in * by congruence. clear Hfile' Hget'.
  set (cd := chunkDirOf filePath) in *.
  set (chunks := splitWith enc text 2000) in *.
  set (combined := combinedFileName filePath) in *.
  (* the first run *)
  unfold fromDispatch in Hrun1.
  pose proof (after_results os client1 model cd (fullPrompt prompt) chunks
                (withDir w0 cd) sched1) as Hlen1.
  assert (∀ i c, err (dispatch os client1 sched1
                        (spawn model cd (fullPrompt prompt) chunks)
                        (withDir w0 cd)).1 = None →
            chunks !! i = Some c → _) as Hok1
    by exact (after_ok os client1 model cd (fullPrompt prompt) chunks
                (withDir w0 cd) sched1).
  pose proof (after_pre os client1 model cd (fullPrompt prompt) chunks
                (withDir w0 cd) sched1) as Hpre1.
  destruct (dispatch os client1 sched1 _ _) as [g1 wd1]. cbn [fst snd] in *.
  destruct (err g1) as [e|] eqn:Herr1; [done|].
  unfold os_WriteFile in Hrun1. fold combined in Hrun1.
  destruct (writeFault os combined) as [e|] eqn:Hwf; [done|].
  injection Hrun1 as <-. cbn [files calls] in *.
  assert (∀ i c, chunks !! i = Some c →
            results g1 !! i
            = <[combined := concat (results g1)]> (files wd1) !! rp cd i
            ∧ is_Some (results g1 !! i)) as Hres1.
  { intros i c Hc.
    destruct (Hok1 i c eq_refl Hc) as (r & Hr & Hok).
    rewrite Hr. split; [|done].
    specialize (Hcache i (lookup_lt_Some _ _ _ Hc)).
    fold (rp cd i) in Hcache.
    rewrite lookup_insert_ne in Hcache |- * by apply combined_ne_files.
    destruct Hok as [[Hfile _]|[_ [Hfile|[Hfile _]]]].
    - symmetry. by apply Hpre1.
    - done.
    - rewrite Hfile in Hcache. by destruct Hcache. }
  clear Hok1 Hpre1.
  (* the second run *)
  set (w1 := {| files := <[combined := concat (results g1)]> (files wd1);
                dirs := dirs wd1; calls := calls wd1 |}) in *.
  rewrite (ProcessWithClient_dispatch tokenizer_Get os client2 model prompt
             filePath sched2 confirm2 response2 w1 text enc Hdoc Hget Hgo2 Hmk).
  unfold fromDispatch. fold cd chunks combined.
  pose proof (after_results os client2 model cd (fullPrompt prompt) chunks
                (withDir w1 cd) sched2) as Hlen2.
  pose proof (after_calls os client2 model cd (fullPrompt prompt) chunks
                (withDir w1 cd) sched2) as Hcalls2.
  destruct (after_hits os client2 model cd (fullPrompt prompt) chunks
              (withDir w1 cd) sched2) as (Herr2 & Hnew2 & Hres2).
  { intros i c Hc. destruct (Hres1 i c Hc) as [Heq Hsome].
    cbn [withDir files]. unfold w1. cbn [files]. by rewrite <- Heq. }
  destruct (dispatch os client2 sched2 _ _) as [g2 wd2]. cbn [fst snd] in *.
  rewrite Herr2.
  assert (results g2 = results g1) as Hresults.
  { apply list_eq. intros i. destruct (chunks !! i) as [c|] eqn:Hc.
    - rewrite (Hres2 i c Hc). by destruct (Hres1 i c Hc) as [-> _].
    - apply lookup_ge_None in Hc.
      rewrite !(proj2 (lookup_ge_None _ _)); [done|lia..]. }
  unfold os_WriteFile. rewrite Hwf.
  eexists. split; [done|]. cbn [files calls]. split; [|split].
  - rewrite Hcalls2, Hnew2. by rewrite (right_id_L [] (++)).
  - by rewrite lookup_insert_eq.
  - by rewrite !lookup_insert_eq, Hresults.
Qed.


(** ** The theorems on a document of one chunk *)

(** C3 (as stated) fails: when the result file cannot be written, the first
    run completes successfully, and the second run calls the client again and
    writes other combined results. *)
Lemma resume_after_cache_write_failure :
  (firstRun noCacheOS).1 = None
  ∧ (secondRun noCacheOS).1 = None
  ∧ length (calls (firstRun noCacheOS).2) = 1%nat
  ∧ length (calls (secondRun noCacheOS).2) = 2%nat
  ∧ files (firstRun noCacheOS).2 !! lit "doc.combined_results.txt"
    = Some (lit "first run response")
  ∧ files (secondRun noCacheOS).2 !! lit "doc.combined_results.txt"
    = Some (lit "second run response").
Proof. by vm_compute. Qed.

Lemma resume_is_idempotent_witness :
  ∃ w2,
    ProcessWithClient byteTokenizer plainOS [0%nat; 0%nat]
      (answering "second run response") ModelGPT5Nano (lit "test prompt")
      (lit "doc.txt") false [] (firstRun plainOS).2 = (None, w2)
    ∧ calls w2 = calls (firstRun plainOS).2
    ∧ is_Some (files (firstRun plainOS).2
                 !! combinedFileName (lit "doc.txt"))
    ∧ files w2 !! combinedFileName (lit "doc.txt")
      = files (firstRun plainOS).2 !! combinedFileName (lit "doc.txt").
Proof.
  apply (resume_is_idempotent byteTokenizer plainOS [] [0%nat; 0%nat]
           (answering "first run response") (answering "second run response")
           ModelGPT5Nano (lit "test prompt") (lit "doc.txt") false false [] []
           docWorld (firstRun plainOS).2 (lit "This test will fail.")
           byteCodec).
  - by vm_compute.
  - reflexivity.
  - by vm_compute.
  - reflexivity.
  - intros i Hi. vm_compute in Hi. assert (i = 0%nat) as -> by lia.
    vm_compute. eauto.
  - by vm_compute.
  - reflexivity.
Defined.

Lemma generation_failure_fails_the_run_witness :
  ∃ e j,
    failedRun.1 = Some (errWait e)
    ∧ chunkFailure plainOS (chunkDirOf (lit "doc.txt"))
        (drop (length (calls docWorld)) (calls failedRun.2)) j e
    ∧ mentions (errWait e) (lit "chunk " ++ Fmt.itoa (j + 1))
    ∧ files failedRun.2 !! combinedFileName (lit "doc.txt")
      = files docWorld !! combinedFileName (lit "doc.txt")
    ∧ (∀ (k : nat) x,
         files docWorld
           !! resultFileName (chunkDirOf (lit "doc.txt")) (Z.of_nat k)
         = Some x →
         files failedRun.2
           !! resultFileName (chunkDirOf (lit "doc.txt")) (Z.of_nat k)
         = Some x)
    ∧ (∀ c res,
         c ∈ drop (length (calls docWorld)) (calls failedRun.2) →
         call_result c = inl res → hasContent res = true →
         writeFault plainOS
           (resultFileName (chunkDirOf (lit "doc.txt")) (call_index c))
         = None →
         files failedRun.2
           !! resultFileName (chunkDirOf (lit "doc.txt")) (call_index c)
         = Some (firstContent res))
    ∧ ((∀ k, writeFault plainOS
               (chunkFileName (chunkDirOf (lit "doc.txt")) k) = None) →
       (∀ c, c ∈ drop (length (calls docWorld)) (calls failedRun.2) →
          c = failedCall
          ∨ ∃ res, call_result c = inl res ∧ hasContent res = true) →
       j = call_index failedCall ∧ e = errGenerate j apiError).
Proof.
  apply (generation_failure_fails_the_run byteTokenizer plainOS [] failing
           ModelGPT5Nano (lit "test prompt") (lit "doc.txt") false []
           docWorld failedRun.2 failedRun.1 failedCall apiError).
  - by vm_compute.
  - vm_compute. apply list_elem_of_here.
  - reflexivity.
Defined.

Lemma empty_response_is_error_witness :
  ∃ w',
    runProg plainOS silent 0 false
      (processChunk ModelGPT5Nano 0 (lit "doc") (lit "test prompt")
         (lit "This test will fail.")) docWorld
    = (([], Some (errNoContent 0)), w')
    ∧ Error (errNoContent 0)
      = lit "no content in response for chunk " ++ Fmt.itoa (0 + 1)
    ∧ files w' = <[chunkFileName (lit "doc") 0 := lit "This test will fail."]>
                   (files docWorld)
    ∧ files w' !! resultFileName (lit "doc") 0 = None.
Proof.
  apply (empty_response_is_error plainOS silent ModelGPT5Nano 0 (lit "doc")
           (lit "test prompt") (lit "This test will fail.") false docWorld
           {| Choices := [] |}).
  - by vm_compute.
  - reflexivity.
  - reflexivity.
  - left. reflexivity.
Defined.

Lemma cache_write_failure_is_not_fatal_witness :
  ∃ w',
    runProg noCacheOS (answering "first run response") 0 false
      (processChunk ModelGPT5Nano 0 (lit "doc") (lit "test prompt")
         (lit "This test will fail.")) docWorld
    = ((lit "first run response", None), w')
    ∧ files w' !! resultFileName (lit "doc") 0 = None.
Proof.
  apply (cache_write_failure_is_not_fatal noCacheOS
           (answering "first run response") ModelGPT5Nano 0 (lit "doc")
           (lit "test prompt") (lit "This test will fail.") false docWorld
           {| Choices := [{| MessageContent := lit "first run response" |}] |}
           (errorString (lit "open doc/result1.txt: is a directory"))).
  - by vm_compute.
  - by vm_compute.
  - reflexivity.
  - discriminate.
  - discriminate.
  - by vm_compute.
Defined.

Lemma cached_empty_result_is_returned_witness :
  runProg plainOS failing 0 false
    (processChunk ModelGPT5Nano 0 (lit "doc") (lit "test prompt")
       (lit "This test will fail.")) emptyCacheWorld
  = (([], None), emptyCacheWorld).
Proof.
  apply (cached_empty_result_is_returned plainOS failing ModelGPT5Nano 0
           (lit "doc") (lit "test prompt") (lit "This test will fail.")
           false emptyCacheWorld).
  by vm_compute.
Defined.

Lemma declined_run_changes_nothing_witness :
  ProcessWithClient byteTokenizer plainOS [] failing ModelGPT5Nano
    (lit "test prompt") (lit "doc.txt") true (lit "No") docWorld
  = (None, docWorld).
Proof.
  apply (declined_run_changes_nothing byteTokenizer plainOS [] failing
           ModelGPT5Nano (lit "test prompt") (lit "doc.txt") (lit "No")
           (lit "This test will fail.") byteCodec docWorld).
  - by vm_compute.
  - reflexivity.
  - by vm_compute.
  - by vm_compute.
Defined.


(** * Further properties of the code *)

(** ** Chunks of whole lines *)

Lemma withNewlines_snoc ls l :
  withNewlines (ls ++ [l]) = withNewlines ls ++ l ++ nl.
Proof.
  unfold withNewlines. rewrite map_app, concat_app. cbn.
  by rewrite (right_id_L [] (++)).
Qed.

Lemma withNewlines_Join ls : ls ≠ [] → withNewlines ls = Join ls nl ++ nl.
Proof.
  induction ls as [|l ls IH]; [done|]. intros _.
  destruct (decide (ls = [])) as [->|Hne].
  { unfold withNewlines. cbn. by rewrite (right_id_L [] (++)). }
  rewrite Join_cons by done.
  change (withNewlines (l :: ls)) with ((l ++ nl) ++ withNewlines ls).
  rewrite IH by done. by rewrite <- !(assoc_L (++)).
Qed.

Lemma endsWith_trim s : endsWith LF s → s ≠ [] → TrimSuffix s nl ++ nl = s.
Proof.
  intros [->|[a ->]] Hne; [done|]. fold nl. by rewrite TrimSuffix_app.
Qed.

Section whole_lines.
Context (enc : Codec) (maxTokensPerChunk : Z).

Lemma addLine_bytes seen st line n :
  bytesInv seen st →
  bytesInv (seen ++ [line]) (addLine maxTokensPerChunk st (line ++ nl) n)
  ∧ currentChunk (addLine maxTokensPerChunk st (line ++ nl) n) ≠ [].
Proof.
  intros [Hb He]. unfold addLine.
  destruct (_ && _) eqn:E.
  - apply andb_true_iff in E as [_ Hne%nonEmpty_true].
    split; [split|]; cbn [chunks currentChunk].
    + rewrite !withNewlines_snoc, <- Hb, endsWith_trim by done.
      by rewrite <- !(assoc_L (++)).
    + apply endsWith_app.
    + unfold nl. by destruct line.
  - split; [split|]; cbn [chunks currentChunk].
    + rewrite withNewlines_snoc, <- Hb. by rewrite <- !(assoc_L (++)).
    + apply endsWith_app_l.
    + unfold nl. destruct (currentChunk st); by destruct line.
Qed.

Lemma lineStep_whole seen st line :
  count enc (line ++ nl) ≤ maxTokensPerChunk →
  bytesInv seen st →
  bytesInv (seen ++ [line]) (lineStep enc maxTokensPerChunk st line).
Proof.
  intros Hfit Hi. unfold lineStep. fold (count enc (line ++ nl)).
  destruct (Z.gtb_spec (count enc (line ++ nl)) maxTokensPerChunk); [lia|].
  by apply addLine_bytes.
Qed.

Lemma lineLoop_whole ls seen st :
  Forall (λ line, count enc (line ++ nl) ≤ maxTokensPerChunk) ls →
  bytesInv seen st →
  bytesInv (seen ++ ls) (fold_left (lineStep enc maxTokensPerChunk) ls st).
Proof.
  revert seen st. induction ls as [|l ls IH]; intros seen st Hls Hi.
  - by rewrite (right_id_L [] (++)).
  - apply Forall_cons in Hls as [Hl Hls]. cbn [fold_left].
    replace (seen ++ l :: ls) with ((seen ++ [l]) ++ ls)
      by by rewrite <- (assoc_L (++)).
    apply IH; [done|]. by apply lineStep_whole.
Qed.

Lemma finish_bytes seen st :
  seen ≠ [] → bytesInv seen st → Join (finish st) nl = Join seen nl.
Proof.
  intros Hseen [Hb He]. apply (app_inv_tail nl).
  rewrite <- (withNewlines_Join seen) by done. rewrite <- Hb.
  unfold finish. destruct (nonEmpty (currentChunk st)) eqn:E.
  - apply nonEmpty_true in E.
    rewrite Join_snoc. fold (withNewlines (chunks st)).
    by rewrite <- (assoc_L (++)), endsWith_trim.
  - apply nonEmpty_false in E. rewrite E, (right_id_L [] (++)).
    rewrite E, (right_id_L [] (++)) in Hb.
    rewrite withNewlines_Join; [done|].
    intros Hc. rewrite Hc in Hb. destruct seen as [|l seen]; [done|].
    unfold withNewlines, nl in Hb. cbn in Hb. by destruct l.
Qed.

Lemma splitWith_whole text :
  Forall (λ line, count enc (line ++ nl) ≤ maxTokensPerChunk) (Split text LF) →
  Join (splitWith enc text maxTokensPerChunk) nl = text.
Proof.
  intros Hls. unfold splitWith.
  assert (bytesInv [] initState) as H0 by (split; [done|by left]).
  pose proof (lineLoop_whole _ [] initState Hls H0) as Hi. cbn [app] in Hi.
  rewrite (finish_bytes (Split text LF)); [apply Join_Split| |done].
  apply Split_nonempty.
Qed.

End whole_lines.

(** X1. Byte-exact round trip: when the tokenizer is available and no line
    of the text, counted with its newline, exceeds the budget,
    [splitIntoTokenChunks] returns chunks that, joined with ["\n"], are the
    text itself. *)
Theorem whole_lines_round_trip (tokenizer_Get : Encoding → Codec + error)
    (enc : Codec) (text : gostring) (maxTokensPerChunk : Z) :
  tokenizer_Get Cl100kBase = inl enc →
  Forall (λ line, count enc (line ++ nl) ≤ maxTokensPerChunk)
    (Split text LF) →
  ∃ chunks,
    splitIntoTokenChunks tokenizer_Get text maxTokensPerChunk = (chunks, None)
    ∧ Join chunks nl = text.
Proof.
  intros Hget Hls. unfold splitIntoTokenChunks. rewrite Hget.
  eexists. split; [done|]. by apply splitWith_whole.
Qed.

Lemma whole_lines_round_trip_witness :
  ∃ chunks,
    splitIntoTokenChunks byteTokenizer sampleText 10 = (chunks, None)
    ∧ Join chunks nl = sampleText.
Proof.
  apply (whole_lines_round_trip byteTokenizer byteCodec sampleText 10).
  - reflexivity.
  - vm_compute. repeat constructor; discriminate.
Defined.

Lemma linesCount_cons enc l ls :
  linesCount enc (l :: ls) = count enc (l ++ nl) + linesCount enc ls.
Proof. done. Qed.

Lemma linesCount_nonneg enc ls : 0 ≤ linesCount enc ls.
Proof.
  induction ls as [|l ls IH]; [done|]. rewrite linesCount_cons.
  pose proof (count_nonneg enc (l ++ nl)). lia.
Qed.

Section one_chunk.
Context (enc : Codec) (maxTokensPerChunk : Z).

Lemma lineLoop_fits ls st :
  0 ≤ currentTokens st →
  currentTokens st + linesCount enc ls ≤ maxTokensPerChunk →
  fold_left (lineStep enc maxTokensPerChunk) ls st
  = {| chunks := chunks st;
       currentChunk := currentChunk st ++ withNewlines ls;
       currentTokens := currentTokens st + linesCount enc ls |}.
Proof.
  revert st. induction ls as [|l ls IH]; intros st H0 Hfit.
  - cbn. rewrite (right_id_L [] (++)), Z.add_0_r. by destruct st.
  - cbn [fold_left]. rewrite linesCount_cons in Hfit |- *.
    pose proof (linesCount_nonneg enc ls).
    pose proof (count_nonneg enc (l ++ nl)).
    rewrite lineStep_fits by lia.
    rewrite IH; cbn [chunks currentChunk currentTokens]; [|lia..].
    f_equal.
    + change (withNewlines (l :: ls)) with ((l ++ nl) ++ withNewlines ls).
      by rewrite <- !(assoc_L (++)).
    + lia.
Qed.

Lemma splitWith_fits text :
  linesCount enc (Split text LF) ≤ maxTokensPerChunk →
  splitWith enc text maxTokensPerChunk = [text].
Proof.
  intros Hfit. unfold splitWith.
  rewrite lineLoop_fits by (cbn [currentTokens initState]; lia).
  cbn [initState chunks currentChunk currentTokens app]. unfold finish.
  cbn [chunks currentChunk app].
  rewrite withNewlines_Join by apply Split_nonempty. rewrite Join_Split.
  rewrite TrimSuffix_app.
  assert (nonEmpty (text ++ nl) = true) as ->; [|done].
  apply nonEmpty_true. unfold nl. by destruct text.
Qed.

(** After a line the buffer is not empty. *)
Lemma lineStep_buffer st line :
  currentChunk (lineStep enc maxTokensPerChunk st line) ≠ [].
Proof.
  unfold lineStep.
  assert (∀ n, currentChunk (addLine maxTokensPerChunk st (line ++ nl) n) ≠ [])
    as Hadd.
  { intros n. unfold addLine. destruct (_ && _); cbn [currentChunk].
    - unfold nl. by destruct line.
    - unfold nl. destruct (currentChunk st); by destruct line. }
  destruct (_ >? _); [|apply Hadd].
  unfold splitLine. destruct (nonEmpty _); cbn [currentChunk]; [|apply Hadd].
  unfold nl. by destruct (TrimSpace _).
Qed.

Lemma lineLoop_buffer ls st :
  ls ≠ [] →
  currentChunk (fold_left (lineStep enc maxTokensPerChunk) ls st) ≠ [].
Proof.
  intros Hls. destruct (exists_last Hls) as (ls' & l & ->).
  rewrite fold_left_app. cbn [fold_left]. apply lineStep_buffer.
Qed.

Lemma splitWith_last text :
  ∃ before body,
    splitWith enc text maxTokensPerChunk = before ++ [body].
Proof.
  unfold splitWith, finish.
  pose proof (lineLoop_buffer (Split text LF) initState (Split_nonempty _ _))
    as Hne.
  apply nonEmpty_true in Hne. rewrite Hne. eauto.
Qed.

End one_chunk.

(** X2. A text that fits is one chunk: when the tokenizer is available and
    the counts of the lines of the text, each counted with its newline, sum
    to at most the budget, [splitIntoTokenChunks] returns exactly one chunk,
    and that chunk is the text. *)
Theorem text_within_budget_is_one_chunk
    (tokenizer_Get : Encoding → Codec + error) (enc : Codec)
    (text : gostring) (maxTokensPerChunk : Z) :
  tokenizer_Get Cl100kBase = inl enc →
  linesCount enc (Split text LF) ≤ maxTokensPerChunk →
  splitIntoTokenChunks tokenizer_Get text maxTokensPerChunk = ([text], None).
Proof.
  intros Hget Hfit. unfold splitIntoTokenChunks. rewrite Hget.
  by rewrite splitWith_fits.
Qed.

Lemma text_within_budget_is_one_chunk_witness :
  splitIntoTokenChunks byteTokenizer sampleText 2000 = ([sampleText], None).
Proof.
  apply (text_within_budget_is_one_chunk byteTokenizer byteCodec sampleText
           2000).
  - reflexivity.
  - vm_compute. discriminate.
Defined.

(** X3. Whenever the tokenizer is available, [splitIntoTokenChunks] returns
    at least one chunk, whatever the text and the budget. *)
Theorem split_returns_a_chunk (tokenizer_Get : Encoding → Codec + error)
    (enc : Codec) (text : gostring) (maxTokensPerChunk : Z) :
  tokenizer_Get Cl100kBase = inl enc →
  ∃ chunks,
    splitIntoTokenChunks tokenizer_Get text maxTokensPerChunk = (chunks, None)
    ∧ (0 < length chunks)%nat.
Proof.
  intros Hget. unfold splitIntoTokenChunks. rewrite Hget.
  eexists. split; [done|].
  destruct (splitWith_last enc maxTokensPerChunk text) as (b & l & ->).
  rewrite length_app. cbn. lia.
Qed.

Lemma split_returns_a_chunk_witness :
  ∃ chunks,
    splitIntoTokenChunks byteTokenizer longWord 2 = (chunks, None)
    ∧ (0 < length chunks)%nat.
Proof.
  apply (split_returns_a_chunk byteTokenizer byteCodec longWord 2).
  reflexivity.
Defined.

Lemma linesCount_snoc enc ls l :
  linesCount enc (ls ++ [l]) = linesCount enc ls + count enc (l ++ nl).
Proof.
  induction ls as [|x ls IH]; [cbn; lia|].
  change ((x :: ls) ++ [l]) with (x :: (ls ++ [l])).
  rewrite !linesCount_cons, IH. lia.
Qed.

Lemma withNewlines_nil ls : withNewlines ls = [] → ls = [].
Proof.
  destruct ls as [|l ls]; [done|]. unfold withNewlines, nl. cbn.
  by destruct l.
Qed.

Section packing.
Context (enc : Codec) (maxTokensPerChunk : Z).

Local Abbreviation packed' := (packed enc maxTokensPerChunk).
Local Abbreviation packInv' := (packInv enc maxTokensPerChunk).

Lemma packed_snoc groups g :
  packed' groups → g ≠ [] → linesCount enc g ≤ maxTokensPerChunk →
  (∀ g0 l, last groups = Some g0 → head g = Some l →
     linesCount enc g0 + count enc (l ++ nl) > maxTokensPerChunk) →
  packed' (groups ++ [g]).
Proof.
  intros Hp Hne Hfit Hnext. induction groups as [|g0 groups IH].
  - cbn. repeat split; try done.
  - destruct Hp as (H1 & H2 & H3 & H4). cbn [app packed].
    split; [done|]. split; [done|]. split.
    + intros g' l Hg' Hl. destruct groups as [|g1 groups].
      * cbn in Hg'. injection Hg' as <-. by apply Hnext.
      * by apply (H3 g').
    + apply IH; [done|]. intros g1 l Hg1 Hl. apply Hnext; [|done].
      destruct groups; [done|]. by rewrite last_cons, Hg1.
Qed.

Lemma lineStep_packs seen st groups cur line :
  count enc (line ++ nl) ≤ maxTokensPerChunk →
  packInv' seen st groups cur →
  ∃ groups' cur',
    packInv' (seen ++ [line]) (lineStep enc maxTokensPerChunk st line)
      groups' cur'
    ∧ cur' ≠ [].
Proof.
  intros Hline [Hseen Hchunks Hbuf Htok Hfits Hpacked Hfirst Hnext].
  unfold lineStep. fold (count enc (line ++ nl)).
  destruct (Z.gtb_spec (count enc (line ++ nl)) maxTokensPerChunk); [lia|].
  unfold addLine.
  destruct (Z.gtb_spec (currentTokens st + count enc (line ++ nl))
              maxTokensPerChunk) as [Hover|Hunder];
    [destruct (nonEmpty (currentChunk st)) eqn:Hne|]; cbn [andb].
  - (* the buffer is closed *)
    apply nonEmpty_true in Hne.
    assert (cur ≠ []) as Hcur by (intros ->; by rewrite Hbuf in Hne).
    exists (groups ++ [cur]), [line]. split; [|done].
    split; cbn [chunks currentChunk currentTokens].
    + rewrite concat_app. cbn [concat].
      by rewrite (right_id_L [] (++)), Hseen.
    + rewrite map_app, Hchunks, Hbuf. cbn [map].
      by rewrite withNewlines_Join, TrimSuffix_app.
    + unfold withNewlines. cbn. by rewrite (right_id_L [] (++)).
    + rewrite linesCount_cons. cbn. lia.
    + intros _. rewrite linesCount_cons. cbn. lia.
    + apply packed_snoc; by auto.
    + done.
    + intros g l. rewrite last_snoc. intros [= <-] [= <-]. lia.
  - (* the first line *)
    apply nonEmpty_false in Hne. rewrite Hbuf in Hne.
    apply withNewlines_nil in Hne. subst cur. rewrite (Hfirst eq_refl) in *.
    exists [], [line]. split; [|done].
    split; cbn [chunks currentChunk currentTokens]; try done.
    + by rewrite Hseen.
    + rewrite Hbuf. unfold withNewlines. cbn.
      by rewrite (right_id_L [] (++)).
    + rewrite Htok, linesCount_cons. cbn. lia.
    + intros _. rewrite linesCount_cons. cbn. lia.
  - (* the line is appended *)
    exists groups, (cur ++ [line]). split; [|by destruct cur].
    split; cbn [chunks currentChunk currentTokens]; try done.
    + by rewrite Hseen, (assoc_L (++)).
    + by rewrite Hbuf, withNewlines_snoc.
    + by rewrite Htok, linesCount_snoc.
    + intros _. rewrite linesCount_snoc. lia.
    + by destruct cur.
    + intros g l Hg Hl. destruct cur as [|l0 cur].
      * rewrite (Hfirst eq_refl) in Hg. done.
      * by apply Hnext.
Qed.

Lemma lineLoop_packs ls seen st groups cur :
  Forall (λ line, count enc (line ++ nl) ≤ maxTokensPerChunk) ls →
  packInv' seen st groups cur →
  ∃ groups' cur',
    packInv' (seen ++ ls) (fold_left (lineStep enc maxTokensPerChunk) ls st)
      groups' cur'
    ∧ (cur ≠ [] ∨ ls ≠ [] → cur' ≠ []).
Proof.
  revert seen st groups cur.
  induction ls as [|l ls IH]; intros seen st groups cur Hls Hi.
  - exists groups, cur. rewrite (right_id_L [] (++)). split; [done|].
    by intros [?|?].
  - apply Forall_cons in Hls as [Hl Hls]. cbn [fold_left].
    destruct (lineStep_packs seen st groups cur l Hl Hi)
      as (groups1 & cur1 & H1 & Hne1).
    destruct (IH _ _ _ _ Hls H1) as (groups2 & cur2 & H2 & Hne2).
    exists groups2, cur2. rewrite <- (assoc_L (++)) in H2. split; [done|].
    intros _. apply Hne2. by left.
Qed.

Lemma splitWith_packs text :
  Forall (λ line, count enc (line ++ nl) ≤ maxTokensPerChunk)
    (Split text LF) →
  ∃ groups,
    splitWith enc text maxTokensPerChunk = map (λ g, Join g nl) groups
    ∧ concat groups = Split text LF
    ∧ packed' groups.
Proof.
  intros Hls. unfold splitWith.
  assert (packInv' [] initState [] []) as H0 by (by split).
  destruct (lineLoop_packs _ [] initState [] [] Hls H0)
    as (groups & cur & [Hseen Hchunks Hbuf Htok Hfits Hpacked Hfirst Hnext]
        & Hcur).
  specialize (Hcur (or_intror (Split_nonempty _ _))). cbn [app] in Hseen.
  exists (groups ++ [cur]). unfold finish.
  assert (nonEmpty (currentChunk (fold_left (lineStep enc maxTokensPerChunk)
                                    (Split text LF) initState)) = true)
    as ->.
  { apply nonEmpty_true. rewrite Hbuf. by intros ?%withNewlines_nil. }
  split; [|split].
  - rewrite map_app, Hchunks, Hbuf. cbn [map].
    by rewrite withNewlines_Join, TrimSuffix_app.
  - rewrite concat_app. cbn [concat]. by rewrite (right_id_L [] (++)).
  - apply packed_snoc; by auto.
Qed.

End packing.

(** X4. Greedy packing: when the tokenizer is available and no line of the
    text, counted with its newline, exceeds the budget, the chunks are the
    lines of the text, in order, in groups of consecutive lines joined with
    ["\n"]; no group is empty, the running count of each group is at most the
    budget, and a group is closed only when the next line would take its
    running count over the budget. *)
Theorem whole_lines_are_packed_greedily
    (tokenizer_Get : Encoding → Codec + error) (enc : Codec)
    (text : gostring) (maxTokensPerChunk : Z) :
  tokenizer_Get Cl100kBase = inl enc →
  Forall (λ line, count enc (line ++ nl) ≤ maxTokensPerChunk)
    (Split text LF) →
  ∃ groups,
    splitIntoTokenChunks tokenizer_Get text maxTokensPerChunk
    = (map (λ g, Join g nl) groups, None)
    ∧ concat groups = Split text LF
    ∧ packed enc maxTokensPerChunk groups.
Proof.
  intros Hget Hls. unfold splitIntoTokenChunks. rewrite Hget.
  destruct (splitWith_packs enc maxTokensPerChunk text Hls)
    as (groups & -> & ? & ?).
  by exists groups.
Qed.

Lemma whole_lines_are_packed_greedily_witness :
  ∃ groups,
    splitIntoTokenChunks byteTokenizer sampleText 10
    = (map (λ g, Join g nl) groups, None)
    ∧ concat groups = Split sampleText LF
    ∧ packed byteCodec 10 groups.
Proof.
  apply (whole_lines_are_packed_greedily byteTokenizer byteCodec sampleText
           10).
  - reflexivity.
  - vm_compute. repeat constructor; discriminate.
Defined.

(** ** The files of a chunk, and [processChunk] on its paths *)

(** X5. The files of a run have different paths: two chunks with the same
    chunk file are the same chunk, and so for the result files; no chunk
    file is a result file, of the same chunk or of another one; and no chunk
    file and no result file is the file of the combined results. *)
Theorem cache_files_are_distinct (filePath : gostring) (i j : Z) :
  (chunkFileName (chunkDirOf filePath) i
   = chunkFileName (chunkDirOf filePath) j → i = j)
  ∧ (resultFileName (chunkDirOf filePath) i
     = resultFileName (chunkDirOf filePath) j → i = j)
  ∧ chunkFileName (chunkDirOf filePath) i
    ≠ resultFileName (chunkDirOf filePath) i
  ∧ chunkFileName (chunkDirOf filePath) i
    ≠ resultFileName (chunkDirOf filePath) j
  ∧ chunkFileName (chunkDirOf filePath) i ≠ combinedFileName filePath
  ∧ resultFileName (chunkDirOf filePath) i ≠ combinedFileName filePath.
Proof.
  repeat split.
  - apply chunkFileName_inj.
  - apply resultFileName_inj.
  - apply chunk_ne_result.
  - apply chunk_ne_result.
  - apply chunk_ne_combined.
  - apply result_ne_combined.
Qed.

(** X6. A chunk that cannot be written is an error: when the chunk has no
    result file and its chunk file cannot be written, [processChunk] returns
    an empty result and the error "failed to write chunk <i+1>: <cause>",
    and the world is as before; in particular the client is not called. *)
Theorem chunk_write_failure_is_an_error (os : OS) (client : ChatGenerator)
    (model : Model) (i : Z) (chunkDir prompt chunk : gostring)
    (ctxDone : bool) (w : World) (werr : error) :
  files w !! resultFileName chunkDir i = None →
  writeFault os (chunkFileName chunkDir i) = Some werr →
  runProg os client i ctxDone (processChunk model i chunkDir prompt chunk) w
  = (([], Some (errWriteChunk i werr)), w)
  ∧ Error (errWriteChunk i werr)
    = lit "failed to write chunk " ++ Fmt.itoa (i + 1) ++ lit ": "
      ++ Error werr.
Proof.
  intros Hmiss Hw. split.
  - unfold processChunk. cbn [runProg]. unfold os_ReadFile. rewrite Hmiss.
    cbn [runProg]. unfold os_WriteFile. by rewrite Hw.
  - unfold errWriteChunk, Fmt.Errorf_w. cbn [Error].
    by rewrite <- !(assoc_L (++)).
Qed.

(** X7. A failed generation is an error: when the chunk has no result
    file, its chunk file has been written and the client returns an error,
    [processChunk] returns an empty result and the error "failed to generate
    chat completion for chunk <i+1>: <cause>"; the chunk file holds the
    chunk, there is still no result file, and the call is in the log. *)
Theorem generation_failure_is_an_error (os : OS) (client : ChatGenerator)
    (model : Model) (i : Z) (chunkDir prompt chunk : gostring)
    (ctxDone : bool) (w : World) (cause : error) :
  files w !! resultFileName chunkDir i = None →
  writeFault os (chunkFileName chunkDir i) = None →
  client (calls w) ctxDone (chunkParams model prompt chunk) = inr cause →
  ∃ w',
    runProg os client i ctxDone (processChunk model i chunkDir prompt chunk) w
    = (([], Some (errGenerate i cause)), w')
    ∧ Error (errGenerate i cause)
      = lit "failed to generate chat completion for chunk "
        ++ Fmt.itoa (i + 1) ++ lit ": " ++ Error cause
    ∧ files w' = <[chunkFileName chunkDir i := chunk]> (files w)
    ∧ files w' !! resultFileName chunkDir i = None
    ∧ calls w' = calls w ++ [{| call_index := i;
                                call_params := chunkParams model prompt chunk;
                                call_result := inr cause |}].
Proof.
  intros Hmiss Hw Hres.
  rewrite processChunk_generates by done. rewrite Hres.
  eexists. split; [done|]. cbn [files calls].
  split; [|split; [done|split; [|done]]].
  - unfold errGenerate, Fmt.Errorf_w. cbn [Error].
    by rewrite <- !(assoc_L (++)).
  - rewrite lookup_insert_ne; [done|apply chunk_ne_result].
Qed.

(** X8. What is generated is cached: when the chunk has no result file,
    both files can be written and the client answers with a content that is
    not empty, [processChunk] returns the content, leaves the chunk in the
    chunk file and the content in the result file, and makes one call; a
    later [processChunk] for the same index and directory, whatever its
    client, model, prompt and chunk, returns the same content from the result
    file and changes nothing. *)
Theorem generated_result_is_cached (os : OS) (client : ChatGenerator)
    (model : Model) (i : Z) (chunkDir prompt chunk : gostring)
    (ctxDone : bool) (w : World) (res : ChatCompletion) :
  files w !! resultFileName chunkDir i = None →
  writeFault os (chunkFileName chunkDir i) = None →
  writeFault os (resultFileName chunkDir i) = None →
  client (calls w) ctxDone (chunkParams model prompt chunk) = inl res →
  hasContent res = true →
  ∃ w',
    runProg os client i ctxDone (processChunk model i chunkDir prompt chunk) w
    = ((firstContent res, None), w')
    ∧ files w' = <[resultFileName chunkDir i := firstContent res]>
                   (<[chunkFileName chunkDir i := chunk]> (files w))
    ∧ calls w' = calls w ++ [{| call_index := i;
                                call_params := chunkParams model prompt chunk;
                                call_result := inl res |}]
    ∧ ∀ client' model' prompt' chunk' ctxDone',
        runProg os client' i ctxDone'
          (processChunk model' i chunkDir prompt' chunk') w'
        = ((firstContent res, None), w').
Proof.
  intros Hmiss Hwc Hwr Hres Hcontent.
  rewrite processChunk_generates by done. rewrite Hres, Hcontent.
  cbn [runProg]. unfold os_WriteFile. rewrite Hwr. cbn [files dirs calls].
  eexists. split; [done|]. cbn [files calls]. split; [done|]. split; [done|].
  intros client' model' prompt' chunk' ctxDone'.
  apply processChunk_cached. cbn [files]. by rewrite lookup_insert_eq.
Qed.

(** ** The document is none of the files that a run writes *)

Lemma Ext_txt y : Filepath.Ext (y ++ lit ".txt") = lit ".txt".
Proof. unfold Filepath.Ext. by rewrite rev_app_distr. Qed.

Lemma cleanSteps_names rooted out n k :
  simpleName n →
  fold_left (Filepath.cleanStep rooted) (replicate k n) out
  = replicate k n ++ out.
Proof.
  intros Hn. revert out. induction k as [|k IH]; intros out; [done|].
  cbn [replicate fold_left]. rewrite cleanStep_simple by done.
  rewrite IH. change (n :: out) with ([n] ++ out).
  rewrite (assoc_L (++)). f_equal.
  change (replicate k n ++ [n] = replicate (S k) n).
  by rewrite replicate_S_end.
Qed.

Lemma rev_replicate {A} k (x : A) : rev (replicate k x) = replicate k x.
Proof.
  induction k as [|k IH]; [done|]. cbn [replicate rev]. rewrite IH.
  change (replicate k x ++ [x] = replicate (S k) x).
  by rewrite replicate_S_end.
Qed.

(** The directories that [joinPrefix] writes for [k] elements [n]. *)
Lemma joinPrefix_names d n k pre :
  simpleName n → d ≠ [] →
  Split d Filepath.slash = pre ++ replicate k n →
  ∃ X, (X = [] ∨ ∃ X', X = X' ++ [Filepath.slash])
       ∧ joinPrefix d
         = X ++ concat (map (λ e, e ++ [Filepath.slash]) (replicate k n)).
Proof.
  intros Hn Hd Hs. destruct d as [|c d]; [done|]. unfold joinPrefix.
  rewrite Hs, fold_left_app, cleanSteps_names by done.
  set (out0 := fold_left _ pre []).
  rewrite rev_app_distr, rev_replicate, map_app, concat_app.
  eexists. split; [|by rewrite (assoc_L (++))].
  destruct (rev out0) as [|e l] using rev_ind.
  - cbn [map concat]. rewrite (right_id_L [] (++)).
    destruct (Ascii.eqb c Filepath.slash); [right; by exists []|by left].
  - right. rewrite map_app, concat_app. cbn [map concat].
    rewrite (right_id_L [] (++)). eexists.
    by rewrite !(assoc_L (++)).
Qed.

Lemma Split_names n k :
  (Filepath.slash ∉ n) →
  Split (concat (map (λ e, e ++ [Filepath.slash]) (replicate k n)) ++ n)
    Filepath.slash
  = replicate (S k) n.
Proof.
  intros Hn. induction k as [|k IH].
  - cbn. by apply Split_none.
  - cbn [replicate map concat]. rewrite <- !(assoc_L (++)).
    cbn [app]. rewrite Split_app_sep, IH. by rewrite Split_none.
Qed.

(** A directory is not a file inside itself. *)
Lemma dir_ne_file_inside d n : simpleName n → d ≠ joinPrefix d ++ n.
Proof.
  intros Hn Heq.
  assert (d ≠ []) as Hd.
  { intros ->. destruct Hn as (_ & Hne & _). by destruct n. }
  assert (∀ k, ∃ pre, Split d Filepath.slash = pre ++ replicate k n) as Hk.
  { induction k as [|k [pre IH]].
    - exists (Split d Filepath.slash). cbn [replicate].
      by rewrite (right_id_L [] (++)).
    - destruct (joinPrefix_names d n k pre Hn Hd IH) as (X & HX & HJ).
      rewrite Heq, HJ, <- (assoc_L (++)).
      destruct Hn as (Hs & _).
      destruct HX as [->|[X' ->]].
      + exists []. cbn [app]. by rewrite Split_names.
      + exists (Split X' Filepath.slash). rewrite <- (assoc_L (++)).
        cbn [app]. by rewrite Split_app_sep, Split_names. }
  destruct (Hk (S (length (Split d Filepath.slash)))) as [pre Hpre].
  apply (f_equal length) in Hpre.
  rewrite length_app, length_replicate in Hpre. lia.
Qed.

Lemma stem_simple pre i :
  pre ≠ [] → (Filepath.slash ∉ pre) → head pre ≠ Some "."%char →
  simpleName (pre ++ Fmt.itoa i).
Proof.
  intros Hne Hs Hd. split.
  - rewrite not_elem_of_app. split; [done|].
    apply isDigit_not_slash, itoa_digits.
  - destruct pre as [|c pre]; [done|]. cbn in Hd.
    repeat split; [done|..]; intros [= -> _]; by destruct Hd.
Qed.

Lemma document_ne_name filePath pre i :
  pre ≠ [] → (Filepath.slash ∉ pre) → head pre ≠ Some "."%char →
  filePath
  ≠ joinPrefix (chunkDirOf filePath) ++ pre ++ Fmt.itoa i ++ lit ".txt".
Proof.
  intros Hne Hs Hd H.
  remember (chunkDirOf filePath) as cd eqn:Hcd.
  rewrite H in Hcd. unfold chunkDirOf in Hcd.
  rewrite !(assoc_L (++)) in Hcd. rewrite Ext_txt, TrimSuffix_app in Hcd.
  rewrite <- (assoc_L (++)) in Hcd.
  revert Hcd. apply dir_ne_file_inside. by apply stem_simple.
Qed.

Lemma document_ne_chunk filePath i :
  filePath ≠ chunkFileName (chunkDirOf filePath) i.
Proof.
  rewrite chunkFileName_eq. unfold chunkName.
  apply document_ne_name; [done|compute_done|done].
Qed.

Lemma document_ne_result filePath i :
  filePath ≠ resultFileName (chunkDirOf filePath) i.
Proof.
  rewrite resultFileName_eq. unfold resultName.
  apply document_ne_name; [done|compute_done|done].
Qed.

Lemma document_ne_combined filePath : filePath ≠ combinedFileName filePath.
Proof.
  unfold combinedFileName. intros H.
  remember (TrimSuffix filePath (Filepath.Ext filePath)) as cd eqn:Hcd.
  rewrite H in Hcd.
  change (lit ".combined_results.txt")
    with (lit ".combined_results" ++ lit ".txt") in Hcd.
  rewrite !(assoc_L (++)) in Hcd. rewrite Ext_txt, TrimSuffix_app in Hcd.
  apply (f_equal length) in Hcd. rewrite length_app in Hcd. cbn in Hcd. lia.
Qed.

(** ** What a run leaves in place *)

Lemma extends_refl w : extends w w.
Proof. by split. Qed.

Lemma extends_trans w1 w2 w3 : extends w1 w2 → extends w2 w3 → extends w1 w3.
Proof. intros [H1 D1] [H2 D2]. split; [by auto|set_solver]. Qed.

Lemma os_WriteFile_extends os w name data :
  extends w (os_WriteFile os w name data).2.
Proof.
  unfold os_WriteFile. destruct (writeFault os name); [apply extends_refl|].
  split; [|done]. cbn [snd files]. intros p Hp.
  destruct (decide (p = name)) as [->|Hne].
  - by rewrite lookup_insert_eq.
  - by rewrite lookup_insert_ne.
Qed.

Lemma os_MkdirAll_extends os w path : extends w (os_MkdirAll os w path).2.
Proof.
  unfold os_MkdirAll. destruct (mkdirFault os path); [apply extends_refl|].
  split; [done|]. cbn. set_solver.
Qed.

Section growth.
Context (os : OS) (client : ChatGenerator).

Lemma runProg_extends {R} index cancelled (p : Prog R) w :
  extends w (runProg os client index cancelled p w).2.
Proof.
  revert w. induction p as [r|name k IH|name data k IH|params k IH]; intros w;
    cbn [runProg].
  - apply extends_refl.
  - apply IH.
  - pose proof (os_WriteFile_extends os w name data) as Hw.
    destruct (os_WriteFile os w name data) as [e w1].
    eapply extends_trans; [exact Hw|apply IH].
  - eapply extends_trans; [|apply IH]. by split.
Qed.

Lemma stepProg_extends {R} index cancelled (p : Prog R) w :
  extends w (stepProg os client index cancelled p w).2.
Proof.
  destruct p as [r|name k|name data k|params k]; cbn [stepProg];
    try apply extends_refl.
  - pose proof (os_WriteFile_extends os w name data) as Hw.
    by destruct (os_WriteFile os w name data) as [e w1].
  - by split.
Qed.

Lemma stepTask_extends g w i : extends w (stepTask os client (g, w) i).2.
Proof.
  unfold stepTask. destruct (tasks g !! i) as [[p|r]|]; try apply extends_refl.
  pose proof (stepProg_extends (Z.of_nat i) (cancelled g) p w) as Hp.
  destruct p; try apply extends_refl;
    by destruct (stepProg _ _ _ _ _ _) as [p' w'].
Qed.

Lemma finishTask_extends g w i : extends w (finishTask os client (g, w) i).2.
Proof.
  unfold finishTask.
  destruct (tasks g !! i) as [[p|r]|]; try apply extends_refl.
  pose proof (runProg_extends (Z.of_nat i) (cancelled g) p w) as Hp.
  by destruct (runProg _ _ _ _ _ _) as [r w'].
Qed.

Lemma fold_extends (f : Group * World → nat → Group * World) l gw :
  (∀ g w i, extends w (f (g, w) i).2) → extends gw.2 (fold_left f l gw).2.
Proof.
  intros Hf. revert gw. induction l as [|i l IH]; intros [g w];
    [apply extends_refl|].
  cbn [fold_left]. eapply extends_trans; [apply (Hf g w i)|].
  destruct (f (g, w) i) as [g1 w1]. apply IH.
Qed.

Lemma dispatch_extends sched g w : extends w (dispatch os client sched g w).2.
Proof.
  unfold dispatch.
  eapply extends_trans; [|apply fold_extends, finishTask_extends].
  apply (fold_extends (stepTask os client) sched (g, w)), stepTask_extends.
Qed.

End growth.

Lemma withDir_extends w d : extends w (withDir w d).
Proof. split; [done|]. cbn. set_solver. Qed.

Section runs.
Context (tokenizer_Get : Encoding → Codec + error) (os : OS)
  (sched : list nat) (client : ChatGenerator) (model : Model)
  (prompt filePath : gostring) (requireConfirmation : bool)
  (response : gostring).

Local Abbreviation cd := (chunkDirOf filePath).
Local Abbreviation run :=
  (ProcessWithClient tokenizer_Get os sched client model prompt filePath
     requireConfirmation response).

Lemma fromDispatch_extends chunks w :
  extends w (fromDispatch os client model prompt filePath sched chunks w).2.
Proof.
  unfold fromDispatch.
  pose proof (dispatch_extends os client sched
                (spawn model cd (fullPrompt prompt) chunks) w) as Hd.
  destruct (dispatch _ _ _ _ _) as [g w2]. cbn [fst snd] in *.
  destruct (err g); [done|].
  pose proof (os_WriteFile_extends os w2 (combinedFileName filePath)
                (concat (results g))) as Hw.
  destruct (os_WriteFile _ _ _ _) as [[e|] w3];
    by eapply extends_trans.
Qed.

Lemma fromDispatch_frame chunks w p :
  (∀ i : nat, p ≠ cp cd i ∧ p ≠ rp cd i) → p ≠ combinedFileName filePath →
  files (fromDispatch os client model prompt filePath sched chunks w).2 !! p
  = files w !! p.
Proof.
  intros Hp Hc. unfold fromDispatch.
  pose proof (after_frame os client model cd (fullPrompt prompt) chunks w
                sched p Hp) as Hf.
  destruct (dispatch _ _ _ _ _) as [g w2]. cbn [fst snd] in *.
  destruct (err g); [done|].
  unfold os_WriteFile. destruct (writeFault os _); [done|].
  cbn [snd files]. by rewrite lookup_insert_ne.
Qed.

Lemma fromDispatch_dirs chunks w :
  dirs (fromDispatch os client model prompt filePath sched chunks w).2
  = dirs w.
Proof.
  unfold fromDispatch.
  destruct (dispatch_final os client model cd (fullPrompt prompt) chunks w
              sched) as (rs & _ & HI).
  apply inv_dirs in HI.
  destruct (dispatch _ _ _ _ _) as [g w2]. cbn [fst snd] in *.
  destruct (err g); [done|].
  unfold os_WriteFile. by destruct (writeFault os _).
Qed.

Lemma fromDispatch_pre chunks w (k : nat) x :
  files w !! rp cd k = Some x →
  files (fromDispatch os client model prompt filePath sched chunks w).2
    !! rp cd k = Some x.
Proof.
  intros Hx. unfold fromDispatch.
  pose proof (after_pre os client model cd (fullPrompt prompt) chunks w
                sched k x Hx) as Hf.
  destruct (dispatch _ _ _ _ _) as [g w2]. cbn [fst snd] in *.
  destruct (err g); [done|].
  unfold os_WriteFile. destruct (writeFault os _); [done|].
  cbn [snd files]. rewrite lookup_insert_ne; [done|].
  apply combined_ne_files.
Qed.

End runs.

(** X9. A run changes only its own files: whatever it returns,
    [ProcessWithClient] leaves every file as it was, except the chunk files
    and result files in the chunk directory and the file of the combined
    results; the document itself is never changed; and no directory is
    created but the chunk directory. *)
Theorem run_changes_only_its_own_files
    (tokenizer_Get : Encoding → Codec + error) (os : OS) (sched : list nat)
    (client : ChatGenerator) (model : Model) (prompt filePath : gostring)
    (requireConfirmation : bool) (response : gostring) (w : World) :
  let w' := (ProcessWithClient tokenizer_Get os sched client model prompt
               filePath requireConfirmation response w).2 in
  (∀ p,
     (∀ i : nat, p ≠ chunkFileName (chunkDirOf filePath) (Z.of_nat i)
                 ∧ p ≠ resultFileName (chunkDirOf filePath) (Z.of_nat i)) →
     p ≠ combinedFileName filePath →
     files w' !! p = files w !! p)
  ∧ files w' !! filePath = files w !! filePath
  ∧ (dirs w' = dirs w ∨ dirs w' = {[chunkDirOf filePath]} ∪ dirs w).
Proof.
  intros w'. subst w'.
  destruct (ProcessWithClient _ _ _ _ _ _ _ _ _ w) as [ret w'] eqn:Hrun.
  cbn [snd].
  assert (∀ p,
     (∀ i : nat, p ≠ chunkFileName (chunkDirOf filePath) (Z.of_nat i)
                 ∧ p ≠ resultFileName (chunkDirOf filePath) (Z.of_nat i)) →
     p ≠ combinedFileName filePath →
     files w' !! p = files w !! p) as Hframe.
  { intros p Hp Hc.
    apply ProcessWithClient_cases in Hrun
      as [[-> _]|(text & enc & _ & _ & _ & _ & Hrun)]; [done|].
    apply (f_equal snd) in Hrun. cbn [snd] in Hrun. rewrite <- Hrun.
    by rewrite fromDispatch_frame. }
  split; [done|]. split.
  - apply Hframe.
    + intros i. split; [apply document_ne_chunk|apply document_ne_result].
    + apply document_ne_combined.
  - apply ProcessWithClient_cases in Hrun
      as [[-> _]|(text & enc & _ & _ & _ & _ & Hrun)]; [by left|].
    apply (f_equal snd) in Hrun. cbn [snd] in Hrun. rewrite <- Hrun.
    right. by rewrite fromDispatch_dirs.
Qed.

(** X10. A run deletes nothing: whatever it returns, every file and every
    directory that existed before [ProcessWithClient] exists after it, and
    every result file that existed before has the same content after it. *)
Theorem run_deletes_nothing
    (tokenizer_Get : Encoding → Codec + error) (os : OS) (sched : list nat)
    (client : ChatGenerator) (model : Model) (prompt filePath : gostring)
    (requireConfirmation : bool) (response : gostring) (w : World) :
  let w' := (ProcessWithClient tokenizer_Get os sched client model prompt
               filePath requireConfirmation response w).2 in
  (∀ p, is_Some (files w !! p) → is_Some (files w' !! p))
  ∧ dirs w ⊆ dirs w'
  ∧ (∀ (k : nat) x,
       files w !! resultFileName (chunkDirOf filePath) (Z.of_nat k) = Some x →
       files w' !! resultFileName (chunkDirOf filePath) (Z.of_nat k) = Some x).
Proof.
  intros w'. subst w'.
  destruct (ProcessWithClient _ _ _ _ _ _ _ _ _ w) as [ret w'] eqn:Hrun.
  cbn [snd].
  apply ProcessWithClient_cases in Hrun
    as [[-> _]|(text & enc & _ & _ & _ & _ & Hrun)]; [done|].
  apply (f_equal snd) in Hrun. cbn [snd] in Hrun. rewrite <- Hrun.
  pose proof (fromDispatch_extends os sched client model prompt filePath
                (splitWith enc text 2000) (withDir w (chunkDirOf filePath)))
    as [Hf Hd].
  split; [|split].
  - intros p Hp. by apply Hf.
  - etrans; [|exact Hd]. cbn. set_solver.
  - intros k x Hx. by apply fromDispatch_pre.
Qed.

(** ** The calls of the goroutines *)

Lemma prog_of_inj model chunkDir prompt i c s1 s2 :
  prog_of model chunkDir prompt i c s1 = prog_of model chunkDir prompt i c s2 →
  s1 = s2.
Proof.
  unfold prog_of, processChunk, pMiss, pWritten, pStore.
  destruct s1, s2; intros H; try done; try (by injection H as ->).
  - injection H as H _ _. by destruct (chunk_ne_result chunkDir i i).
  - injection H as H _ _. by destruct (chunk_ne_result chunkDir i i).
Qed.

Section stage_steps.
Context (os : OS) (client : ChatGenerator) (model : Model)
  (chunkDir prompt : gostring) (chunks : list gostring) (w0 : World).

Local Abbreviation Inv' := (Inv os model chunkDir prompt chunks w0).
Local Abbreviation CallInv' := (CallInv model chunkDir prompt chunks w0).
Local Abbreviation prog := (prog_of model chunkDir prompt).
Local Abbreviation next := (stageStep os client model chunkDir prompt).

Lemma stepTask_stage g w (i : nat) c s :
  tasks g !! i = Some (prog (Z.of_nat i) c s) →
  (stepTask os client (g, w) i).2 = (next i c (cancelled g) s w).2
  ∧ tasks (stepTask os client (g, w) i).1 !! i
    = Some (prog (Z.of_nat i) c (next i c (cancelled g) s w).1)
  ∧ ∀ k, k ≠ i → tasks (stepTask os client (g, w) i).1 !! k = tasks g !! k.
Proof.
  intros Ht. pose proof (lookup_lt_Some _ _ _ Ht) as Hi.
  destruct s as [| | |ct|r|r]; cbn [prog_of] in Ht.
  - rewrite (stepTask_running os client _ _ _ _ Ht). unfold processChunk.
    cbn [stepProg stageStep fst snd tasks]. unfold os_ReadFile.
    fold (rp chunkDir i).
    split; [done|]. split; [|by intros k ?; rewrite list_lookup_insert_ne].
    rewrite list_lookup_insert_eq by done.
    by destruct (files w !! rp chunkDir i).
  - rewrite (stepTask_running os client _ _ _ _ Ht). unfold pMiss.
    cbn [stepProg stageStep]. unfold os_WriteFile. fold (cp chunkDir i).
    destruct (writeFault os (cp chunkDir i)); cbn [fst snd tasks];
      (split; [done|]; split; [|by intros k ?; rewrite list_lookup_insert_ne]);
      by rewrite list_lookup_insert_eq.
  - rewrite (stepTask_running os client _ _ _ _ Ht). unfold pWritten.
    cbn [stepProg stageStep fst snd tasks].
    split; [done|]. split; [|by intros k ?; rewrite list_lookup_insert_ne].
    rewrite list_lookup_insert_eq by done.
    destruct (client _ _ _) as [res|x]; cbn [pGenerated]; [|done].
    by destruct (hasContent res).
  - rewrite (stepTask_running os client _ _ _ _ Ht). unfold pStore.
    cbn [stepProg stageStep]. fold (rp chunkDir i).
    destruct (os_WriteFile os w (rp chunkDir i) ct) as [e w'].
    cbn [fst snd tasks].
    split; [done|]. split; [|by intros k ?; rewrite list_lookup_insert_ne].
    by rewrite list_lookup_insert_eq.
  - rewrite (stepTask_running os client _ _ _ _ Ht). cbn [stageStep fst snd].
    split; [done|].
    destruct r as [x [e|]]; cbn [returnTask tasks];
      (split; [|by intros k ?; rewrite list_lookup_insert_ne]);
      by rewrite list_lookup_insert_eq.
  - rewrite stepTask_idle; [done|]. intros p. by rewrite Ht.
Qed.

Lemma callInv_step g w g' w' i c s' extra :
  calls w = calls w0 ++ newCalls w0 w →
  CallInv' g w → chunks !! i = Some c →
  tasks g' !! i = Some (prog (Z.of_nat i) c s') →
  (∀ k, k ≠ i → tasks g' !! k = tasks g !! k) →
  (∀ k, k ≠ i → files w' !! cp chunkDir k = files w !! cp chunkDir k) →
  calls w' = calls w ++ extra →
  (extra = [] ∨ ∃ r, extra = [mkCall model prompt i c r] ∧ noCall w0 i w) →
  (∀ e, e ∈ newCalls w0 w' → call_index e = Z.of_nat i →
     files w' !! cp chunkDir i = Some c) →
  (s' = TWritten → files w' !! cp chunkDir i = Some c) →
  (∀ r, s' = TGot r ∨ s' = TRet (r, None) ∨ s' = TDone (r, None) →
     files w0 !! rp chunkDir i = None →
     ∃ res, mkCall model prompt i c (inl res) ∈ newCalls w0 w'
            ∧ hasContent res = true ∧ r = firstContent res) →
  CallInv' g' w'.
Proof.
  intros Hcalls [Honce Hchunk Hwritten Hsource] Hc Hi Hother Hfiles Hcalls'
    Hextra Hsent Hw Hsrc.
  destruct (newCalls_app w0 w w' extra Hcalls Hcalls') as [Hnew _].
  split.
  - rewrite Hnew, fmap_app. apply NoDup_app. split; [done|].
    destruct Hextra as [->|(r & -> & Hno)]; [split; [|constructor]|].
    { by intros x _ ?%elem_of_nil. }
    split; [|by apply NoDup_singleton].
    intros x (e & -> & He)%list_elem_of_fmap.
    cbn. intros Hx%list_elem_of_singleton. by destruct (Hno e He).
  - intros e He. pose proof He as He'.
    rewrite Hnew in He. apply elem_of_app in He as [He|He].
    + destruct (Hchunk e He) as (k & ck & Hk & Hidx & Hf).
      exists k, ck. split; [done|]. split; [done|].
      destruct (decide (k = i)) as [->|Hne]; [|by rewrite Hfiles].
      replace ck with c by congruence. by apply (Hsent e).
    + destruct Hextra as [->|(r & -> & _)]; [by apply elem_of_nil in He|].
      apply list_elem_of_singleton in He. subst e.
      exists i, c. split; [done|]. split; [done|]. by apply (Hsent _ He').
  - intros k ck Hk Ht. destruct (decide (k = i)) as [->|Hne].
    + replace ck with c in * by congruence. apply Hw.
      apply (prog_of_inj model chunkDir prompt (Z.of_nat i) c). congruence.
    + rewrite Hfiles by done. apply Hwritten; [done|]. by rewrite <- Hother.
  - intros k ck s r Hk Ht Hs Hnone. destruct (decide (k = i)) as [->|Hne].
    + replace ck with c in * by congruence.
      assert (s' = s) as ->; [|by apply Hsrc].
      apply (prog_of_inj model chunkDir prompt (Z.of_nat i) c). congruence.
    + rewrite Hother in Ht by done.
      destruct (Hsource k ck s r Hk Ht Hs Hnone) as (res & He & ?).
      exists res. split; [|done]. rewrite Hnew. apply elem_of_app. by left.
Qed.

End stage_steps.

Section calls.
Context (os : OS) (client : ChatGenerator) (model : Model)
  (chunkDir prompt : gostring) (chunks : list gostring) (w0 : World).

Local Abbreviation Inv' := (Inv os model chunkDir prompt chunks w0).
Local Abbreviation CallInv' := (CallInv model chunkDir prompt chunks w0).
Local Abbreviation prog := (prog_of model chunkDir prompt).
Local Abbreviation next := (stageStep os client model chunkDir prompt).
Local Abbreviation g0 := (spawn model chunkDir prompt chunks).

Lemma cp_inj i j : cp chunkDir i = cp chunkDir j → i = j.
Proof. intros H%chunkFileName_inj. lia. Qed.

Lemma call_index_inj (i k : nat) c r e :
  e = mkCall model prompt k c r → call_index e = Z.of_nat i → k = i.
Proof. intros -> H. cbn in H. lia. Qed.

Lemma stepTask_callInv ss g w i :
  Inv' ss g w → CallInv' g w →
  CallInv' (stepTask os client (g, w) i).1 (stepTask os client (g, w) i).2.
Proof.
  intros HI HC. pose proof HI as
    [Hlen Htasks Hres Hcalls Hst Hent Hframe Hdirs Hpre Herr].
  destruct (ss !! i) as [s|] eqn:Hs.
  2:{ rewrite stepTask_idle; [done|]. intros p.
      rewrite Htasks, list_lookup_imap.
      apply lookup_ge_None in Hs.
      rewrite (proj2 (lookup_ge_None _ _)); [done|].
      rewrite length_zip_with. lia. }
  destruct (chunks !! i) as [c|] eqn:Hc.
  2:{ apply lookup_ge_None in Hc. apply lookup_lt_Some in Hs. lia. }
  pose proof (tasks_lookup model chunkDir prompt chunks ss i c s Hc Hs) as Ht.
  rewrite <- Htasks in Ht. specialize (Hst i c s Hc Hs).
  destruct (stepTask_stage os client model chunkDir prompt g w i c s Ht)
    as (Hw' & Hi & Hother).
  destruct (stepTask os client (g, w) i) as [g' w']. cbn [fst snd] in *.
  pose proof HC as [Honce Hchunk Hwritten Hsource].
  assert (∀ e, e ∈ newCalls w0 w → call_index e = Z.of_nat i →
            files w !! cp chunkDir i = Some c) as Hsent.
  { intros e He Hidx. destruct (Hchunk e He) as (k & ck & Hk & Hidx' & Hf).
    assert (k = i) as -> by lia. congruence. }
  destruct s as [| | |ct|r|r]; cbn [stageStep fst snd StInv] in *.
  - (* the cache lookup *)
    destruct Hst as [Hno Hsame]. subst w'.
    apply (callInv_step model chunkDir prompt chunks w0 g w g' w i c _ []
             Hcalls HC Hc Hi Hother); [done| |by left|done| |].
    + by rewrite (right_id_L [] (++)).
    + by destruct (files w !! rp chunkDir i).
    + intros r Hr Hnone. rewrite <- Hsame in *. rewrite Hnone in Hr.
      by destruct Hr as [?|[?|?]].
  - (* the chunk is written *)
    destruct Hst as (Hno & Hnone & Hnone0).
    destruct (writeFault os (cp chunkDir i)) as [x|]; cbn [fst snd] in *;
      subst w'.
    + apply (callInv_step model chunkDir prompt chunks w0 g w g' w i c _ []
               Hcalls HC Hc Hi Hother); [done| |by left|done|done|].
      * by rewrite (right_id_L [] (++)).
      * by intros r [?|[?|?]].
    + apply (callInv_step model chunkDir prompt chunks w0 g w g' _ i c _ []
               Hcalls HC Hc Hi Hother); cbn [files calls].
      * intros k Hk. rewrite lookup_insert_ne; [done|]. by intros ?%cp_inj.
      * by rewrite (right_id_L [] (++)).
      * by left.
      * intros. by rewrite lookup_insert_eq.
      * intros. by rewrite lookup_insert_eq.
      * by intros r [?|[?|?]].
  - (* the client is called *)
    destruct Hst as (Hno & Hnone & Hnone0). subst w'.
    pose proof (Hwritten i c Hc Ht) as Hfile.
    apply (callInv_step model chunkDir prompt chunks w0 g w g' _ i c _
             [mkCall model prompt i c
                (client (calls w) (cancelled g) (chunkParams model prompt c))]
             Hcalls HC Hc Hi Hother); cbn [files calls];
      [done|done|right; by eauto|done| |].
    + by destruct (client _ _ _) as [res|x]; [destruct (hasContent res)|].
    + intros r Hr _.
      destruct (client _ _ _) as [res|x] eqn:Hcall;
        [destruct (hasContent res) eqn:Hcontent|];
        destruct Hr as [Hr|[Hr|Hr]]; try done.
      injection Hr as <-. exists res. split; [|done]. by apply call_made.
  - (* the result is cached *)
    destruct Hst as (Hnone & Hnone0). subst w'.
    assert (∀ p, p ≠ rp chunkDir i →
              files (os_WriteFile os w (rp chunkDir i) ct).2 !! p
              = files w !! p) as Hsame.
    { intros p Hp. unfold os_WriteFile. destruct (writeFault os _); [done|].
      cbn [snd files]. by rewrite lookup_insert_ne. }
    apply (callInv_step model chunkDir prompt chunks w0 g w g' _ i c _ []
             Hcalls HC Hc Hi Hother).
    + intros k _. apply Hsame. apply cp_ne_rp.
    + by rewrite os_WriteFile_calls, (right_id_L [] (++)).
    + by left.
    + intros e He Hidx. rewrite Hsame by apply cp_ne_rp.
      apply (Hsent e); [|done]. unfold newCalls in *.
      by rewrite os_WriteFile_calls in He.
    + done.
    + intros r Hr Hn. assert (r = ct) as ->.
      { by destruct Hr as [?|[[= ->]|?]]. }
      destruct (Hsource i c (TGot ct) ct Hc Ht) as (res & He & ?);
        [by left|done|].
      exists res. split; [|done]. unfold newCalls in *.
      by rewrite os_WriteFile_calls.
  - (* the goroutine returns *)
    subst w'.
    apply (callInv_step model chunkDir prompt chunks w0 g w g' w i c _ []
             Hcalls HC Hc Hi Hother); [done| |by left|done|done|].
    + by rewrite (right_id_L [] (++)).
    + intros x Hx Hn. assert (r = (x, None)) as ->.
      { by destruct Hx as [?|[?|[= ->]]]. }
      apply (Hsource i c (TRet (x, None)) x Hc Ht); by auto.
  - (* the goroutine has returned *)
    subst w'.
    apply (callInv_step model chunkDir prompt chunks w0 g w g' w i c _ []
             Hcalls HC Hc Hi Hother); [done| |by left|done|done|].
    + by rewrite (right_id_L [] (++)).
    + intros x Hx Hn. by apply (Hsource i c (TDone r) x Hc Ht).
Qed.

Lemma spawn_callInv : CallInv' g0 w0.
Proof.
  assert (∀ i c s, chunks !! i = Some c →
            tasks g0 !! i = Some (prog (Z.of_nat i) c s) → s = TStart) as Hs.
  { intros i c s Hc Ht. cbn [spawn tasks] in Ht.
    rewrite list_lookup_imap, Hc in Ht. cbn in Ht.
    apply (prog_of_inj model chunkDir prompt (Z.of_nat i) c).
    by injection Ht as <-. }
  split.
  - rewrite newCalls_start. constructor.
  - intros e. rewrite newCalls_start. by intros ?%elem_of_nil.
  - intros i c Hc Ht. by specialize (Hs i c _ Hc Ht).
  - intros i c s r Hc Ht Hr. specialize (Hs i c _ Hc Ht). subst s.
    by destruct Hr as [?|[?|?]].
Qed.

Lemma steps_callInv sched ss g w :
  Inv' ss g w → CallInv' g w →
  CallInv' (fold_left (stepTask os client) sched (g, w)).1
           (fold_left (stepTask os client) sched (g, w)).2.
Proof.
  revert ss g w. induction sched as [|i l IH]; intros ss g w HI HC; [done|].
  cbn [fold_left].
  destruct (stepTask_inv os client model chunkDir prompt chunks w0
              ss g w i HI) as [ss1 H1].
  pose proof (stepTask_callInv ss g w i HI HC) as H2.
  destruct (stepTask os client (g, w) i) as [g1 w1]. by apply (IH ss1).
Qed.

Lemma dispatch_callInv sched :
  CallInv' (dispatch os client sched g0 w0).1
           (dispatch os client sched g0 w0).2.
Proof.
  destruct (dispatch_steps os client sched g0 w0) as [rest ->].
  apply (steps_callInv _ (replicate (length chunks) TStart)).
  - apply spawn_inv.
  - apply spawn_callInv.
Qed.

End calls.

Section log.
Context (os : OS) (client : ChatGenerator) (model : Model)
  (chunkDir prompt : gostring) (chunks : list gostring) (w0 : World)
  (sched : list nat).

Local Abbreviation gw :=
  (dispatch os client sched (spawn model chunkDir prompt chunks) w0).

(** Every call is the call of a chunk that had no result file, and the text
    of the chunk is in its chunk file. *)
Lemma after_call e :
  e ∈ newCalls w0 gw.2 →
  ∃ (i : nat) c, chunks !! i = Some c
    ∧ e = mkCall model prompt i c (call_result e)
    ∧ files w0 !! rp chunkDir i = None
    ∧ files gw.2 !! cp chunkDir i = Some c.
Proof.
  intros He.
  destruct (dispatch_final os client model chunkDir prompt chunks w0 sched)
    as (rs & Hlen & HI).
  pose proof (dispatch_callInv os client model chunkDir prompt chunks w0 sched)
    as HC.
  destruct (inv_entries _ _ _ _ _ _ _ _ _ HI e He)
    as (i & c & s & Hc & Hs & Hmk & Hm).
  exists i, c. split; [done|]. split; [done|]. split.
  - pose proof (inv_st _ _ _ _ _ _ _ _ _ HI i c s Hc Hs) as Hst.
    apply list_lookup_fmap_Some in Hs as ([r [x|]] & -> & Hr);
      cbn [StInv] in Hst.
    + by destruct Hst as (_ & ? & _).
    + destruct Hst as [[[_ Hno]|[? _]] _]; [|done].
      destruct (Hno e He). by rewrite Hmk.
  - destruct (ci_chunk _ _ _ _ _ _ _ HC e He) as (k & ck & Hk & Hidx & Hf).
    rewrite Hmk in Hidx. cbn in Hidx. assert (k = i) as -> by lia.
    congruence.
Qed.

(** The result of a chunk without result file is the content of the answer
    to its call. *)
Lemma after_generated i c r :
  chunks !! i = Some c → results gw.1 !! i = Some r → err gw.1 = None →
  files w0 !! rp chunkDir i = None →
  ∃ res, mkCall model prompt i c (inl res) ∈ newCalls w0 gw.2
         ∧ hasContent res = true ∧ r = firstContent res.
Proof.
  intros Hc Hr Herr Hnone.
  destruct (dispatch_final os client model chunkDir prompt chunks w0 sched)
    as (rs & Hlen & HI).
  pose proof (dispatch_callInv os client model chunkDir prompt chunks w0 sched)
    as HC.
  destruct (done_lookup chunks rs i c Hlen Hc) as [[r' [x|]] Hs].
  - pose proof (inv_st _ _ _ _ _ _ _ _ _ HI i c _ Hc Hs) as Hst.
    cbn [StInv] in Hst. destruct Hst as (_ & _ & _ & Hsome).
    rewrite Herr in Hsome. by destruct Hsome.
  - pose proof (inv_st _ _ _ _ _ _ _ _ _ HI i c _ Hc Hs) as Hst.
    cbn [StInv] in Hst. destruct Hst as [_ Hr'].
    assert (r' = r) as -> by congruence.
    apply (ci_source _ _ _ _ _ _ _ HC i c (TDone (r, None)) r Hc);
      [|by auto|done].
    rewrite (inv_tasks _ _ _ _ _ _ _ _ _ HI).
    by apply tasks_lookup.
Qed.

Lemma after_once : NoDup (call_index <$> newCalls w0 gw.2).
Proof.
  apply (ci_once _ _ _ _ _ _ _
           (dispatch_callInv os client model chunkDir prompt chunks w0 sched)).
Qed.

End log.

(** ** The calls and the results of a run *)

Lemma fromDispatch_calls os client model prompt filePath sched chunks w :
  let gw := dispatch os client sched
              (spawn model (chunkDirOf filePath) (fullPrompt prompt) chunks)
              w in
  calls (fromDispatch os client model prompt filePath sched chunks w).2
  = calls gw.2.
Proof.
  intros gw. unfold fromDispatch. fold gw. destruct (err gw.1); [done|].
  pose proof (os_WriteFile_calls os gw.2 (combinedFileName filePath)
                (concat (results gw.1))) as Hc.
  by destruct (os_WriteFile _ _ _ _) as [[e|] w3].
Qed.

Lemma fromDispatch_chunk os client model prompt filePath sched chunks w i :
  let gw := dispatch os client sched
              (spawn model (chunkDirOf filePath) (fullPrompt prompt) chunks)
              w in
  files (fromDispatch os client model prompt filePath sched chunks w).2
    !! chunkFileName (chunkDirOf filePath) (Z.of_nat i)
  = files gw.2 !! chunkFileName (chunkDirOf filePath) (Z.of_nat i).
Proof.
  intros gw. unfold fromDispatch. fold gw. destruct (err gw.1); [done|].
  unfold os_WriteFile. destruct (writeFault os _); [done|].
  cbn [snd files]. rewrite lookup_insert_ne; [done|].
  apply (combined_ne_files filePath i).
Qed.

(** X11. Which calls a run makes: whatever [ProcessWithClient] returns and
    whatever the interleaving, it calls the client at most once per chunk;
    every call is for a chunk of the document that had no result file when
    the run started, its request holds the prompt with the instruction
    appended as the system message and the chunk as the user message, and
    the chunk is in its chunk file after the run. *)
Theorem calls_are_for_uncached_chunks
    (tokenizer_Get : Encoding → Codec + error) (os : OS) (sched : list nat)
    (client : ChatGenerator) (model : Model) (prompt filePath : gostring)
    (requireConfirmation : bool) (response : gostring) (w w' : World)
    (ret : option error) (text : gostring) (enc : Codec) :
  ProcessWithClient tokenizer_Get os sched client model prompt filePath
    requireConfirmation response w = (ret, w') →
  files w !! filePath = Some text →
  tokenizer_Get Cl100kBase = inl enc →
  NoDup (call_index <$> callsOf w w')
  ∧ ∀ e, e ∈ callsOf w w' →
      ∃ (i : nat) chunk,
        splitWith enc text 2000 !! i = Some chunk
        ∧ call_index e = Z.of_nat i
        ∧ call_params e = chunkParams model (fullPrompt prompt) chunk
        ∧ files w !! resultFileName (chunkDirOf filePath) (Z.of_nat i) = None
        ∧ files w' !! chunkFileName (chunkDirOf filePath) (Z.of_nat i)
          = Some chunk.
Proof.
  intros Hrun Hfile Hget. unfold callsOf.
  apply ProcessWithClient_cases in Hrun
    as [[-> _]|(text' & enc' & Hfile' & Hget' & _ & _ & Hrun)].
  { rewrite drop_all. split; [constructor|]. by intros e ?%elem_of_nil. }
  replace text' with text in * by congruence.
  replace enc' with enc in * by congruence.
  apply (f_equal snd) in Hrun. cbn [snd] in Hrun. subst w'.
  set (chunks := splitWith enc text 2000).
  set (w1 := withDir w (chunkDirOf filePath)).
  rewrite fromDispatch_calls. fold chunks w1.
  change (drop (length (calls w)) (calls ?x)) with (newCalls w1 x).
  split.
  - apply (after_once os client model (chunkDirOf filePath)
             (fullPrompt prompt) chunks w1 sched).
  - intros e He.
    destruct (after_call os client model (chunkDirOf filePath)
                (fullPrompt prompt) chunks w1 sched e He)
      as (i & c & Hc & Hmk & Hnone & Hcp).
    exists i, c. split; [done|]. rewrite Hmk. split; [done|].
    split; [done|]. split; [done|]. by rewrite fromDispatch_chunk.
Qed.

Section success.
Context (os : OS) (client : ChatGenerator) (model : Model)
  (prompt filePath : gostring) (sched : list nat) (chunks : list gostring)
  (w1 : World).

Local Abbreviation cd := (chunkDirOf filePath).
Local Abbreviation gw :=
  (dispatch os client sched (spawn model cd (fullPrompt prompt) chunks) w1).

(** A run that gets through the dispatch and returns no error. *)
Lemma fromDispatch_success w' :
  fromDispatch os client model prompt filePath sched chunks w1 = (None, w') →
  err gw.1 = None
  ∧ files w' !! combinedFileName filePath = Some (concat (results gw.1))
  ∧ callsOf w1 w' = newCalls w1 gw.2.
Proof.
  intros Hrun.
  pose proof (fromDispatch_calls os client model prompt filePath sched chunks
                w1) as Hcalls.
  cbv zeta in Hcalls. rewrite Hrun in Hcalls. cbn [snd] in Hcalls.
  unfold fromDispatch in Hrun. destruct (err gw.1) as [e|]; [done|].
  split; [done|]. unfold os_WriteFile in Hrun.
  destruct (writeFault os _); [done|]. injection Hrun as <-.
  cbn [files calls] in *. split; [by rewrite lookup_insert_eq|].
  unfold callsOf. by cbn [calls].
Qed.

Lemma success_result i c :
  err gw.1 = None → chunks !! i = Some c →
  ∃ r, results gw.1 !! i = Some r
    ∧ (files w1 !! rp cd i = Some r
       ∨ (files w1 !! rp cd i = None
          ∧ ∃ res, mkCall model (fullPrompt prompt) i c (inl res)
                   ∈ newCalls w1 gw.2
                   ∧ hasContent res = true ∧ r = firstContent res)).
Proof.
  intros Herr Hc.
  destruct (after_ok os client model cd (fullPrompt prompt) chunks w1 sched
              i c Herr Hc) as (r & Hr & Hok).
  exists r. split; [done|].
  destruct Hok as [[Hhit _]|[Hmiss _]]; [by left|right]. split; [done|].
  by apply (after_generated os client model cd (fullPrompt prompt) chunks w1
              sched i c r).
Qed.

Lemma success_calls :
  err gw.1 = None →
  length (newCalls w1 gw.2) = length (uncached w1 cd (length chunks)).
Proof.
  intros Herr.
  rewrite <- (length_fmap call_index), <- (length_fmap Z.of_nat).
  apply Permutation_length, NoDup_Permutation.
  - apply after_once.
  - apply (NoDup_fmap_2 _), NoDup_filter, NoDup_seq.
  - intros x. split.
    + intros (e & -> & He)%list_elem_of_fmap.
      destruct (after_call os client model cd (fullPrompt prompt) chunks w1
                  sched e He) as (i & c & Hc & Hmk & Hnone & _).
      apply list_elem_of_fmap. exists i. split; [by rewrite Hmk|].
      apply list_elem_of_filter. split; [done|]. apply elem_of_seq.
      apply lookup_lt_Some in Hc. lia.
    + intros (i & -> & [Hnone Hi%elem_of_seq]%list_elem_of_filter)
        %list_elem_of_fmap.
      destruct (lookup_lt_is_Some_2 chunks i) as [c Hc]; [lia|].
      destruct (success_result i c Herr Hc)
        as (r & _ & [Hhit|(_ & res & He & _)]); [congruence|].
      apply list_elem_of_fmap.
      by exists (mkCall model (fullPrompt prompt) i c (inl res)).
Qed.

End success.

(** X12. What a successful run writes: when [ProcessWithClient] was not
    declined and returns no error, the file of the combined results holds
    the results of the chunks, concatenated in the order of the chunks
    whatever the interleaving; the result of a chunk is the content of its
    result file if there was one when the run started, and otherwise the
    content, not empty, of the answer to the call made for that chunk. *)
Theorem successful_run_combines_the_results
    (tokenizer_Get : Encoding → Codec + error) (os : OS) (sched : list nat)
    (client : ChatGenerator) (model : Model) (prompt filePath : gostring)
    (requireConfirmation : bool) (response : gostring) (w w' : World)
    (text : gostring) (enc : Codec) :
  ProcessWithClient tokenizer_Get os sched client model prompt filePath
    requireConfirmation response w = (None, w') →
  requireConfirmation && declines response = false →
  files w !! filePath = Some text →
  tokenizer_Get Cl100kBase = inl enc →
  ∃ rs,
    files w' !! combinedFileName filePath = Some (concat rs)
    ∧ length rs = length (splitWith enc text 2000)
    ∧ ∀ (i : nat) chunk,
        splitWith enc text 2000 !! i = Some chunk →
        ∃ r, rs !! i = Some r
          ∧ (files w !! resultFileName (chunkDirOf filePath) (Z.of_nat i)
             = Some r
             ∨ (files w !! resultFileName (chunkDirOf filePath) (Z.of_nat i)
                = None
                ∧ ∃ res,
                    mkCall model (fullPrompt prompt) i chunk (inl res)
                    ∈ callsOf w w'
                    ∧ hasContent res = true ∧ r = firstContent res)).
Proof.
  intros Hrun Hgo Hfile Hget.
  apply ProcessWithClient_cases in Hrun
    as [[_ Hno]|(text' & enc' & Hfile' & Hget' & _ & _ & Hrun)].
  { rewrite Hno in Hgo; done. }
  replace text' with text in * by congruence.
  replace enc' with enc in * by congruence.
  apply fromDispatch_success in Hrun as (Herr & Hcombined & Hcalls).
  eexists. split; [exact Hcombined|]. split; [apply after_results|].
  intros i chunk Hc. change (callsOf w w') with
    (callsOf (withDir w (chunkDirOf filePath)) w'). rewrite Hcalls.
  exact (success_result os client model prompt filePath sched
           (splitWith enc text 2000) (withDir w (chunkDirOf filePath))
           i chunk Herr Hc).
Qed.

(** X13. A successful run calls the client exactly once for each chunk
    that had no result file when the run started, and not at all for the
    others: the number of its calls is the number of those chunks. *)
Theorem successful_run_calls_once_per_uncached_chunk
    (tokenizer_Get : Encoding → Codec + error) (os : OS) (sched : list nat)
    (client : ChatGenerator) (model : Model) (prompt filePath : gostring)
    (requireConfirmation : bool) (response : gostring) (w w' : World)
    (text : gostring) (enc : Codec) :
  ProcessWithClient tokenizer_Get os sched client model prompt filePath
    requireConfirmation response w = (None, w') →
  requireConfirmation && declines response = false →
  files w !! filePath = Some text →
  tokenizer_Get Cl100kBase = inl enc →
  length (callsOf w w')
  = length (uncached w (chunkDirOf filePath)
              (length (splitWith enc text 2000))).
Proof.
  intros Hrun Hgo Hfile Hget.
  apply ProcessWithClient_cases in Hrun
    as [[_ Hno]|(text' & enc' & Hfile' & Hget' & _ & _ & Hrun)].
  { rewrite Hno in Hgo; done. }
  replace text' with text in * by congruence.
  replace enc' with enc in * by congruence.
  apply fromDispatch_success in Hrun as (Herr & _ & Hcalls).
  change (callsOf w w') with (callsOf (withDir w (chunkDirOf filePath)) w').
  rewrite Hcalls.
  exact (success_calls os client model prompt filePath sched
           (splitWith enc text 2000) (withDir w (chunkDirOf filePath)) Herr).
Qed.

(** X14. The error of a run says what failed: an error returned by
    [ProcessWithClient] is the wrapped error of the document that could not
    be read, of the tokenizer that is not available, of the chunk directory
    that could not be created, of a chunk that failed (and then the file of
    the combined results is as before the run), or of the combined results
    that could not be written; in the first three cases the run has changed
    nothing.  No run reports "failed to split into chunks". *)
Theorem run_error_says_what_failed
    (tokenizer_Get : Encoding → Codec + error) (os : OS) (sched : list nat)
    (client : ChatGenerator) (model : Model) (prompt filePath : gostring)
    (requireConfirmation : bool) (response : gostring) (w w' : World)
    (err : error) :
  ProcessWithClient tokenizer_Get os sched client model prompt filePath
    requireConfirmation response w = (Some err, w') →
  (err = Fmt.Errorf_w (lit "failed to read file: ") (readError os filePath)
   ∧ files w !! filePath = None ∧ w' = w)
  ∨ (∃ x, err = Fmt.Errorf_w (lit "failed to estimate tokens: ")
                  (Fmt.Errorf_w (lit "failed to get tokenizer: ") x)
          ∧ tokenizer_Get Cl100kBase = inr x ∧ w' = w)
  ∨ (∃ x, err = Fmt.Errorf_w (lit "failed to create chunk directory: ") x
          ∧ mkdirFault os (chunkDirOf filePath) = Some x ∧ w' = w)
  ∨ (∃ e j, err = errWait e
            ∧ chunkFailure os (chunkDirOf filePath) (callsOf w w') j e
            ∧ files w' !! combinedFileName filePath
              = files w !! combinedFileName filePath)
  ∨ (∃ x, err = Fmt.Errorf_w (lit "failed to write combined results: ") x
          ∧ writeFault os (combinedFileName filePath) = Some x).
Proof.
  intros Hrun. unfold ProcessWithClient, os_ReadFile in Hrun.
  destruct (files w !! filePath) as [text|] eqn:Hfile.
  2:{ left. by injection Hrun as <- <-. }
  unfold estimateTokens, splitIntoTokenChunks in Hrun.
  destruct (tokenizer_Get Cl100kBase) as [enc|x] eqn:Hget.
  2:{ right. left. exists x. by injection Hrun as <- <-. }
  destruct (requireConfirmation && declines response); [done|].
  unfold os_MkdirAll in Hrun. fold (chunkDirOf filePath) in Hrun.
  destruct (mkdirFault os (chunkDirOf filePath)) as [x|] eqn:Hmk.
  { right. right. left. exists x. by injection Hrun as <- <-. }
  fold (withDir w (chunkDirOf filePath)) in Hrun.
  set (w1 := withDir w (chunkDirOf filePath)) in *.
  set (chunks := splitWith enc text 2000) in *.
  pose proof (after_err os client model (chunkDirOf filePath)
                (fullPrompt prompt) chunks w1 sched) as Herr.
  pose proof (after_frame os client model (chunkDirOf filePath)
                (fullPrompt prompt) chunks w1 sched
                (combinedFileName filePath)) as Hframe.
  destruct (dispatch _ _ _ _ _) as [g w2]. cbn [fst snd] in *.
  destruct (Cli.err g) as [e|].
  - right. right. right. left. injection Hrun as <- <-.
    destruct (Herr e eq_refl) as (i & c & _ & _ & Hf).
    apply failInv_chunkFailure in Hf.
    exists e, (Z.of_nat i). split; [done|]. split; [done|].
    apply Hframe. intros k. apply combined_ne_files.
  - right. right. right. right. unfold os_WriteFile in Hrun.
    destruct (writeFault os (combinedFileName filePath)) as [x|]; [|done].
    exists x. by injection Hrun as <- <-.
Qed.

Lemma fromDispatch_result os client model prompt filePath sched chunks w i :
  let gw := dispatch os client sched
              (spawn model (chunkDirOf filePath) (fullPrompt prompt) chunks)
              w in
  files (fromDispatch os client model prompt filePath sched chunks w).2
    !! rp (chunkDirOf filePath) i
  = files gw.2 !! rp (chunkDirOf filePath) i.
Proof.
  intros gw. unfold fromDispatch. fold gw. destruct (err gw.1); [done|].
  unfold os_WriteFile. destruct (writeFault os _); [done|].
  cbn [snd files]. rewrite lookup_insert_ne; [done|].
  apply (combined_ne_files filePath i).
Qed.

(** A content that was received and could be written is in the result file
    of its chunk after the run. *)
Lemma run_caches_content tokenizer_Get os sched client model prompt filePath
    requireConfirmation response w ret w' e res :
  ProcessWithClient tokenizer_Get os sched client model prompt filePath
    requireConfirmation response w = (ret, w') →
  e ∈ callsOf w w' → call_result e = inl res → hasContent res = true →
  writeFault os (resultFileName (chunkDirOf filePath) (call_index e)) = None →
  files w' !! resultFileName (chunkDirOf filePath) (call_index e)
  = Some (firstContent res).
Proof.
  intros Hrun He Hres Hcontent Hw. unfold callsOf in He.
  apply ProcessWithClient_cases in Hrun
    as [[-> _]|(text & enc & _ & _ & _ & _ & Hrun)].
  { rewrite drop_all in He. by apply elem_of_nil in He. }
  apply (f_equal snd) in Hrun. cbn [snd] in Hrun. subst w'.
  rewrite fromDispatch_calls in He.
  set (w1 := withDir w (chunkDirOf filePath)) in *.
  set (chunks := splitWith enc text 2000) in *.
  change (drop (length (calls w)) (calls ?x)) with (newCalls w1 x) in He.
  destruct (after_entry os client model (chunkDirOf filePath)
              (fullPrompt prompt) chunks w1 sched e He)
    as (k & ck & _ & Hmk & Hm).
  rewrite Hres, Hcontent in Hm. rewrite Hmk in Hw |- *.
  cbn [call_index mkCall] in Hw |- *.
  fold (rp (chunkDirOf filePath) k) in Hw |- *.
  rewrite fromDispatch_result. destruct Hm as (_ & _ & [?|Hs]); [done|].
  rewrite Hw in Hs. by destruct Hs.
Qed.

(** X15. Resuming after a run: a chunk whose content was received in a
    run, and whose result file could be written, is not sent again by the
    next run on the same document, whatever that run's client, schedule and
    outcome. *)
Theorem resume_skips_cached_chunks
    (tokenizer_Get : Encoding → Codec + error) (os : OS)
    (sched1 sched2 : list nat) (client1 client2 : ChatGenerator)
    (model : Model) (prompt filePath : gostring)
    (confirm1 confirm2 : bool) (response1 response2 : gostring)
    (w w1 w2 : World) (ret1 ret2 : option error)
    (e1 e2 : Call) (res : ChatCompletion) :
  ProcessWithClient tokenizer_Get os sched1 client1 model prompt filePath
    confirm1 response1 w = (ret1, w1) →
  ProcessWithClient tokenizer_Get os sched2 client2 model prompt filePath
    confirm2 response2 w1 = (ret2, w2) →
  e1 ∈ callsOf w w1 → call_result e1 = inl res → hasContent res = true →
  writeFault os (resultFileName (chunkDirOf filePath) (call_index e1))
  = None →
  e2 ∈ callsOf w1 w2 →
  call_index e2 ≠ call_index e1.
Proof.
  intros Hrun1 Hrun2 He1 Hres Hcontent Hw He2 Heq.
  pose proof (run_caches_content _ _ _ _ _ _ _ _ _ _ _ _ _ _
                Hrun1 He1 Hres Hcontent Hw) as Hfile.
  unfold callsOf in He2.
  apply ProcessWithClient_cases in Hrun2
    as [[-> _]|(text & enc & _ & _ & _ & _ & Hrun2)].
  { rewrite drop_all in He2. by apply elem_of_nil in He2. }
  apply (f_equal snd) in Hrun2. cbn [snd] in Hrun2. subst w2.
  rewrite fromDispatch_calls in He2.
  change (drop (length (calls w1)) (calls ?x))
    with (newCalls (withDir w1 (chunkDirOf filePath)) x) in He2.
  destruct (after_call os client2 model (chunkDirOf filePath)
              (fullPrompt prompt) (splitWith enc text 2000)
              (withDir w1 (chunkDirOf filePath)) sched2 e2 He2)
    as (i & c & _ & Hmk & Hnone & _).
  rewrite <- Heq, Hmk in Hfile. cbn [call_index mkCall withDir files] in *.
  unfold rp in Hnone. congruence.
Qed.

(** ** The further properties on concrete runs *)

Lemma chunk_write_failure_is_an_error_witness :
  runProg noChunkOS (answering "unused") 0 false
    (processChunk ModelGPT5Nano 0 (lit "doc") (lit "test prompt")
       (lit "This test will fail.")) docWorld
  = (([], Some (errWriteChunk 0
                  (errorString
                     (lit "open doc/chunk1.txt: permission denied")))),
     docWorld)
  ∧ Error (errWriteChunk 0
             (errorString (lit "open doc/chunk1.txt: permission denied")))
    = lit "failed to write chunk " ++ Fmt.itoa (0 + 1) ++ lit ": "
      ++ Error (errorString (lit "open doc/chunk1.txt: permission denied")).
Proof.
  apply (chunk_write_failure_is_an_error noChunkOS (answering "unused")
           ModelGPT5Nano 0 (lit "doc") (lit "test prompt")
           (lit "This test will fail.") false docWorld).
  - by vm_compute.
  - by vm_compute.
Defined.

Lemma generation_failure_is_an_error_witness :
  ∃ w',
    runProg plainOS failing 0 false
      (processChunk ModelGPT5Nano 0 (lit "doc") (lit "test prompt")
         (lit "This test will fail.")) docWorld
    = (([], Some (errGenerate 0 apiError)), w')
    ∧ Error (errGenerate 0 apiError)
      = lit "failed to generate chat completion for chunk "
        ++ Fmt.itoa (0 + 1) ++ lit ": " ++ Error apiError
    ∧ files w' = <[chunkFileName (lit "doc") 0 := lit "This test will fail."]>
                   (files docWorld)
    ∧ files w' !! resultFileName (lit "doc") 0 = None
    ∧ calls w'
      = calls docWorld
        ++ [{| call_index := 0;
               call_params := chunkParams ModelGPT5Nano (lit "test prompt")
                                (lit "This test will fail.");
               call_result := inr apiError |}].
Proof.
  apply (generation_failure_is_an_error plainOS failing ModelGPT5Nano 0
           (lit "doc") (lit "test prompt") (lit "This test will fail.")
           false docWorld apiError).
  - by vm_compute.
  - reflexivity.
  - reflexivity.
Defined.

Lemma generated_result_is_cached_witness :
  ∃ w',
    runProg plainOS (answering "processed content") 0 false
      (processChunk ModelGPT5Nano 0 (lit "doc") (lit "test prompt")
         (lit "This test will fail.")) docWorld
    = ((lit "processed content", None), w')
    ∧ files w'
      = <[resultFileName (lit "doc") 0 := lit "processed content"]>
          (<[chunkFileName (lit "doc") 0 := lit "This test will fail."]>
             (files docWorld))
    ∧ calls w'
      = calls docWorld
        ++ [{| call_index := 0;
               call_params := chunkParams ModelGPT5Nano (lit "test prompt")
                                (lit "This test will fail.");
               call_result :=
                 inl {| Choices :=
                          [{| MessageContent := lit "processed content" |}] |}
            |}]
    ∧ ∀ client' model' prompt' chunk' ctxDone',
        runProg plainOS client' 0 ctxDone'
          (processChunk model' 0 (lit "doc") prompt' chunk') w'
        = ((lit "processed content", None), w').
Proof.
  apply (generated_result_is_cached plainOS (answering "processed content")
           ModelGPT5Nano 0 (lit "doc") (lit "test prompt")
           (lit "This test will fail.") false docWorld
           {| Choices := [{| MessageContent := lit "processed content" |}] |}).
  - by vm_compute.
  - reflexivity.
  - reflexivity.
  - reflexivity.
  - reflexivity.
Defined.

Lemma calls_are_for_uncached_chunks_witness :
  NoDup (call_index <$> callsOf twoWorld warmRun.2)
  ∧ ∀ e, e ∈ callsOf twoWorld warmRun.2 →
      ∃ (i : nat) chunk,
        splitWith flatCodec (lit "alpha" ++ nl ++ lit "beta") 2000 !! i
        = Some chunk
        ∧ call_index e = Z.of_nat i
        ∧ call_params e
          = chunkParams ModelGPT5Nano (fullPrompt (lit "keep")) chunk
        ∧ files twoWorld
            !! resultFileName (chunkDirOf (lit "two.txt")) (Z.of_nat i)
          = None
        ∧ files warmRun.2
            !! chunkFileName (chunkDirOf (lit "two.txt")) (Z.of_nat i)
          = Some chunk.
Proof.
  apply (calls_are_for_uncached_chunks flatTokenizer plainOS
           [1%nat; 0%nat; 1%nat] (answering "B") ModelGPT5Nano (lit "keep")
           (lit "two.txt") false [] twoWorld warmRun.2 warmRun.1
           (lit "alpha" ++ nl ++ lit "beta") flatCodec).
  - by vm_compute.
  - by vm_compute.
  - reflexivity.
Defined.

Lemma successful_run_combines_the_results_witness :
  ∃ rs,
    files warmRun.2 !! combinedFileName (lit "two.txt") = Some (concat rs)
    ∧ length rs
      = length (splitWith flatCodec (lit "alpha" ++ nl ++ lit "beta") 2000)
    ∧ ∀ (i : nat) chunk,
        splitWith flatCodec (lit "alpha" ++ nl ++ lit "beta") 2000 !! i
        = Some chunk →
        ∃ r, rs !! i = Some r
          ∧ (files twoWorld
               !! resultFileName (chunkDirOf (lit "two.txt")) (Z.of_nat i)
             = Some r
             ∨ (files twoWorld
                  !! resultFileName (chunkDirOf (lit "two.txt")) (Z.of_nat i)
                = None
                ∧ ∃ res,
                    mkCall ModelGPT5Nano (fullPrompt (lit "keep")) i chunk
                      (inl res)
                    ∈ callsOf twoWorld warmRun.2
                    ∧ hasContent res = true ∧ r = firstContent res)).
Proof.
  apply (successful_run_combines_the_results flatTokenizer plainOS
           [1%nat; 0%nat; 1%nat] (answering "B") ModelGPT5Nano (lit "keep")
           (lit "two.txt") false [] twoWorld warmRun.2
           (lit "alpha" ++ nl ++ lit "beta") flatCodec).
  - by vm_compute.
  - reflexivity.
  - by vm_compute.
  - reflexivity.
Defined.

Lemma successful_run_calls_once_per_uncached_chunk_witness :
  length (callsOf twoWorld warmRun.2)
  = length (uncached twoWorld (chunkDirOf (lit "two.txt"))
              (length (splitWith flatCodec
                         (lit "alpha" ++ nl ++ lit "beta") 2000))).
Proof.
  apply (successful_run_calls_once_per_uncached_chunk flatTokenizer plainOS
           [1%nat; 0%nat; 1%nat] (answering "B") ModelGPT5Nano (lit "keep")
           (lit "two.txt") false [] twoWorld warmRun.2
           (lit "alpha" ++ nl ++ lit "beta") flatCodec).
  - by vm_compute.
  - reflexivity.
  - by vm_compute.
  - reflexivity.
Defined.

Lemma run_error_says_what_failed_witness :
  (errWait (errGenerate 1 apiError)
   = Fmt.Errorf_w (lit "failed to read file: ")
       (readError plainOS (lit "two.txt"))
   ∧ files coldWorld !! lit "two.txt" = None ∧ brokenRun.2 = coldWorld)
  ∨ (∃ x, errWait (errGenerate 1 apiError)
          = Fmt.Errorf_w (lit "failed to estimate tokens: ")
              (Fmt.Errorf_w (lit "failed to get tokenizer: ") x)
          ∧ flatTokenizer Cl100kBase = inr x ∧ brokenRun.2 = coldWorld)
  ∨ (∃ x, errWait (errGenerate 1 apiError)
          = Fmt.Errorf_w (lit "failed to create chunk directory: ") x
          ∧ mkdirFault plainOS (chunkDirOf (lit "two.txt")) = Some x
          ∧ brokenRun.2 = coldWorld)
  ∨ (∃ e j, errWait (errGenerate 1 apiError) = errWait e
            ∧ chunkFailure plainOS (chunkDirOf (lit "two.txt"))
                (callsOf coldWorld brokenRun.2) j e
            ∧ files brokenRun.2 !! combinedFileName (lit "two.txt")
              = files coldWorld !! combinedFileName (lit "two.txt"))
  ∨ (∃ x, errWait (errGenerate 1 apiError)
          = Fmt.Errorf_w (lit "failed to write combined results: ") x
          ∧ writeFault plainOS (combinedFileName (lit "two.txt")) = Some x).
Proof.
  apply (run_error_says_what_failed flatTokenizer plainOS [] (answeringOnce "A")
           ModelGPT5Nano (lit "keep") (lit "two.txt") false [] coldWorld
           brokenRun.2 (errWait (errGenerate 1 apiError))).
  by vm_compute.
Defined.

Lemma resume_skips_cached_chunks_witness :
  callB ∈ callsOf brokenRun.2 resumedRun.2
  ∧ call_index callB ≠ call_index callA.
Proof.
  split; [vm_compute; apply list_elem_of_here|].
  apply (resume_skips_cached_chunks flatTokenizer plainOS []
           [1%nat; 1%nat; 0%nat] (answeringOnce "A") (answering "B")
           ModelGPT5Nano (lit "keep") (lit "two.txt") false false [] []
           coldWorld brokenRun.2 resumedRun.2 brokenRun.1 resumedRun.1
           callA callB
           {| Choices := [{| MessageContent := lit "A" |}] |}).
  - by vm_compute.
  - by vm_compute.
  - vm_compute. apply list_elem_of_here.
  - reflexivity.
  - reflexivity.
  - reflexivity.
  - vm_compute. apply list_elem_of_here.
Defined.
